(** * xlsx-json: the flat-path / nested-tree transform

    A shallow embedding of the three transform functions of the repository:

    - [unflatten]  (first script, [setDeep] closure over a shared [root]);
    - [unflatten2] (second script, the older in-line variant);
    - [flattenJSON] (third script);

    and of the code around them: the loops over the rows of a sheet and
    [detectColumns] and [processWorkbookToJSON] (first and second script),
    the rows that the third script builds, and the file names.

    JavaScript values are a first-order datatype.  An object is the list of
    its own enumerable properties in enumeration order (integer-like keys in
    ascending order first, then the other keys in insertion order).  An
    array is a list of slots, a hole being [None], together with the named
    properties that the code may hang on it.  Property keys are strings;
    [cur[idx]] with a number [idx] goes through [String(idx)], as in the
    language.

    Mutation of the shared tree through [cur] and [parentInfo] is rendered
    by state passing: the walk over the path segments returns the updated
    container, which the caller stores back in the slot it was read from.

    Scope of the embedding.  A string is a sequence of code units below
    256.  A number carried as a value is an integer; it is printed only
    where [String] is applied to a key cell.  Values are compared by
    structure; no container is shared between two places of a tree.

    Property tables hold own properties, and every segment of a path is
    taken for an ordinary property name.  The language departs from that in
    three cases: the name [__proto__], which reads and writes the prototype
    of a container; the name [length] at an array, whose assignment
    truncates the array or throws; and a digit string that denotes 2^53 or
    more, which [Number] rounds.  The functions below are total and render
    the code exactly on the runs that meet none of the three.  The section
    on where the embedding holds defines those runs ([unflatten_within],
    [ordinary_map], [flatten_within], [files_within], [key_cell_ok]); the
    properties are stated on them, or on well-formed inputs, which are
    proved to be among them.  On such a run the code executes no statement
    that can throw.  Reading a property that a plain object lacks falls
    back on [Object.prototype]; this is represented where the code depends
    on it ([read]). *)

From Stdlib Require Import List String Ascii Bool Arith NArith ZArith Lia.
From Stdlib Require Import Decimal DecimalString DecimalN.
Import ListNotations.

#[local] Open Scope string_scope.
#[local] Open Scope list_scope.

(** * Embedding *)

(** ** Values *)

Unset Elimination Schemes.

Inductive value : Type :=
| VUndef
| VNull
| VBool (b : bool)
| VNum (n : Z)
| VStr (s : string)
| VFun
| VObj (props : list (string * value))
| VArr (elems : list (option value)) (props : list (string * value)).

Set Elimination Schemes.

Definition props := list (string * value).

(** [Array.isArray(v)] *)
Definition isArray (v : value) : bool :=
  match v with VArr _ _ => true | _ => false end.

(** [typeof v === 'object'] (true of [null] too) *)
Definition typeof_object (v : value) : bool :=
  match v with VNull | VObj _ | VArr _ _ => true | _ => false end.

(** [v == null] *)
Definition is_nullish (v : value) : bool :=
  match v with VUndef | VNull => true | _ => false end.

(** [v ?? ''] *)
Definition nullish_default (v : value) : value :=
  if is_nullish v then VStr "" else v.

(** [v && typeof v === 'object' && !Array.isArray(v)]: every object is
    truthy and [null] is falsy, so this holds of plain objects only. *)
Definition is_plain_object (v : value) : bool :=
  match v with VObj _ => true | _ => false end.

Definition is_container (v : value) : bool :=
  match v with VObj _ | VArr _ _ => true | _ => false end.

(** ** Strings: digits, [Number], [String], [split] *)

Definition is_digit (c : ascii) : bool :=
  let n := nat_of_ascii c in (48 <=? n)%nat && (n <=? 57)%nat.

Fixpoint all_digits (s : string) : bool :=
  match s with
  | EmptyString => true
  | String c s' => is_digit c && all_digits s'
  end.

(** [isIndex = (p) => /^\d+$/.test(p)] *)
Definition isIndex (p : string) : bool :=
  match p with
  | EmptyString => false
  | String _ _ => all_digits p
  end.

(** [Number(p)] for a digit string [p] *)
Definition Number (p : string) : N :=
  match NilEmpty.uint_of_string p with
  | Some d => N.of_uint d
  | None => 0%N
  end.

(** [String(n)] for a non-negative integer [n] *)
Definition String_of (n : N) : string :=
  NilEmpty.string_of_uint (N.to_uint n).

(** The property key that [cur[Number(p)]] reads and writes *)
Definition index_key (p : string) : string := String_of (Number p).

Definition max_array_index : N := 4294967295.

(** A key is an array index when it is the canonical decimal form of an
    integer below 2^32 - 1. *)
Definition array_index (k : string) : option N :=
  if isIndex k && (String_of (Number k) =? k) && (Number k <? max_array_index)%N
  then Some (Number k) else None.

(** [s.split('.')]: the segments between the dots, never an empty list *)
Fixpoint split (s : string) : list string :=
  match s with
  | EmptyString => [""]
  | String c s' =>
      if Ascii.eqb c "." then "" :: split s'
      else match split s' with
           | seg :: segs => String c seg :: segs
           | [] => [String c ""]
           end
  end.

(** ** Property tables *)

Fixpoint assoc (k : string) (ps : props) : option value :=
  match ps with
  | [] => None
  | (k', v) :: ps' => if k' =? k then Some v else assoc k ps'
  end.

Definition has_key (k : string) (ps : props) : bool :=
  match assoc k ps with Some _ => true | None => false end.

Fixpoint replace (k : string) (v : value) (ps : props) : props :=
  match ps with
  | [] => []
  | (k', v') :: ps' =>
      if k' =? k then (k', v) :: ps' else (k', v') :: replace k v ps'
  end.

(** A new integer-like key goes before the first key that is not
    integer-like or denotes a larger integer. *)
Fixpoint insert_index (n : N) (k : string) (v : value) (ps : props) : props :=
  match ps with
  | [] => [(k, v)]
  | (k', v') :: ps' =>
      match array_index k' with
      | Some m => if (m <? n)%N then (k', v') :: insert_index n k v ps'
                  else (k, v) :: ps
      | None => (k, v) :: ps
      end
  end.

(** [o[k] = v] on the property table of an object *)
Definition props_set (k : string) (v : value) (ps : props) : props :=
  if has_key k ps then replace k v ps
  else match array_index k with
       | Some n => insert_index n k v ps
       | None => ps ++ [(k, v)]
       end.

(** [a[n] = v] on the slots of an array: the array grows, leaving holes *)
Fixpoint elems_set (n : nat) (v : value) (es : list (option value))
  : list (option value) :=
  match n, es with
  | O, [] => [Some v]
  | O, _ :: es' => Some v :: es'
  | S n', [] => None :: elems_set n' v []
  | S n', e :: es' => e :: elems_set n' v es'
  end.

(** [cur[k]]: [None] is an absent property or a hole, read as [undefined] *)
Definition get_prop (k : string) (cur : value) : option value :=
  match cur with
  | VObj ps => assoc k ps
  | VArr es ps =>
      match array_index k with
      | Some n => match nth_error es (N.to_nat n) with
                  | Some (Some v) => Some v
                  | _ => None
                  end
      | None => assoc k ps
      end
  | _ => None
  end.

(** [cur[k] = v]; the code only writes to containers *)
Definition set_prop (k : string) (v : value) (cur : value) : value :=
  match cur with
  | VObj ps => VObj (props_set k v ps)
  | VArr es ps =>
      match array_index k with
      | Some n => VArr (elems_set (N.to_nat n) v es) ps
      | None => VArr es (props_set k v ps)
      end
  | _ => cur
  end.

(** [x == null || typeof x !== 'object'] on the result of a property read *)
Definition not_an_object (x : option value) : bool :=
  match x with
  | None => true
  | Some v => is_nullish v || negb (typeof_object v)
  end.

(** The container found at a slot, or the fresh one the code stores there:
    [[]] when the next segment is an index, [{}] otherwise. *)
Definition child_or_fresh (x : option value) (nextIsIndex : bool) : value :=
  if not_an_object x then (if nextIsIndex then VArr [] [] else VObj [])
  else match x with Some v => v | None => VUndef end.

(** ** [unflatten], first script *)

(** The block guarded by [if (!Array.isArray(cur))] in [setDeep]: with a
    parent, the parent slot (which holds [cur]) receives an array, the one
    already there or a fresh one, and [cur] becomes that array; at the root
    [cur] stays as it is. *)
Definition ensure_array (hasParent : bool) (cur : value) : value :=
  if negb (isArray cur) then
    if hasParent then (if isArray cur then cur else VArr [] [])
    else cur
  else cur.

(** The loop of [setDeep] from segment [i] on; [hasParent] is the
    truthiness of [parentInfo.container], [cur] the container reached, [val]
    the parameter [value] of the source.  The result is the updated [cur]. *)
Fixpoint setDeep_from (hasParent : bool) (parts : list string)
    (val : value) (cur : value) : value :=
  match parts with
  | [] => cur
  | p :: rest =>
      match rest with
      | [] =>
          if isIndex p then
            set_prop (index_key p) val (ensure_array hasParent cur)
          else set_prop p val cur
      | next :: _ =>
          let nextIsIndex := isIndex next in
          if isIndex p then
            let idx := index_key p in
            let cur := ensure_array hasParent cur in
            let child := child_or_fresh (get_prop idx cur) nextIsIndex in
            set_prop idx (setDeep_from true rest val child) cur
          else
            let child := child_or_fresh (get_prop p cur) nextIsIndex in
            set_prop p (setDeep_from true rest val child) cur
      end
  end.

Definition setDeep (parts : list string) (val : value) (root : value) : value :=
  setDeep_from false parts val root.

(** [Object.entries(v)] *)
Fixpoint elems_entries (i : N) (es : list (option value)) : props :=
  match es with
  | [] => []
  | None :: es' => elems_entries (N.succ i) es'
  | Some v :: es' => (String_of i, v) :: elems_entries (N.succ i) es'
  end.

Fixpoint chars_entries (i : N) (s : string) : props :=
  match s with
  | EmptyString => []
  | String c s' => (String_of i, VStr (String c "")) :: chars_entries (N.succ i) s'
  end.

Definition entries (v : value) : props :=
  match v with
  | VObj ps => ps
  | VArr es ps => elems_entries 0 es ++ ps
  | VStr s => chars_entries 0 s
  | _ => []
  end.

(** One turn of the [for ... of Object.entries(flatObj || {})] loop *)
Definition unflatten_step (root : value) (e : string * value) : value :=
  let '(flatKey, val) := e in
  if flatKey =? "" then root
  else setDeep (split flatKey) val root.

Definition unflatten (flatObj : value) : value :=
  fold_left unflatten_step (entries flatObj) (VObj []).

(** ** [unflatten], second script *)

(** [Object.assign(target, source)] *)
Definition object_assign (target source : value) : value :=
  fold_left (fun t e => set_prop (fst e) (snd e) t) (entries source) target.

(** [for (const k of Object.keys(cur)) delete cur[k]] on a plain object *)
Definition delete_all (cur : value) : value :=
  match cur with
  | VObj _ => VObj []
  | _ => cur
  end.

(** The body of the inner [for] loop of the second [unflatten] from segment
    [i] on.  At a last index segment under a non-array [cur] the write goes
    to [arr], a copy that no slot of the tree refers to, so the tree keeps
    [cur] as it was.  At an inner index segment under a non-array [cur] the
    first [if (isIndex(p))] block only fills a local array and changes
    nothing; the second deletes the properties of [cur] and adds [push] to
    it.  The copy [Object.assign(arr, cur)] assigns every property of [cur]
    to an array, so it can throw where [cur] has a property [length]; the
    properties of [unflatten2] are stated where the copy meets no such
    container. *)
Fixpoint walk2 (parts : list string) (val : value) (cur : value) : value :=
  match parts with
  | [] => cur
  | p :: rest =>
      match rest with
      | [] =>
          if isIndex p then
            if negb (isArray cur) then
              let arr := object_assign (VArr [] []) cur in
              let _detached := set_prop (index_key p) val arr in
              cur
            else set_prop (index_key p) val cur
          else set_prop p val cur
      | next :: _ =>
          let shouldBeArray := isIndex next in
          if isIndex p then
            let idx := index_key p in
            let cur :=
              if negb (isArray cur)
              then set_prop "push" VFun (delete_all cur)
              else cur in
            let child := child_or_fresh (get_prop idx cur) shouldBeArray in
            set_prop idx (walk2 rest val child) cur
          else
            let child := child_or_fresh (get_prop p cur) shouldBeArray in
            set_prop p (walk2 rest val child) cur
      end
  end.

Definition unflatten2_step (root : value) (e : string * value) : value :=
  let '(flatKey, val) := e in
  if flatKey =? "" then root
  else walk2 (split flatKey) val root.

Definition unflatten2 (flatObj : value) : value :=
  fold_left unflatten2_step (entries flatObj) (VObj []).

(** ** [flattenJSON], third script *)

(** [parentKey ? `${parentKey}.${k}` : k] *)
Definition join_key (parentKey k : string) : string :=
  if parentKey =? "" then k else (parentKey ++ "." ++ k)%string.

(** The loops of [flattenJSON(obj, parentKey, out)].  [out] is the property
    table of the accumulator object, which the function returns.  The
    recursive calls go through the variable [flattenJSON]. *)
Section FlattenLoops.
Variable flattenJSON : value -> string -> props -> props.

(** The callback of [v.forEach], applied to the slots from position [i]
    on; [forEach] visits the slots that are not holes. *)
Fixpoint forEach_from (nk : string) (i : N) (es : list (option value))
    (out : props) : props :=
  match es with
  | [] => out
  | None :: es' => forEach_from nk (N.succ i) es' out
  | Some iv :: es' =>
      let key := (nk ++ "." ++ String_of i)%string in
      forEach_from nk (N.succ i) es'
        (match iv with
         | VObj _ => flattenJSON iv key out
         | _ => props_set key (nullish_default iv) out
         end)
  end.

(** The body of the [for ... of Object.entries(obj)] loop *)
Definition flatten_entry (parentKey k : string) (v : value) (out : props)
  : props :=
  let nk := join_key parentKey k in
  match v with
  | VObj _ => flattenJSON v nk out
  | VArr es _ => forEach_from nk 0%N es out
  | _ => props_set nk (nullish_default v) out
  end.

(** The loop over the named properties of [obj] *)
Fixpoint flatten_named (parentKey : string) (ps : list (string * value))
    (out : props) : props :=
  match ps with
  | [] => out
  | (k, v) :: ps' =>
      flatten_named parentKey ps' (flatten_entry parentKey k v out)
  end.

(** The loop over the slots of an array [obj], which [Object.entries]
    lists first, under the keys [String(i)] *)
Fixpoint flatten_indexed (parentKey : string) (i : N)
    (es : list (option value)) (out : props) : props :=
  match es with
  | [] => out
  | None :: es' => flatten_indexed parentKey (N.succ i) es' out
  | Some v :: es' =>
      flatten_indexed parentKey (N.succ i) es'
        (flatten_entry parentKey (String_of i) v out)
  end.
End FlattenLoops.

Fixpoint flattenJSON (obj : value) (parentKey : string) (out : props) : props :=
  match obj with
  | VObj ps => flatten_named flattenJSON parentKey ps out
  | VArr es ps =>
      flatten_named flattenJSON parentKey ps
        (flatten_indexed flattenJSON parentKey 0%N es out)
  | _ => out
  end.

(** [flattenJSON(obj)], with the default [parentKey = ''] and [out = {}] *)
Definition flatten (obj : value) : value := VObj (flattenJSON obj "" []).

(** ** Induction over values *)

Section ValueInd.
Variable P : value -> Prop.
Hypothesis HUndef : P VUndef.
Hypothesis HNull : P VNull.
Hypothesis HBool : forall b, P (VBool b).
Hypothesis HNum : forall n, P (VNum n).
Hypothesis HStr : forall s, P (VStr s).
Hypothesis HFun : P VFun.
Hypothesis HObj :
  forall ps, Forall (fun kv => P (snd kv)) ps -> P (VObj ps).
Hypothesis HArr :
  forall es ps,
    Forall (fun e => forall v, e = Some v -> P v) es ->
    Forall (fun kv => P (snd kv)) ps -> P (VArr es ps).

Fixpoint value_ind (v : value) : P v :=
  let on_props :=
    fix on_props (ps : list (string * value))
      : Forall (fun kv => P (snd kv)) ps :=
      match ps with
      | [] => Forall_nil _
      | kv :: ps' => Forall_cons kv (value_ind (snd kv)) (on_props ps')
      end in
  match v with
  | VUndef => HUndef
  | VNull => HNull
  | VBool b => HBool b
  | VNum n => HNum n
  | VStr s => HStr s
  | VFun => HFun
  | VObj ps => HObj ps (on_props ps)
  | VArr es ps =>
      HArr es ps
        ((fix on_elems (es : list (option value))
            : Forall (fun e => forall v, e = Some v -> P v) es :=
            match es with
            | [] => Forall_nil _
            | e :: es' =>
                Forall_cons e
                  (match e as e0 return forall v, e0 = Some v -> P v with
                   | Some w => fun v H =>
                       match H in _ = o
                             return match o with Some x => P x | None => True end
                       with eq_refl => value_ind w end
                   | None => fun v H =>
                       match H in _ = o
                             return match o with Some x => P x | None => True end
                       with eq_refl => I end
                   end)
                  (on_elems es')
            end) es)
        (on_props ps)
  end.
End ValueInd.

(** ** Notions used to state the properties *)

(** A string without a dot: [split] leaves it whole *)
Fixpoint no_dot (s : string) : bool :=
  match s with
  | EmptyString => true
  | String c s' => negb (Ascii.eqb c ".") && no_dot s'
  end.

(** The value in slot [n] of an array, if the slot is not a hole *)
Definition slot (es : list (option value)) (n : nat) : option value :=
  match nth_error es n with Some (Some v) => Some v | _ => None end.

(** The property key under which [setDeep] addresses segment [p] *)
Definition seg_key (p : string) : string :=
  if isIndex p then index_key p else p.

(** The node that a list of segments addresses from [cur], each segment
    read the way [setDeep] addresses it.  Nothing lies below a value that
    is not a container. *)
Fixpoint getDeep (parts : list string) (cur : value) : option value :=
  match parts with
  | [] => Some cur
  | p :: rest =>
      match get_prop (seg_key p) cur with
      | Some c => getDeep rest c
      | None => None
      end
  end.

(** The container [setDeep] works on at segment [p] *)
Definition enter (hasParent : bool) (p : string) (cur : value) : value :=
  if isIndex p then ensure_array hasParent cur else cur.

(** The white space that [trim] removes, among the ASCII characters *)
Definition is_space (c : ascii) : bool :=
  let n := nat_of_ascii c in
  ((9 <=? n)%nat && (n <=? 13)%nat) || (n =? 32)%nat.


(** ** What [flattenJSON] emits, as paths *)

(** A path one segment longer *)
Definition cons_seg (k : string) (e : list string * value) : list string * value :=
  (k :: fst e, snd e).

(** The segment lists and values of the assignments [out[key] = value] that
    [flattenJSON] performs, in order.  A sequence that is a direct element
    of a sequence is not entered: it is emitted as a value. *)
Section FlatPaths.
Variable flat_paths : value -> list (list string * value).

Definition elem_paths (iv : value) : list (list string * value) :=
  match iv with
  | VObj _ => flat_paths iv
  | _ => [([], nullish_default iv)]
  end.

Fixpoint elems_paths (i : N) (es : list (option value))
  : list (list string * value) :=
  match es with
  | [] => []
  | None :: es' => elems_paths (N.succ i) es'
  | Some iv :: es' =>
      map (cons_seg (String_of i)) (elem_paths iv)
      ++ elems_paths (N.succ i) es'
  end.

Definition below_paths (v : value) : list (list string * value) :=
  match v with
  | VObj _ => flat_paths v
  | VArr es _ => elems_paths 0%N es
  | _ => [([], nullish_default v)]
  end.

Fixpoint named_paths (ps : list (string * value))
  : list (list string * value) :=
  match ps with
  | [] => []
  | (k, v) :: ps' => map (cons_seg k) (below_paths v) ++ named_paths ps'
  end.

Fixpoint indexed_paths (i : N) (es : list (option value))
  : list (list string * value) :=
  match es with
  | [] => []
  | None :: es' => indexed_paths (N.succ i) es'
  | Some v :: es' =>
      map (cons_seg (String_of i)) (below_paths v)
      ++ indexed_paths (N.succ i) es'
  end.
End FlatPaths.

Fixpoint flat_paths (t : value) : list (list string * value) :=
  match t with
  | VObj ps => named_paths flat_paths ps
  | VArr es ps => indexed_paths flat_paths 0%N es ++ named_paths flat_paths ps
  | _ => []
  end.

(** The key of a path below [parentKey] *)
Definition path_key (parentKey : string) (path : list string) : string :=
  fold_left join_key path parentKey.

(** A path and its value as the write [out[key] = value] *)
Definition keyed (parentKey : string) (e : list string * value) : string * value :=
  (path_key parentKey (fst e), snd e).

(** The write itself *)
Definition set_entry (out : props) (e : string * value) : props :=
  props_set (fst e) (snd e) out.

(** The keys that [Object.entries(t)] lists are not empty *)
Definition top_keys_nonempty (t : value) : Prop :=
  match t with
  | VObj ps | VArr _ ps => Forall (fun kv => fst kv <> "") ps
  | _ => True
  end.

(** [flattenJSON] on [t] performs the writes listed by [flat_paths t] *)
Definition flatten_spec (t : value) : Prop :=
  forall pk out,
    pk <> "" \/ top_keys_nonempty t ->
    flattenJSON t pk out =
    fold_left set_entry (map (keyed pk) (flat_paths t)) out.

(** The same for the elements of a sequence [t] *)
Definition slots_spec (t : value) : Prop :=
  match t with
  | VArr es _ => Forall (fun e => forall w, e = Some w -> flatten_spec w) es
  | _ => True
  end.

(** Processing a list of paths with [setDeep], from a container [cur] *)
Definition build (hasParent : bool) (l : list (list string * value)) (cur : value)
  : value :=
  fold_left (fun r e => setDeep_from hasParent (fst e) (snd e) r) l cur.

(** ** Well-formed trees *)

(** A name segment: not empty, without a dot, not a digit string, and not
    [__proto__], which no assignment makes an own property *)
Definition is_name (k : string) : bool :=
  negb (k =? "") && no_dot k && negb (isIndex k) && negb (k =? "__proto__").

(** The scalars of the data model: booleans, numbers and strings *)
Definition is_scalar (v : value) : bool :=
  match v with VBool _ | VNum _ | VStr _ => true | _ => false end.

(** No key occurs twice *)
Fixpoint distinct (ks : list string) : bool :=
  match ks with
  | [] => true
  | k :: ks' => negb (existsb (String.eqb k) ks') && distinct ks'
  end.

Definition is_nil {A : Type} (l : list A) : bool :=
  match l with [] => true | _ => false end.

(** A node below the root of a well-formed tree: a scalar, a mapping with
    at least one child under distinct names, or a sequence with at least one
    child, without holes and without named properties.  The length of a
    sequence is at most 2^32 - 1, as for every array of the language. *)
Fixpoint wf_node (t : value) : bool :=
  match t with
  | VBool _ | VNum _ | VStr _ => true
  | VObj ps =>
      negb (is_nil ps)
      && forallb (fun kv => is_name (fst kv)) ps
      && distinct (map fst ps)
      && forallb (fun kv => wf_node (snd kv)) ps
  | VArr es ps =>
      is_nil ps
      && negb (is_nil es)
      && (N.of_nat (List.length es) <=? max_array_index)%N
      && forallb (fun e => match e with Some v => wf_node v | None => false end) es
  | _ => false
  end.

(** A well-formed tree: as a node, except that a root mapping may be empty *)
Definition wf_tree (t : value) : bool :=
  match t with
  | VObj ps =>
      forallb (fun kv => is_name (fst kv)) ps
      && distinct (map fst ps)
      && forallb (fun kv => wf_node (snd kv)) ps
  | _ => wf_node t
  end.

(** The empty container of the kind of [v] *)
Definition empty_like (v : value) : value :=
  if isArray v then VArr [] [] else VObj [].

(** [setDeep] over the paths below a container [v] builds [v] *)
Definition rebuilt (v : value) : Prop :=
  is_container v = true ->
  build true (below_paths flat_paths v) (empty_like v) = v.

(** A segment that survives [split]: not empty and without a dot *)
Definition good_seg (s : string) : bool := negb (s =? "") && no_dot s.

(** A path of such segments *)
Definition good_path (e : list string * value) : Prop :=
  Forall (fun s => good_seg s = true) (fst e).

(** ** The leaves of a tree *)

(** The leaves of a tree with their paths: a value that is not a container
    is a leaf at the empty path; the children of a mapping are reached by
    their names, the children of a sequence by their positions. *)
Section Leaves.
Variable leaves : value -> list (list string * value).

Fixpoint leaves_named (ps : list (string * value))
  : list (list string * value) :=
  match ps with
  | [] => []
  | (k, v) :: ps' => map (cons_seg k) (leaves v) ++ leaves_named ps'
  end.

Fixpoint leaves_elems (i : N) (es : list (option value))
  : list (list string * value) :=
  match es with
  | [] => []
  | None :: es' => leaves_elems (N.succ i) es'
  | Some v :: es' =>
      map (cons_seg (String_of i)) (leaves v) ++ leaves_elems (N.succ i) es'
  end.
End Leaves.

Fixpoint leaves (t : value) : list (list string * value) :=
  match t with
  | VObj ps => leaves_named leaves ps
  | VArr es _ => leaves_elems leaves 0%N es
  | _ => [([], t)]
  end.

(** No sequence is a direct element of a sequence, and sequences carry no
    named properties. *)
Fixpoint seq_flat (t : value) : bool :=
  match t with
  | VObj ps => forallb (fun kv => seq_flat (snd kv)) ps
  | VArr es ps =>
      is_nil ps
      && forallb (fun e => match e with
                           | Some v => negb (isArray v) && seq_flat v
                           | None => true
                           end) es
  | _ => true
  end.


(** ** Well-formed flat maps *)

Definition is_some {A : Type} (o : option A) : bool :=
  match o with Some _ => true | None => false end.

(** A segment of a well-formed path: a non-empty name other than
    [__proto__], or an index in canonical decimal form below 2^32 - 1 *)
Definition seg_ok (s : string) : bool :=
  if isIndex s then is_some (array_index s)
  else negb (s =? "") && negb (s =? "__proto__").

(** No index segment directly follows an index segment *)
Fixpoint no_index_pair (q : list string) : bool :=
  match q with
  | [] => true
  | s1 :: q' =>
      match q' with
      | [] => true
      | s2 :: _ => negb (isIndex s1 && isIndex s2) && no_index_pair q'
      end
  end.

(** [p] is a prefix of [q], possibly [q] itself *)
Fixpoint is_prefix (p q : list string) : bool :=
  match p, q with
  | [], _ => true
  | _ :: _, [] => false
  | s1 :: p', s2 :: q' => (s1 =? s2) && is_prefix p' q'
  end.

(** Below the first segment, where two paths part the two segments are of
    one kind: both indices or both names. *)
Fixpoint kinds_agree (p q : list string) : bool :=
  match p, q with
  | s1 :: p', s2 :: q' =>
      if s1 =? s2 then kinds_agree p' q'
      else Bool.eqb (isIndex s1) (isIndex s2)
  | _, _ => true
  end.

(** At the root, which is a mapping whatever its keys are, the first
    segments may be of different kinds. *)
Definition kinds_root (p q : list string) : bool :=
  match p, q with
  | s1 :: p', s2 :: q' => if s1 =? s2 then kinds_agree p' q' else true
  | _, _ => true
  end.

(** Two paths that one container can hold: neither is a prefix of the
    other, and they agree on the kind of every node they share. *)
Definition compat_at (inner : bool) (p q : list string) : bool :=
  negb (is_prefix p q) && negb (is_prefix q p)
  && (if inner then kinds_agree p q else kinds_root p q).

Definition compatible (p q : list string) : bool := compat_at false p q.

(** [r x y] holds of every [x] and every later [y] of the list *)
Fixpoint pairwise {A : Type} (r : A -> A -> bool) (l : list A) : bool :=
  match l with
  | [] => true
  | x :: l' => forallb (r x) l' && pairwise r l'
  end.

(** One entry of a well-formed flat map: a non-empty key whose segments
    are well formed, where below the first segment no index directly
    follows an index, and a scalar value. *)
Definition entry_ok (e : string * value) : bool :=
  forallb seg_ok (split (fst e))
  && no_index_pair (tl (split (fst e)))
  && is_scalar (snd e).

(** A well-formed flat map: well-formed entries under distinct keys, no
    path a prefix of another, no node below the root used both as a mapping
    and as a sequence. *)
Definition wf_flatmap (M : props) : bool :=
  forallb entry_ok M
  && distinct (map fst M)
  && pairwise compatible (map (fun e => split (fst e)) M).

(** ** The trees that [unflatten] builds from well-formed flat maps *)

(** Some slot of the array is occupied *)
Definition has_slot (es : list (option value)) : bool :=
  existsb (fun e => is_some e) es.

(** A node below the root: a scalar; a mapping with at least one child,
    under distinct keys that are not digit strings; a sequence with at
    least one occupied slot, no named property and no sequence among its
    elements. *)
Fixpoint tidy_node (t : value) : bool :=
  match t with
  | VBool _ | VNum _ | VStr _ => true
  | VObj ps =>
      negb (is_nil ps)
      && forallb (fun kv => negb (isIndex (fst kv))) ps
      && distinct (map fst ps)
      && forallb (fun kv => tidy_node (snd kv)) ps
  | VArr es ps =>
      is_nil ps
      && has_slot es
      && (N.of_nat (List.length es) <=? max_array_index)%N
      && forallb (fun e => match e with
                           | Some v => negb (isArray v) && tidy_node v
                           | None => true
                           end) es
  | _ => false
  end.

(** The container [setDeep] is working on: as a node, but it may still be
    empty; the root ([inner = false]) is a mapping whose keys are not
    empty and may be digit strings. *)
Definition tidy_cur (inner : bool) (t : value) : bool :=
  match t with
  | VObj ps =>
      forallb (fun kv => if inner then negb (isIndex (fst kv))
                         else negb (fst kv =? "")) ps
      && distinct (map fst ps)
      && forallb (fun kv => tidy_node (snd kv)) ps
  | VArr es ps =>
      inner
      && is_nil ps
      && (N.of_nat (List.length es) <=? max_array_index)%N
      && forallb (fun e => match e with
                           | Some v => negb (isArray v) && tidy_node v
                           | None => true
                           end) es
  | _ => false
  end.

(** The shape of a container that [below_paths] can be read off slot by
    slot: distinct keys in a mapping; in a sequence no named property, a
    length of at most 2^32 - 1 and no sequence among the elements. *)
Definition regular (cur : value) : Prop :=
  match cur with
  | VObj ps => NoDup (map fst ps)
  | VArr es ps =>
      ps = [] /\
      (N.of_nat (List.length es) <= max_array_index)%N /\
      Forall (fun e => forall x, e = Some x -> isArray x = false) es
  | _ => False
  end.

(** The entry of a flat map as a path and a value *)
Definition pathed (kv : string * value) : list string * value :=
  (split (fst kv), snd kv).

From Stdlib Require Import Permutation Sorted.

(** ** Where the embedding holds *)

(** The walks of [unflatten] are rendered exactly as long as every segment
    is an ordinary property name at the container where it is met.  Three
    cases are not ordinary.  The name [__proto__] reads and writes the
    prototype of the container instead of a property.  The name [length]
    at an array is the exotic length: assigning to it truncates the array
    or throws a [RangeError].  A digit string that denotes 2^53 or more is
    rounded by [Number].  A walk that meets none of them executes no
    statement that can throw and touches no prototype. *)
Definition exact_bound : N := 9007199254740992.

Definition seg_within (p : string) (cur : value) : bool :=
  negb (p =? "__proto__")
  && negb ((p =? "length") && isArray cur)
  && (if isIndex p then (Number p <? exact_bound)%N else true).

(** The walk of [setDeep] meets ordinary segments only; the containers are
    those of [setDeep_from]. *)
Fixpoint setDeep_within (hasParent : bool) (parts : list string) (cur : value)
  : bool :=
  match parts with
  | [] => true
  | p :: rest =>
      let cur := enter hasParent p cur in
      seg_within p cur
      && match rest with
         | [] => true
         | next :: _ =>
             setDeep_within true rest
               (child_or_fresh (get_prop (seg_key p) cur) (isIndex next))
         end
  end.

Definition step_within (root : value) (e : string * value) : bool :=
  if fst e =? "" then true else setDeep_within false (split (fst e)) root.

(** The loop of [unflatten] over the entries [todo], from [root] *)
Fixpoint run_within (todo : props) (root : value) : bool :=
  match todo with
  | [] => true
  | e :: todo' =>
      step_within root e && run_within todo' (unflatten_step root e)
  end.

Definition unflatten_within (flatObj : value) : bool :=
  run_within (entries flatObj) (VObj []).

(** A segment that is ordinary wherever it is met, and the keys and flat
    maps made of such segments *)
Definition ordinary_seg (s : string) : bool :=
  negb (s =? "__proto__")
  && negb (s =? "length")
  && (if isIndex s then (Number s <? exact_bound)%N else true).

Definition ordinary_key (k : string) : bool := forallb ordinary_seg (split k).

Definition ordinary_map (M : props) : bool :=
  forallb (fun e => ordinary_key (fst e)) M.


(** ** Notions for the further properties *)

(** Every value of a property table satisfies [good] *)
Definition vals_ok (good : value -> bool) (out : props) : Prop :=
  forall k v, In (k, v) out -> good v = true.

(** What [flattenJSON] may store: never [null], [undefined] or a plain
    object *)
Definition storable (v : value) : bool :=
  negb (is_nullish v) && negb (is_plain_object v).

(** No segment of the key is an index *)
Definition names_only (k : string) : bool :=
  forallb (fun s => negb (isIndex s)) (split k).

(** On the walk of [setDeep] along [parts] from [cur], every index segment
    finds a sequence. *)
Fixpoint meets_kinds (parts : list string) (cur : value) : Prop :=
  match parts with
  | [] => True
  | p :: rest =>
      (isIndex p = true -> isArray cur = true) /\
      match rest with
      | [] => True
      | next :: _ =>
          meets_kinds rest
            (child_or_fresh (get_prop (seg_key p) cur) (isIndex next))
      end
  end.

(** A value that is neither a container nor [null] or [undefined] *)
Definition atomic (v : value) : bool :=
  negb (is_container v) && negb (is_nullish v).

(** The keys of a property table in the order a JS object lists them: the
    array indices ascending from [lo], then the other keys. *)
Fixpoint ordered_keys (lo : N) (ks : list string) : bool :=
  match ks with
  | [] => true
  | k :: ks' =>
      match array_index k with
      | Some n => (lo <=? n)%N && ordered_keys (N.succ n) ks'
      | None => forallb (fun k' => negb (is_some (array_index k'))) ks'
      end
  end.

Definition enum_ordered (ps : props) : Prop :=
  ordered_keys 0 (map fst ps) = true /\ NoDup (map fst ps).

(** [flattenJSON] on [t] keeps the property [Inv] of the accumulator *)
Definition preserves (ok : value -> bool) (Inv : props -> Prop) (t : value)
  : Prop :=
  ok t = true -> forall pk out, Inv out -> Inv (flattenJSON t pk out).

Definition preserves_slots (ok : value -> bool) (Inv : props -> Prop)
    (t : value) : Prop :=
  match t with
  | VArr es _ => Forall (fun e => forall w, e = Some w -> preserves ok Inv w) es
  | _ => True
  end.

(** ** The rows of the sheet, third script *)

(** The script reads the flat map of every file at every key of every
    file, so at keys that a flat map may lack.  Such a read falls back on
    [Object.prototype], which is represented here for reading.  The names
    that are written stay ordinary names, as above. *)

(** The property names that every plain object inherits from
    [Object.prototype] *)
Definition object_prototype_names : list string :=
  ["constructor"; "__defineGetter__"; "__defineSetter__"; "hasOwnProperty";
   "__lookupGetter__"; "__lookupSetter__"; "isPrototypeOf";
   "propertyIsEnumerable"; "toString"; "valueOf"; "__proto__";
   "toLocaleString"].

(** What [o[k]] yields on a plain object [o] without an own property [k]:
    the prototype object for [__proto__], a method of the prototype for its
    other names, [undefined] for every other name. *)
Definition inherited (k : string) : value :=
  if k =? "__proto__" then VObj []
  else if existsb (String.eqb k) object_prototype_names then VFun
  else VUndef.

(** [o[k]] as an expression, on a plain object [o] *)
Definition read (k : string) (o : value) : value :=
  match get_prop k o with
  | Some v => v
  | None => inherited k
  end.

(** [allKeysSet.add(k)]: a [Set] lists its elements in insertion order *)
Definition set_add (ks : list string) (k : string) : list string :=
  if existsb (String.eqb k) ks then ks else ks ++ [k].

(** One turn of the loop over the files, on [flatMaps] and [allKeysSet].
    A file is given by its column name and its parsed content. *)
Definition read_file (st : props * list string) (f : string * value)
  : props * list string :=
  let flat := flatten (snd f) in
  (props_set (fst f) flat (fst st),
   fold_left set_add (map fst (entries flat)) (snd st)).

(** [sort()] without a comparison function, on an array of strings:
    ascending in the order of the code units.  The language leaves the
    algorithm open; the result is the same for every algorithm, the order
    being total. *)
Fixpoint insert_sorted (k : string) (l : list string) : list string :=
  match l with
  | [] => [k]
  | x :: l' => if String.leb k x then k :: l else x :: insert_sorted k l'
  end.

Definition sort (l : list string) : list string :=
  fold_right insert_sorted [] l.

Definition flat_maps (files : list (string * value)) : props :=
  fst (fold_left read_file files ([], [])).

Definition all_keys (files : list (string * value)) : list string :=
  snd (fold_left read_file files ([], [])).

(** [Object.keys(flatMaps).sort()] and [Array.from(allKeysSet).sort()] *)
Definition columns (files : list (string * value)) : list string :=
  sort (map fst (flat_maps files)).

Definition row_keys (files : list (string * value)) : list string :=
  sort (all_keys files).

(** The callback of [keys.map]: the row [{ key }], then one write
    [row[col] = flatMaps[col][key] ?? ''] for each column *)
Definition make_row (flatMaps : props) (cols : list string) (key : string)
  : value :=
  VObj (fold_left
          (fun row col =>
             props_set col
               (nullish_default (read key (read col (VObj flatMaps)))) row)
          cols [("key", VStr key)]).

Definition merge_rows (files : list (string * value)) : list value :=
  map (make_row (flat_maps files) (columns files)) (row_keys files).

(** The files whose names and flat maps are made of own properties: no
    file is named [__proto__], and no leaf of a content is written under
    the key [__proto__], so that no flat map has that key *)
Definition files_within (files : list (string * value)) : bool :=
  forallb (fun f =>
             negb (fst f =? "__proto__")
             && negb (existsb (String.eqb "__proto__")
                        (map fst (entries (flatten (snd f))))))
          files.

(** The orders on strings that [sort] goes by *)
Definition le_str (a b : string) : Prop := String.leb a b = true.
Definition lt_str (a b : string) : Prop := String.ltb a b = true.

(** ** From the rows of a sheet to the flat maps, first and second script *)

(** The rows that [readSheetRows] returns are plain objects, one property
    for each column; a cell is read as a property of its row.  A character
    of a string is a code unit below 256: [trim] and [toLowerCase] are
    rendered on all of those. *)

(** The white space and line terminators of the language among the code
    units below 256: tab, line feed, vertical tab, form feed, carriage
    return, space and the no-break space *)
Definition is_white (c : ascii) : bool :=
  is_space c || (nat_of_ascii c =? 160)%nat.

(** A string of white space only *)
Fixpoint all_white (s : string) : bool :=
  match s with
  | EmptyString => true
  | String c s' => is_white c && all_white s'
  end.

(** [s.trim()] *)
Fixpoint trimStart (s : string) : string :=
  match s with
  | EmptyString => EmptyString
  | String c s' => if is_white c then trimStart s' else s
  end.

Fixpoint trimEnd (s : string) : string :=
  match s with
  | EmptyString => EmptyString
  | String c s' =>
      match trimEnd s' with
      | EmptyString => if is_white c then EmptyString else String c EmptyString
      | t => String c t
      end
  end.

Definition trim (s : string) : string := trimEnd (trimStart s).

(** [s.toLowerCase()]: the capital letters below 256 are [A] to [Z] and,
    but for the multiplication sign, the code units from 192 to 222 *)
Definition lower_char (c : ascii) : ascii :=
  let n := nat_of_ascii c in
  if ((65 <=? n)%nat && (n <=? 90)%nat)
     || ((192 <=? n)%nat && (n <=? 222)%nat && negb (n =? 215)%nat)
  then ascii_of_nat (n + 32) else c.

Fixpoint toLowerCase (s : string) : string :=
  match s with
  | EmptyString => EmptyString
  | String c s' => String (lower_char c) (toLowerCase s')
  end.

(** [norm(s)] on a string [s], for which [String(s || '')] is [s] *)
Definition norm (s : string) : string := toLowerCase (trim s).

(** [String(v)], where the embedding determines it: [VNum n] is read as
    the integer [n], which the language prints in decimal when its
    magnitude is below 2^53; the text of a container or of a function is
    not represented. *)
Definition String_value (v : value) : option string :=
  match v with
  | VStr s => Some s
  | VBool true => Some "true"
  | VBool false => Some "false"
  | VNull => Some "null"
  | VUndef => Some "undefined"
  | VNum n =>
      if (Z.abs n <? 9007199254740992)%Z
      then Some (NilZero.string_of_int (Z.to_int n)) else None
  | _ => None
  end.

(** [String(r[keyCol] ?? '').trim()] *)
Definition key_of_row (keyCol : string) (r : value) : option string :=
  option_map trim (String_value (nullish_default (read keyCol r))).

(** A loop [for (const r of rows)] whose body works on the state [st];
    [None] where a key cell is beyond [String_value]. *)
Fixpoint fold_rows {S : Type} (body : S -> value -> option S)
    (rows : list value) (st : S) : option S :=
  match rows with
  | [] => Some st
  | r :: rows' =>
      match body st r with
      | Some st' => fold_rows body rows' st'
      | None => None
      end
  end.

(** The body of the loop of the first script: [if (!k) continue;
    flatMap[k] = r[valueCol]] *)
Definition flatMap_row (keyCol valueCol : string) (flatMap : props) (r : value)
  : option props :=
  match key_of_row keyCol r with
  | Some k =>
      Some (if k =? "" then flatMap
            else props_set k (read valueCol r) flatMap)
  | None => None
  end.

Definition flatMap_of_rows (keyCol valueCol : string) (rows : list value)
  : option props :=
  fold_rows (flatMap_row keyCol valueCol) rows [].

(** The second script: [for (const col of valueCols) flatMaps[col] = {}],
    then for each row [flatMaps[col][k] = r[col]] for every column *)
Definition flatMaps_init (valueCols : list string) : props :=
  fold_left (fun fms col => props_set col (VObj []) fms) valueCols [].

Definition flatMaps_row (keyCol : string) (valueCols : list string)
    (flatMaps : props) (r : value) : option props :=
  match key_of_row keyCol r with
  | Some k =>
      Some (if k =? "" then flatMaps
            else fold_left
                   (fun fms col =>
                      props_set col
                        (set_prop k (read col r) (read col (VObj fms))) fms)
                   valueCols flatMaps)
  | None => None
  end.

Definition flatMaps_of_rows (keyCol : string) (valueCols : list string)
    (rows : list value) : option props :=
  fold_rows (flatMaps_row keyCol valueCols) rows (flatMaps_init valueCols).

(** What the first script throws *)
Inductive error : Type :=
| NoSheets
| NoKeyColumn
| NoValueColumn.

(** [detectColumns(rows)]: the first header that [norm] takes to [key],
    and the first of the other headers.  A header found by [find] is not
    empty, so that [!keyCol] holds only if none was found. *)
Definition is_key_header (h : string) : bool := norm h =? "key".

Definition detectColumns (rows : list value) : error + string * string :=
  let headerNames := map fst (entries (hd (VObj []) rows)) in
  match find is_key_header headerNames with
  | None => inl NoKeyColumn
  | Some keyCol =>
      match filter (fun h => negb (is_key_header h)) headerNames with
      | [] => inl NoValueColumn
      | valueCol :: _ => inr (keyCol, valueCol)
      end
  end.

(** The result of a call: a value, an exception, or a run that leaves the
    embedding *)
Inductive outcome (A : Type) : Type :=
| Returns (a : A)
| Throws (e : error)
| Unmodelled.
Arguments Returns {A} a.
Arguments Throws {A} e.
Arguments Unmodelled {A}.

(** [processWorkbookToJSON(wb)].  The workbook is the list of its sheets
    in the order of [wb.SheetNames], each with the rows [readSheetRows]
    gives for it; the result is the pair of [keys] and [data].  The run
    leaves the embedding where a key cell is beyond [String_value] and
    where the walk of [unflatten] over the flat map meets a segment that is
    not ordinary; a key cell [__proto__] is among the latter. *)
Definition processWorkbookToJSON (wb : list (string * list value))
  : outcome (nat * value) :=
  match wb with
  | [] => Throws NoSheets
  | (sheetName, rows) :: _ =>
      if sheetName =? "" then Throws NoSheets
      else match rows with
           | [] => Returns (0%nat, VObj [])
           | _ :: _ =>
               match detectColumns rows with
               | inl e => Throws e
               | inr (keyCol, valueCol) =>
                   match flatMap_of_rows keyCol valueCol rows with
                   | Some flatMap =>
                       if unflatten_within (VObj flatMap)
                       then Returns (List.length flatMap,
                                     unflatten (VObj flatMap))
                       else Unmodelled
                   | None => Unmodelled
                   end
               end
           end
  end.

(** The key cell of a row gives a key that the loop writes as an own
    property of the flat map: it is within [String_value] and does not
    trim to [__proto__] *)
Definition key_cell_ok (keyCol : string) (r : value) : bool :=
  match key_of_row keyCol r with
  | Some k => negb (k =? "__proto__")
  | None => false
  end.


(** ** File names *)

(** The characters of the class in the pattern of [replace], by their
    codes: backslash, slash, colon, asterisk, question mark, double quote,
    less-than, greater-than, vertical bar *)
Definition unsafe_char (c : ascii) : bool :=
  existsb (Nat.eqb (nat_of_ascii c)) [92; 47; 58; 42; 63; 34; 60; 62; 124]%nat.

(** [String(name).replace(..., '_')] on a string [name]: every character
    of the class becomes an underscore *)
Fixpoint safe_name (name : string) : string :=
  match name with
  | EmptyString => EmptyString
  | String c s => String (if unsafe_char c then "_"%char else c) (safe_name s)
  end.

(** Every character of the string satisfies [f] *)
Fixpoint all_chars (f : ascii -> bool) (s : string) : bool :=
  match s with
  | EmptyString => true
  | String c s' => f c && all_chars f s'
  end.

(** * Properties *)


(** ** Digit strings *)

Lemma all_digits_string_of_uint (d : uint) :
  all_digits (NilEmpty.string_of_uint d) = true.
Proof. induction d; simpl; auto. Qed.

Lemma to_uint_nonnil (n : N) : N.to_uint n <> Nil.
Proof.
  destruct n; simpl; [discriminate | apply DecimalPos.Unsigned.to_uint_nonnil].
Qed.

Lemma isIndex_String_of (n : N) : isIndex (String_of n) = true.
Proof.
  unfold isIndex, String_of.
  pose proof (all_digits_string_of_uint (N.to_uint n)) as H.
  pose proof (to_uint_nonnil n) as Hn.
  destruct (N.to_uint n); simpl in *; auto; congruence.
Qed.

Lemma Number_String_of (n : N) : Number (String_of n) = n.
Proof.
  unfold Number, String_of. rewrite NilEmpty.usu. apply DecimalN.Unsigned.of_to.
Qed.

Lemma index_key_String_of (n : N) : index_key (String_of n) = String_of n.
Proof. unfold index_key. now rewrite Number_String_of. Qed.

Lemma array_index_String_of (n : N) :
  (n < max_array_index)%N -> array_index (String_of n) = Some n.
Proof.
  intros H. unfold array_index.
  rewrite isIndex_String_of, Number_String_of, String.eqb_refl.
  apply N.ltb_lt in H. now rewrite H.
Qed.

Lemma array_index_not_index (k : string) :
  isIndex k = false -> array_index k = None.
Proof. intros H. unfold array_index. now rewrite H. Qed.

Lemma array_index_Some (k : string) (n : N) :
  array_index k = Some n ->
  isIndex k = true /\ k = String_of n /\ (n < max_array_index)%N.
Proof.
  unfold array_index.
  destruct (isIndex k) eqn:Hi; simpl; [|discriminate].
  destruct (String_of (Number k) =? k) eqn:He; simpl; [|discriminate].
  destruct (Number k <? max_array_index)%N eqn:Hl; [|discriminate].
  intros [= <-]. apply String.eqb_eq in He. apply N.ltb_lt in Hl. auto.
Qed.

Lemma String_of_inj (n m : N) : String_of n = String_of m -> n = m.
Proof.
  intros H. rewrite <- (Number_String_of n), <- (Number_String_of m).
  now rewrite H.
Qed.

(** ** [split] *)


Lemma split_nonempty (s : string) : split s <> [].
Proof.
  induction s as [|c s IH]; simpl; [discriminate|].
  destruct (Ascii.eqb c "."); [discriminate|].
  destruct (split s); discriminate.
Qed.

Lemma split_no_dot (s : string) : no_dot s = true -> split s = [s].
Proof.
  induction s as [|c s IH]; simpl; auto.
  destruct (Ascii.eqb c "."); simpl; [discriminate|].
  intros H. now rewrite IH.
Qed.

Lemma split_app_dot (a b : string) :
  split (a ++ "." ++ b)%string = split a ++ split b.
Proof.
  change ("." ++ b)%string with (String "." b).
  induction a as [|c a IH]; simpl; auto.
  destruct (Ascii.eqb c "."); simpl; [now rewrite IH|].
  rewrite IH.
  pose proof (split_nonempty a) as Hne.
  destruct (split a); simpl; congruence.
Qed.

Lemma is_digit_not_dot (c : ascii) : is_digit c = true -> Ascii.eqb c "." = false.
Proof.
  unfold is_digit. intros H.
  destruct (Ascii.eqb c ".") eqn:E; auto.
  apply Ascii.eqb_eq in E. subst c. discriminate.
Qed.

Lemma all_digits_no_dot (s : string) : all_digits s = true -> no_dot s = true.
Proof.
  induction s as [|c s IH]; simpl; auto.
  intros H. apply andb_true_iff in H as [Hc Hs].
  now rewrite (is_digit_not_dot c Hc), IH.
Qed.

Lemma isIndex_no_dot (s : string) : isIndex s = true -> no_dot s = true.
Proof.
  destruct s; simpl; [discriminate|]. intros H.
  now apply (all_digits_no_dot (String a s)).
Qed.

Lemma no_dot_String_of (n : N) : no_dot (String_of n) = true.
Proof. apply isIndex_no_dot, isIndex_String_of. Qed.

Lemma no_dot_app (a b : string) :
  no_dot (a ++ b)%string = no_dot a && no_dot b.
Proof. induction a; simpl; auto. now rewrite IHa, andb_assoc. Qed.

(** ** Property tables *)

Lemma assoc_app (k : string) (ps qs : props) :
  assoc k (ps ++ qs) =
  match assoc k ps with Some v => Some v | None => assoc k qs end.
Proof.
  induction ps as [|[k' v'] ps IH]; simpl; auto.
  destruct (k' =? k); auto.
Qed.

Lemma assoc_replace_same (k : string) (v : value) (ps : props) :
  has_key k ps = true -> assoc k (replace k v ps) = Some v.
Proof.
  unfold has_key. induction ps as [|[k' v'] ps IH]; simpl; [discriminate|].
  destruct (k' =? k) eqn:E; simpl; rewrite E; auto.
Qed.

Lemma assoc_replace_other (k k' : string) (v : value) (ps : props) :
  k' <> k -> assoc k' (replace k v ps) = assoc k' ps.
Proof.
  intros Hne. induction ps as [|[k0 v0] ps IH]; simpl; auto.
  destruct (k0 =? k) eqn:E; simpl.
  - apply String.eqb_eq in E. subst k0.
    destruct (k =? k') eqn:E'; auto.
    apply String.eqb_eq in E'. congruence.
  - destruct (k0 =? k'); auto.
Qed.

Lemma assoc_insert_index_same (n : N) (k : string) (v : value) (ps : props) :
  assoc k ps = None -> assoc k (insert_index n k v ps) = Some v.
Proof.
  induction ps as [|[k' v'] ps IH]; simpl.
  - now rewrite String.eqb_refl.
  - destruct (k' =? k) eqn:E; [discriminate|]. intros H.
    destruct (array_index k') as [m|]; simpl.
    + destruct (m <? n)%N; simpl; rewrite ?E, ?String.eqb_refl; auto.
    + now rewrite String.eqb_refl.
Qed.

Lemma assoc_insert_index_other (n : N) (k k' : string) (v : value) (ps : props) :
  k' <> k -> assoc k' (insert_index n k v ps) = assoc k' ps.
Proof.
  intros Hne.
  assert (Hk : (k =? k') = false) by (apply String.eqb_neq; congruence).
  induction ps as [|[k0 v0] ps IH]; simpl.
  - now rewrite Hk.
  - destruct (array_index k0) as [m|]; simpl.
    + destruct (m <? n)%N; simpl; rewrite ?Hk; auto.
      destruct (k0 =? k'); auto.
    + now rewrite Hk.
Qed.

Lemma assoc_props_set_same (k : string) (v : value) (ps : props) :
  assoc k (props_set k v ps) = Some v.
Proof.
  unfold props_set. destruct (has_key k ps) eqn:H.
  - now apply assoc_replace_same.
  - unfold has_key in H. destruct (assoc k ps) eqn:A; [discriminate|].
    destruct (array_index k).
    + now apply assoc_insert_index_same.
    + rewrite assoc_app, A. simpl. now rewrite String.eqb_refl.
Qed.

Lemma assoc_props_set_other (k k' : string) (v : value) (ps : props) :
  k' <> k -> assoc k' (props_set k v ps) = assoc k' ps.
Proof.
  intros Hne. unfold props_set. destruct (has_key k ps).
  - now apply assoc_replace_other.
  - destruct (array_index k).
    + now apply assoc_insert_index_other.
    + rewrite assoc_app. destruct (assoc k' ps); auto. simpl.
      destruct (k =? k') eqn:E; auto. apply String.eqb_eq in E. congruence.
Qed.

Lemma props_set_fresh_name (k : string) (v : value) (ps : props) :
  assoc k ps = None -> isIndex k = false ->
  props_set k v ps = ps ++ [(k, v)].
Proof.
  intros A I. unfold props_set, has_key. rewrite A.
  now rewrite array_index_not_index.
Qed.

Lemma assoc_None_not_In (k : string) (ps : props) :
  assoc k ps = None <-> ~ In k (map fst ps).
Proof.
  induction ps as [|[k' v'] ps IH]; simpl.
  - tauto.
  - destruct (k' =? k) eqn:E.
    + apply String.eqb_eq in E. split; [discriminate | intros H; exfalso; auto].
    + apply String.eqb_neq in E. rewrite IH. tauto.
Qed.

Lemma assoc_Some_In (k : string) (v : value) (ps : props) :
  assoc k ps = Some v -> In (k, v) ps.
Proof.
  induction ps as [|[k' v'] ps IH]; simpl; [discriminate|].
  destruct (k' =? k) eqn:E.
  - apply String.eqb_eq in E. intros [= ->]. subst. auto.
  - auto.
Qed.

Lemma In_assoc_NoDup (k : string) (v : value) (ps : props) :
  NoDup (map fst ps) -> In (k, v) ps -> assoc k ps = Some v.
Proof.
  induction ps as [|[k' v'] ps IH]; simpl; [tauto|].
  intros Hnd [H|H].
  - injection H as -> ->. now rewrite String.eqb_refl.
  - inversion Hnd as [|? ? Hni Hnd']; subst.
    destruct (k' =? k) eqn:E.
    + apply String.eqb_eq in E. subst k'. exfalso. apply Hni.
      change k with (fst (k, v)). now apply in_map.
    + auto.
Qed.

(** ** Array slots *)

Lemma nth_error_elems_set_same (n : nat) (v : value) (es : list (option value)) :
  nth_error (elems_set n v es) n = Some (Some v).
Proof.
  revert es. induction n as [|n IH]; intros [|e es]; simpl; auto.
Qed.


Lemma slot_elems_set_same (n : nat) (v : value) (es : list (option value)) :
  slot (elems_set n v es) n = Some v.
Proof. unfold slot. now rewrite nth_error_elems_set_same. Qed.

Lemma slot_nil (n : nat) : slot [] n = None.
Proof. unfold slot. now destruct n. Qed.

Lemma slot_elems_set_other (n m : nat) (v : value) (es : list (option value)) :
  n <> m -> slot (elems_set n v es) m = slot es m.
Proof.
  revert m es. induction n as [|n IH]; intros [|m] [|e es] Hne; simpl;
    try congruence; auto.
  - unfold slot. simpl. now destruct m.
  - unfold slot. simpl. fold (slot (elems_set n v []) m).
    rewrite IH by congruence. apply slot_nil.
  - unfold slot. simpl. fold (slot (elems_set n v es) m) (slot es m).
    apply IH. congruence.
Qed.

Lemma elems_set_length (n : nat) (v : value) (es : list (option value)) :
  List.length (elems_set n v es) = Nat.max (S n) (List.length es).
Proof.
  revert es. induction n as [|n IH]; intros [|e es]; simpl; auto;
    rewrite IH; simpl; auto.
Qed.

Lemma elems_set_append (v : value) (es : list (option value)) :
  elems_set (List.length es) v es = es ++ [Some v].
Proof. induction es as [|e es IH]; simpl; auto. now rewrite IH. Qed.

(** ** Reading and writing properties *)

Lemma get_prop_slot (k : string) (es : list (option value)) (ps : props) :
  get_prop k (VArr es ps) =
  match array_index k with
  | Some n => slot es (N.to_nat n)
  | None => assoc k ps
  end.
Proof. reflexivity. Qed.

Lemma get_set_same (k : string) (v c : value) :
  is_container c = true -> get_prop k (set_prop k v c) = Some v.
Proof.
  destruct c; simpl; try discriminate; intros _.
  - apply assoc_props_set_same.
  - destruct (array_index k) as [n|] eqn:E; simpl; rewrite E.
    + now rewrite nth_error_elems_set_same.
    + apply assoc_props_set_same.
Qed.

Lemma get_set_other (k k' : string) (v c : value) :
  k' <> k -> get_prop k' (set_prop k v c) = get_prop k' c.
Proof.
  intros Hne. destruct c; simpl; auto.
  - now apply assoc_props_set_other.
  - destruct (array_index k) as [n|] eqn:E; rewrite !get_prop_slot.
    + destruct (array_index k') as [m|] eqn:E'; auto.
      apply slot_elems_set_other.
      apply array_index_Some in E as (_ & -> & _).
      apply array_index_Some in E' as (_ & -> & _).
      intros H. apply Hne. f_equal. now apply Nnat.N2Nat.inj.
    + destruct (array_index k'); auto.
      now apply assoc_props_set_other.
Qed.

Lemma set_prop_container (k : string) (v c : value) :
  is_container (set_prop k v c) = is_container c.
Proof. destruct c; simpl; auto. destruct (array_index k); auto. Qed.

Lemma set_prop_isArray (k : string) (v c : value) :
  isArray (set_prop k v c) = isArray c.
Proof. destruct c; simpl; auto. destruct (array_index k); auto. Qed.

Lemma child_or_fresh_container (x : option value) (b : bool) :
  is_container (child_or_fresh x b) = true.
Proof.
  unfold child_or_fresh, not_an_object.
  destruct x as [[]|]; simpl; auto; destruct b; auto.
Qed.

Lemma ensure_array_container (hp : bool) (c : value) :
  is_container c = true -> is_container (ensure_array hp c) = true.
Proof. destruct c, hp; simpl; auto. Qed.

Lemma setDeep_from_container (hp : bool) (parts : list string) (v c : value) :
  is_container c = true -> is_container (setDeep_from hp parts v c) = true.
Proof.
  destruct parts as [|p [|next rest]]; simpl; auto; intros H;
    destruct (isIndex p); rewrite set_prop_container; auto using ensure_array_container.
Qed.


Lemma setDeep_from_last (hp : bool) (p : string) (v cur : value) :
  setDeep_from hp [p] v cur = set_prop (seg_key p) v (enter hp p cur).
Proof. unfold seg_key, enter. simpl. now destruct (isIndex p). Qed.

Lemma setDeep_from_inner (hp : bool) (p next : string) (rest : list string)
    (v cur : value) :
  setDeep_from hp (p :: next :: rest) v cur =
  set_prop (seg_key p)
    (setDeep_from true (next :: rest) v
       (child_or_fresh (get_prop (seg_key p) (enter hp p cur)) (isIndex next)))
    (enter hp p cur).
Proof. unfold seg_key, enter. simpl. now destruct (isIndex p). Qed.

Lemma enter_container (hp : bool) (p : string) (c : value) :
  is_container c = true -> is_container (enter hp p c) = true.
Proof. unfold enter. destruct (isIndex p); auto using ensure_array_container. Qed.

Lemma enter_name (hp : bool) (p : string) (c : value) :
  isIndex p = false -> enter hp p c = c.
Proof. unfold enter. now intros ->. Qed.

Lemma seg_key_name (p : string) : isIndex p = false -> seg_key p = p.
Proof. unfold seg_key. now intros ->. Qed.

Lemma getDeep_app (P Q : list string) (cur : value) :
  getDeep (P ++ Q) cur =
  match getDeep P cur with Some c => getDeep Q c | None => None end.
Proof.
  revert cur. induction P as [|p P IH]; intros cur; simpl; auto.
  destruct (get_prop (seg_key p) cur); auto.
Qed.

Lemma getDeep_scalar (p : string) (Q : list string) (c : value) :
  is_container c = false -> getDeep (p :: Q) c = None.
Proof. destruct c; simpl; auto; discriminate. Qed.

Lemma get_prop_Some_container (k : string) (c x : value) :
  get_prop k c = Some x -> is_container c = true.
Proof. destruct c; simpl; auto; discriminate. Qed.

(** What [setDeep] writes is what the same segments read back. *)
Lemma getDeep_setDeep_from (parts : list string) :
  forall (hp : bool) (v cur : value),
    parts <> [] -> is_container cur = true ->
    getDeep parts (setDeep_from hp parts v cur) = Some v.
Proof.
  induction parts as [|p rest IH]; intros hp v cur Hne Hc; [congruence|].
  destruct rest as [|next rest].
  - rewrite setDeep_from_last. simpl.
    now rewrite get_set_same by now apply enter_container.
  - rewrite setDeep_from_inner.
    cbn [getDeep]. rewrite get_set_same by now apply enter_container.
    apply IH; [discriminate | apply child_or_fresh_container].
Qed.

(** ** The loop of [unflatten] *)

Lemma unflatten_snoc (pre : props) (k : string) (v : value) :
  unflatten (VObj (pre ++ [(k, v)])) =
  unflatten_step (unflatten (VObj pre)) (k, v).
Proof. unfold unflatten. simpl. now rewrite fold_left_app. Qed.

Lemma unflatten_step_container (r : value) (e : string * value) :
  is_container r = true -> is_container (unflatten_step r e) = true.
Proof.
  destruct e as [k v]. simpl. destruct (k =? ""); auto.
  intros H. now apply setDeep_from_container.
Qed.

Lemma fold_unflatten_step_container (l : props) (r : value) :
  is_container r = true -> is_container (fold_left unflatten_step l r) = true.
Proof.
  revert r. induction l as [|e l IH]; simpl; auto.
  intros r H. apply IH. now apply unflatten_step_container.
Qed.

Lemma unflatten_container (flatObj : value) :
  is_container (unflatten flatObj) = true.
Proof. now apply fold_unflatten_step_container. Qed.

Lemma enter_root (p : string) (ps : props) :
  enter false p (VObj ps) = VObj ps.
Proof. unfold enter. now destruct (isIndex p). Qed.

Lemma unflatten_step_plain_object (r : value) (e : string * value) :
  is_plain_object r = true -> is_plain_object (unflatten_step r e) = true.
Proof.
  destruct r as [| | | | | |ps|]; try discriminate. intros _.
  destruct e as [k v]. simpl. destruct (k =? ""); [reflexivity|].
  unfold setDeep. destruct (split k) as [|p [|next rest]]; [reflexivity| |].
  - now rewrite setDeep_from_last, enter_root.
  - now rewrite setDeep_from_inner, enter_root.
Qed.

Lemma unflatten_plain_object (flatObj : value) :
  is_plain_object (unflatten flatObj) = true.
Proof.
  unfold unflatten.
  assert (H : forall l r, is_plain_object r = true ->
                          is_plain_object (fold_left unflatten_step l r) = true).
  { induction l as [|e l IH]; simpl; auto.
    intros r Hr. now apply IH, unflatten_step_plain_object. }
  now apply H.
Qed.

Lemma unflatten_step_nonempty (r : value) (k : string) (v : value) :
  k <> "" -> unflatten_step r (k, v) = setDeep (split k) v r.
Proof. intros H. simpl. apply String.eqb_neq in H. now rewrite H. Qed.

Lemma app_dot_nonempty (P Q : string) : (P ++ "." ++ Q)%string <> "".
Proof. destruct P; discriminate. Qed.

(** ** Flat maps of ordinary segments *)

Lemma ordinary_seg_within (p : string) (cur : value) :
  ordinary_seg p = true -> seg_within p cur = true.
Proof.
  unfold ordinary_seg, seg_within. intros H.
  apply andb_true_iff in H as [H H3]. apply andb_true_iff in H as [H1 H2].
  rewrite H1, H3. apply negb_true_iff in H2. now rewrite H2.
Qed.

(** A walk along ordinary segments meets ordinary segments only, whatever
    the containers are. *)
Lemma setDeep_within_ordinary (parts : list string) :
  forallb ordinary_seg parts = true ->
  forall hp cur, setDeep_within hp parts cur = true.
Proof.
  induction parts as [|p rest IH]; intros H hp cur; [reflexivity|].
  simpl in H. apply andb_true_iff in H as [Hp Hrest].
  cbn [setDeep_within]. rewrite ordinary_seg_within by assumption.
  destruct rest; [reflexivity|]. now apply IH.
Qed.

Lemma run_within_ordinary (todo : props) :
  ordinary_map todo = true -> forall root, run_within todo root = true.
Proof.
  induction todo as [|[k v] todo IH]; intros H root; [reflexivity|].
  simpl in H. apply andb_true_iff in H as [Hk Htodo].
  cbn [run_within]. rewrite IH by assumption. rewrite andb_true_r.
  unfold step_within. cbn [fst]. destruct (k =? ""); [reflexivity|].
  now apply setDeep_within_ordinary.
Qed.

Lemma ordinary_map_app (l1 l2 : props) :
  ordinary_map (l1 ++ l2) = ordinary_map l1 && ordinary_map l2.
Proof. apply forallb_app. Qed.

(** ** Claims settled on [unflatten] alone *)

(** C9, amended.  A flat map of ordinary segments (none is [__proto__] or
    [length], every digit string denotes a number below 2^53) with two keys
    [P] and [P.Q], [P] not empty and carrying a value that is not a
    container.  In either processing order the walk executes no statement
    that can throw, [unflatten] returns a tree, a root mapping, and the
    entry processed later wins.  If [P] comes after [P.Q], the tree holds
    the value of [P] at [P] and nothing at [P.Q]; if [P.Q] comes after [P],
    the tree holds the value of [P.Q] at [P.Q] and a container, not the
    value of [P], at [P]. *)
Theorem unflatten_prefix_later_wins
    (pre mid : props) (P Q : string) (v1 v2 : value) :
  P <> "" -> is_container v2 = false ->
  let PQ := (P ++ "." ++ Q)%string in
  ordinary_map (pre ++ (PQ, v1) :: mid ++ [(P, v2)]) = true ->
  let t1 := unflatten (VObj (pre ++ (PQ, v1) :: mid ++ [(P, v2)])) in
  let t2 := unflatten (VObj (pre ++ (P, v2) :: mid ++ [(PQ, v1)])) in
  (unflatten_within (VObj (pre ++ (PQ, v1) :: mid ++ [(P, v2)])) = true /\
   unflatten_within (VObj (pre ++ (P, v2) :: mid ++ [(PQ, v1)])) = true) /\
  (is_plain_object t1 = true /\ is_plain_object t2 = true) /\
  (getDeep (split P) t1 = Some v2 /\ getDeep (split PQ) t1 = None) /\
  (getDeep (split PQ) t2 = Some v1 /\
   exists c, getDeep (split P) t2 = Some c /\ is_container c = true).
Proof.
  intros HP Hv2 PQ Hord t1 t2.
  assert (Hord2 : ordinary_map (pre ++ (P, v2) :: mid ++ [(PQ, v1)]) = true).
  { unfold ordinary_map in *. rewrite forallb_forall in *. intros e He.
    apply Hord. rewrite !in_app_iff in *. cbn [In] in *.
    rewrite !in_app_iff in *. cbn [In] in *. tauto. }
  split.
  { split; unfold unflatten_within; cbn [entries];
      now apply run_within_ordinary. }
  split; [split; apply unflatten_plain_object|].
  assert (H1 : getDeep (split P) t1 = Some v2).
  { unfold t1.
    replace (pre ++ (PQ, v1) :: mid ++ [(P, v2)])
      with ((pre ++ (PQ, v1) :: mid) ++ [(P, v2)])
      by now rewrite <- app_assoc.
    rewrite unflatten_snoc, unflatten_step_nonempty by assumption.
    apply getDeep_setDeep_from;
      [apply split_nonempty | apply unflatten_container]. }
  assert (H2 : getDeep (split PQ) t2 = Some v1).
  { unfold t2.
    replace (pre ++ (P, v2) :: mid ++ [(PQ, v1)])
      with ((pre ++ (P, v2) :: mid) ++ [(PQ, v1)])
      by now rewrite <- app_assoc.
    rewrite unflatten_snoc, unflatten_step_nonempty by apply app_dot_nonempty.
    apply getDeep_setDeep_from;
      [apply split_nonempty | apply unflatten_container]. }
  split; split; auto.
  - unfold PQ. rewrite split_app_dot, getDeep_app, H1.
    pose proof (split_nonempty Q) as HQ.
    destruct (split Q) as [|q qs]; [congruence|].
    now apply getDeep_scalar.
  - unfold PQ in H2. rewrite split_app_dot, getDeep_app in H2.
    destruct (getDeep (split P) t2) as [c|]; [|discriminate].
    exists c. split; auto.
    pose proof (split_nonempty Q) as HQ.
    destruct (split Q) as [|q qs]; [congruence|].
    simpl in H2. destruct (get_prop (seg_key q) c) eqn:G; [|discriminate].
    now apply get_prop_Some_container in G.
Qed.

Lemma unflatten_prefix_later_wins_witness :
  let t1 := unflatten (VObj [("a.b", VStr "x"); ("a", VStr "y")]) in
  let t2 := unflatten (VObj [("a", VStr "y"); ("a.b", VStr "x")]) in
  (unflatten_within (VObj [("a.b", VStr "x"); ("a", VStr "y")]) = true /\
   unflatten_within (VObj [("a", VStr "y"); ("a.b", VStr "x")]) = true) /\
  (is_plain_object t1 = true /\ is_plain_object t2 = true) /\
  (getDeep (split "a") t1 = Some (VStr "y") /\ getDeep (split "a.b") t1 = None) /\
  (getDeep (split "a.b") t2 = Some (VStr "x") /\
   exists c, getDeep (split "a") t2 = Some c /\ is_container c = true).
Proof.
  apply (unflatten_prefix_later_wins [] [] "a" "b" (VStr "x") (VStr "y")).
  - discriminate.
  - reflexivity.
  - reflexivity.
Defined.

(** C9, as stated, fails where [P] is the empty key: its entry is skipped
    even when it is processed last, and the tree keeps at [P] the
    container built for [P.Q]. *)
Lemma unflatten_empty_prefix_skipped :
  let M := VObj [(".b", VStr "x"); ("", VStr "y")] in
  unflatten M = VObj [("", VObj [("b", VStr "x")])] /\
  getDeep (split "") (unflatten M) = Some (VObj [("b", VStr "x")]) /\
  getDeep (split "") (unflatten M) <> Some (VStr "y").
Proof. repeat split. discriminate. Qed.

(** How [setDeep] acts below a prefix of name segments that already leads
    to a container. *)
Lemma getDeep_setDeep_below (P : list string) :
  forall (hp : bool) (q : string) (rest : list string) (v cur node : value),
    P <> [] ->
    Forall (fun s => isIndex s = false) P ->
    getDeep P cur = Some node -> is_container node = true ->
    getDeep P (setDeep_from hp (P ++ q :: rest) v cur) =
    Some (setDeep_from true (q :: rest) v node).
Proof.
  induction P as [|p P IH]; intros hp q rest v cur node Hne Hn Hg Hc;
    [congruence|].
  inversion Hn as [|? ? Hp HP]; subst.
  cbn [getDeep] in Hg. rewrite (seg_key_name p Hp) in Hg.
  destruct (get_prop p cur) as [c|] eqn:G; [|discriminate].
  pose proof (get_prop_Some_container _ _ _ G) as Hcur.
  assert (Hchild : forall b, is_container c = true ->
                             child_or_fresh (Some c) b = c).
  { intros b H. destruct c; simpl in H; try discriminate; reflexivity. }
  destruct P as [|p' P].
  - simpl in Hg. injection Hg as ->.
    change ([p] ++ q :: rest) with (p :: q :: rest).
    rewrite setDeep_from_inner, enter_name, seg_key_name by assumption.
    rewrite G, Hchild by assumption.
    cbn [getDeep]. rewrite seg_key_name by assumption.
    now rewrite get_set_same.
  - assert (Hcc : is_container c = true).
    { cbn [getDeep] in Hg.
      destruct (get_prop (seg_key p') c) eqn:G'; [|discriminate].
      now apply get_prop_Some_container in G'. }
    change ((p :: p' :: P) ++ q :: rest) with (p :: p' :: (P ++ q :: rest)).
    rewrite setDeep_from_inner, enter_name, seg_key_name by assumption.
    rewrite G, Hchild by assumption.
    cbn [getDeep]. rewrite (seg_key_name p) by assumption.
    rewrite get_set_same by assumption.
    change (p' :: P ++ q :: rest) with ((p' :: P) ++ q :: rest).
    change (match get_prop (seg_key p') ?x with
            | Some c0 => getDeep P c0 | None => None end)
      with (getDeep (p' :: P) x).
    apply IH; auto. discriminate.
Qed.

(** C2, as the code has it.  [unflatten] has no error of its own, and on
    a flat map of ordinary segments (none is [__proto__] or [length], every
    digit string denotes a number below 2^53) the walk executes no
    statement that can throw: also where the entries use one prefix both as
    a mapping-key context and as an index context it returns a tree, a root
    mapping.  Let [P] be a prefix of name segments that the last entry
    continues with the segment [s].  When the node at [P] is a mapping and
    [s] is an index, the node becomes a fresh sequence that holds the new
    entry alone: what the mapping held is dropped.  When the node at [P] is
    a sequence and [s] is a name, the sequence keeps its elements and
    receives [s] as a named property. *)
Theorem unflatten_schema_conflict_no_error
    (pre : props) (k : string) (v : value)
    (P rest : list string) (s : string) :
  k <> "" ->
  split k = P ++ s :: rest ->
  P <> [] ->
  Forall (fun p => isIndex p = false) P ->
  ordinary_map (pre ++ [(k, v)]) = true ->
  let before := unflatten (VObj pre) in
  let after := unflatten (VObj (pre ++ [(k, v)])) in
  (unflatten_within (VObj (pre ++ [(k, v)])) = true /\
   is_plain_object after = true) /\
  (forall ps,
      isIndex s = true -> getDeep P before = Some (VObj ps) ->
      exists c,
        getDeep P after = Some (set_prop (index_key s) c (VArr [] [])) /\
        getDeep rest c = Some v) /\
  (forall es nps,
      isIndex s = false -> getDeep P before = Some (VArr es nps) ->
      exists c,
        getDeep P after = Some (VArr es (props_set s c nps)) /\
        getDeep rest c = Some v).
Proof.
  intros Hk Hs HP Hn Hord before after.
  split.
  { split; [|apply unflatten_plain_object].
    unfold unflatten_within. cbn [entries]. now apply run_within_ordinary. }
  assert (Hafter : forall node,
             getDeep P before = Some node -> is_container node = true ->
             getDeep P after = Some (setDeep_from true (s :: rest) v node)).
  { intros node Hg Hc. unfold after.
    rewrite unflatten_snoc, unflatten_step_nonempty by assumption.
    unfold setDeep. rewrite Hs. now apply getDeep_setDeep_below. }
  split.
  - intros ps Hi Hg. rewrite (Hafter _ Hg eq_refl).
    destruct rest as [|next rest].
    + exists v. rewrite setDeep_from_last. unfold seg_key, enter. rewrite Hi.
      now split.
    + eexists. rewrite setDeep_from_inner. unfold seg_key, enter. rewrite Hi.
      split; [reflexivity|].
      apply getDeep_setDeep_from; [discriminate | apply child_or_fresh_container].
  - intros es nps Hi Hg. rewrite (Hafter _ Hg eq_refl).
    assert (Hset : forall c, set_prop s c (VArr es nps) =
                             VArr es (props_set s c nps)).
    { intros c. simpl. now rewrite array_index_not_index. }
    destruct rest as [|next rest].
    + exists v. rewrite setDeep_from_last, seg_key_name, enter_name by assumption.
      now rewrite Hset.
    + eexists.
      rewrite setDeep_from_inner, seg_key_name, enter_name by assumption.
      rewrite Hset. split; [reflexivity|].
      apply getDeep_setDeep_from; [discriminate | apply child_or_fresh_container].
Qed.

Lemma unflatten_schema_conflict_no_error_witness :
  let after := unflatten (VObj ([("a.b.c", VStr "x")] ++ [("a.0.b", VStr "y")])) in
  (unflatten_within (VObj ([("a.b.c", VStr "x")] ++ [("a.0.b", VStr "y")])) = true /\
   is_plain_object after = true) /\
  exists c,
    getDeep ["a"] after = Some (set_prop (index_key "0") c (VArr [] [])) /\
    getDeep ["b"] c = Some (VStr "y").
Proof.
  intros after.
  assert (Hk : "a.0.b" <> "") by discriminate.
  assert (Hs : split "a.0.b" = ["a"] ++ "0" :: ["b"]) by reflexivity.
  assert (HP : ["a"] <> []) by discriminate.
  assert (Hn : Forall (fun p => isIndex p = false) ["a"])
    by (repeat constructor).
  assert (Hord : ordinary_map ([("a.b.c", VStr "x")] ++ [("a.0.b", VStr "y")])
                 = true) by reflexivity.
  destruct (unflatten_schema_conflict_no_error
              [("a.b.c", VStr "x")] "a.0.b" (VStr "y") ["a"] ["b"] "0"
              Hk Hs HP Hn Hord) as (Hobj & Hmap & _).
  split; [exact Hobj|].
  apply (Hmap [("b", VObj [("c", VStr "x")])]); reflexivity.
Defined.

(** C2, as stated, fails: on the flat map of the claim [unflatten] returns
    a tree, and the entry at [a.b.c] is gone from it. *)
Lemma unflatten_mixed_nesting_drops :
  let M := VObj [("a.b.c", VStr "x"); ("a.0.b", VStr "y")] in
  unflatten M = VObj [("a", VArr [Some (VObj [("b", VStr "y")])] [])] /\
  getDeep (split "a.b.c") (unflatten M) = None.
Proof. split; reflexivity. Qed.


Lemma has_key_props_set (k k' : string) (v : value) (ps : props) :
  has_key k' ps = true -> has_key k' (props_set k v ps) = true.
Proof.
  unfold has_key. intros H.
  destruct (String.eqb_spec k' k) as [-> |Hne].
  - now rewrite assoc_props_set_same.
  - now rewrite assoc_props_set_other.
Qed.

Lemma has_key_props_set_same (k : string) (v : value) (ps : props) :
  has_key k (props_set k v ps) = true.
Proof. unfold has_key. now rewrite assoc_props_set_same. Qed.

(** On the root, which is a plain object without a parent, [setDeep] is a
    single write to the property of the first segment. *)
Lemma setDeep_root (p : string) (rest : list string) (v : value) (ps : props) :
  exists x, setDeep (p :: rest) v (VObj ps) = VObj (props_set (seg_key p) x ps).
Proof.
  unfold setDeep. destruct rest as [|next rest].
  - exists v. rewrite setDeep_from_last. unfold enter. simpl.
    now destruct (isIndex p).
  - eexists. rewrite setDeep_from_inner. unfold enter. simpl.
    destruct (isIndex p); reflexivity.
Qed.

Lemma unflatten_step_root (ps : props) (e : string * value) :
  exists ps',
    unflatten_step (VObj ps) e = VObj ps' /\
    (forall k', has_key k' ps = true -> has_key k' ps' = true) /\
    (fst e <> "" ->
     forall p rest, split (fst e) = p :: rest -> has_key (seg_key p) ps' = true).
Proof.
  destruct e as [k v]. simpl. destruct (String.eqb_spec k "") as [-> |Hk].
  - exists ps. split; [reflexivity|]. split; [auto|]. congruence.
  - pose proof (split_nonempty k) as Hne.
    destruct (split k) as [|p rest] eqn:S; [congruence|].
    destruct (setDeep_root p rest v ps) as [x Hx]. rewrite Hx.
    eexists. split; [reflexivity|]. split.
    + intros k' H. now apply has_key_props_set.
    + intros _ p0 rest0 [= <- <-]. apply has_key_props_set_same.
Qed.

Lemma fold_unflatten_step_root (l : props) :
  forall ps, exists ps',
    fold_left unflatten_step l (VObj ps) = VObj ps' /\
    (forall k', has_key k' ps = true -> has_key k' ps' = true) /\
    (forall k v p rest, In (k, v) l -> k <> "" -> split k = p :: rest ->
                        has_key (seg_key p) ps' = true).
Proof.
  induction l as [|e l IH]; intros ps; simpl.
  - exists ps. split; [reflexivity|]. split; [auto|]. intros; tauto.
  - destruct (unflatten_step_root ps e) as (ps1 & E1 & K1 & N1).
    rewrite E1. destruct (IH ps1) as (ps2 & E2 & K2 & N2).
    exists ps2. split; [assumption|]. split; [auto|].
    intros k v p rest [-> |Hin] Hk Hs.
    + apply K2. now apply (N1 Hk p rest).
    + now apply (N2 k v p rest).
Qed.

(** C4, as the code has it.  On a flat map of ordinary segments (none is
    [__proto__] or [length], every digit string denotes a number below
    2^53) the root that [unflatten] returns is a mapping, never a sequence,
    whatever the top-level segments are; the first segment of every entry
    with a non-empty path is a key of it, an index segment [p] under the
    numeric-looking string [String(Number(p))]. *)
Theorem unflatten_root_is_mapping (flatObj : value) :
  ordinary_map (entries flatObj) = true ->
  exists ps,
    unflatten flatObj = VObj ps /\
    unflatten_within flatObj = true /\
    forall k v p rest,
      In (k, v) (entries flatObj) -> k <> "" -> split k = p :: rest ->
      has_key (seg_key p) ps = true.
Proof.
  intros Hord. unfold unflatten.
  destruct (fold_unflatten_step_root (entries flatObj) []) as (ps & E & _ & N).
  exists ps. split; [assumption|]. split; [|exact N].
  now apply run_within_ordinary.
Qed.

Lemma unflatten_root_is_mapping_witness :
  exists ps,
    unflatten (VObj [("0", VStr "x"); ("1", VStr "y")]) = VObj ps /\
    has_key (seg_key "1") ps = true.
Proof.
  destruct (unflatten_root_is_mapping (VObj [("0", VStr "x"); ("1", VStr "y")])
              eq_refl)
    as (ps & E & _ & N).
  exists ps. split; [exact E|].
  apply (N "1" (VStr "y") "1" []).
  - simpl. auto.
  - discriminate.
  - reflexivity.
Defined.

(** C4, as stated, fails: all top-level segments are numeric and the root
    is a mapping, not a sequence. *)
Lemma unflatten_numeric_top_level_not_array :
  let M := VObj [("0", VStr "x"); ("1", VStr "y")] in
  unflatten M = VObj [("0", VStr "x"); ("1", VStr "y")] /\
  isArray (unflatten M) = false.
Proof. split; reflexivity. Qed.




(** C8.  On the flat map [{"0": "x", "name": "y"}], whose top-level
    segments mix an index and a name, the two [unflatten] functions return
    different trees: the first keeps the entry at ["0"] as a property of the
    root, the second writes it to a detached array and loses it. *)
Theorem unflatten_variants_differ :
  exists M : value,
    (exists k v, In (k, v) (entries M) /\ isIndex (hd "" (split k)) = true) /\
    (exists k v, In (k, v) (entries M) /\ isIndex (hd "" (split k)) = false) /\
    unflatten M = VObj [("0", VStr "x"); ("name", VStr "y")] /\
    unflatten2 M = VObj [("name", VStr "y")] /\
    unflatten M <> unflatten2 M.
Proof.
  exists (VObj [("0", VStr "x"); ("name", VStr "y")]).
  split; [exists "0", (VStr "x"); simpl; auto|].
  split; [exists "name", (VStr "y"); simpl; auto|].
  split; [reflexivity|]. split; [reflexivity|]. discriminate.
Qed.

(** C10.  On [null], [undefined], a boolean, a number or a string,
    [flattenJSON] called with its default arguments returns the empty flat
    map. *)
Theorem flattenJSON_non_container_empty :
  flatten VNull = VObj [] /\
  flatten VUndef = VObj [] /\
  (forall b, flatten (VBool b) = VObj []) /\
  (forall n, flatten (VNum n) = VObj []) /\
  (forall s, flatten (VStr s) = VObj []).
Proof. repeat split. Qed.

(** C5 at the failing input [{"a": [["x"]]}]: the inner sequence is not
    entered, it is stored whole as the value at [a.0]. *)
Theorem flattenJSON_nested_array_stored :
  let T := VObj [("a", VArr [Some (VArr [Some (VStr "x")] [])] [])] in
  flatten T = VObj [("a.0", VArr [Some (VStr "x")] [])] /\
  (exists k v, In (k, v) (entries (flatten T)) /\ is_container v = true) /\
  get_prop "a.0.0" (flatten T) = None.
Proof.
  split; [reflexivity|]. split; [|reflexivity].
  exists "a.0", (VArr [Some (VStr "x")] []). simpl. auto.
Qed.



(** ** [flattenJSON] is the sequence of writes listed by [flat_paths] *)

Lemma join_key_nonempty_l (pk k : string) :
  pk <> "" -> join_key pk k = (pk ++ "." ++ k)%string.
Proof. intros H. unfold join_key. apply String.eqb_neq in H. now rewrite H. Qed.

Lemma join_key_nonempty (pk k : string) :
  pk <> "" \/ k <> "" -> join_key pk k <> "".
Proof.
  unfold join_key. destruct (String.eqb_spec pk "") as [-> |Hne].
  - intros [H|H]; congruence.
  - intros _. destruct pk; [congruence | discriminate].
Qed.

Lemma String_of_nonempty (n : N) : String_of n <> "".
Proof.
  pose proof (isIndex_String_of n) as H. intros E. rewrite E in H. discriminate.
Qed.

Lemma keyed_cons_seg (pk k : string) (e : list string * value) :
  keyed pk (cons_seg k e) = keyed (join_key pk k) e.
Proof. reflexivity. Qed.

Lemma map_keyed_cons_seg (pk k : string) (l : list (list string * value)) :
  map (keyed pk) (map (cons_seg k) l) = map (keyed (join_key pk k)) l.
Proof. rewrite map_map. apply map_ext. intros e. apply keyed_cons_seg. Qed.


Lemma forEach_from_spec (es : list (option value)) :
  Forall (fun e => forall v, e = Some v -> flatten_spec v) es ->
  forall nk i out,
    nk <> "" ->
    forEach_from flattenJSON nk i es out =
    fold_left set_entry (map (keyed nk) (elems_paths flat_paths i es)) out.
Proof.
  induction 1 as [|e es He _ IH]; intros nk i out Hnk; [reflexivity|].
  destruct e as [iv|]; simpl; [|now apply IH].
  rewrite map_app, fold_left_app, map_keyed_cons_seg.
  rewrite join_key_nonempty_l by assumption.
  rewrite IH by assumption. f_equal.
  destruct iv; try reflexivity.
  apply (He _ eq_refl). left.
  rewrite <- join_key_nonempty_l by assumption.
  apply join_key_nonempty. now left.
Qed.


Lemma flatten_entry_spec (pk k : string) (v : value) (out : props) :
  flatten_spec v -> slots_spec v ->
  pk <> "" \/ k <> "" ->
  flatten_entry flattenJSON pk k v out =
  fold_left set_entry
    (map (keyed pk) (map (cons_seg k) (below_paths flat_paths v))) out.
Proof.
  intros Hv Hes Hk. rewrite map_keyed_cons_seg.
  pose proof (join_key_nonempty pk k Hk) as Hnk.
  destruct v; try reflexivity.
  - apply Hv. now left.
  - unfold flatten_entry, below_paths. now apply forEach_from_spec.
Qed.

Lemma flatten_named_spec (ps : props) :
  Forall (fun kv => flatten_spec (snd kv) /\ slots_spec (snd kv)) ps ->
  forall pk out,
    pk <> "" \/ Forall (fun kv => fst kv <> "") ps ->
    flatten_named flattenJSON pk ps out =
    fold_left set_entry (map (keyed pk) (named_paths flat_paths ps)) out.
Proof.
  induction 1 as [|[k v] ps [Hv Hs] _ IH]; intros pk out Hk; [reflexivity|].
  simpl. rewrite map_app, fold_left_app.
  assert (Hk1 : pk <> "" \/ k <> "").
  { destruct Hk as [H|H]; [now left|right]. now inversion H. }
  assert (Hk2 : pk <> "" \/ Forall (fun kv => fst kv <> "") ps).
  { destruct Hk as [H|H]; [now left|right]. now inversion H. }
  rewrite IH by assumption. f_equal. now apply flatten_entry_spec.
Qed.

Lemma flatten_indexed_spec (es : list (option value)) :
  Forall (fun e => forall v, e = Some v -> flatten_spec v /\ slots_spec v) es ->
  forall pk i out,
    flatten_indexed flattenJSON pk i es out =
    fold_left set_entry (map (keyed pk) (indexed_paths flat_paths i es)) out.
Proof.
  induction 1 as [|e es He _ IH]; intros pk i out; [reflexivity|].
  destruct e as [v|]; simpl; [|now apply IH].
  rewrite map_app, fold_left_app, IH. f_equal.
  destruct (He v eq_refl) as [Hv Hs].
  apply flatten_entry_spec; auto. right. apply String_of_nonempty.
Qed.

Lemma flattenJSON_flat_paths_slots (t : value) : flatten_spec t /\ slots_spec t.
Proof.
  induction t as [| | | | | |ps IHps|es ps IHes IHps] using value_ind;
    try (split; [intros pk out _; reflexivity | exact I]).
  - split; [|exact I]. intros pk out Hk. cbn [flattenJSON flat_paths].
    apply flatten_named_spec; [assumption|]. destruct Hk; auto.
  - split.
    + intros pk out Hk. cbn [flattenJSON flat_paths].
      rewrite map_app, fold_left_app.
      rewrite flatten_indexed_spec by assumption.
      apply flatten_named_spec; [assumption|]. destruct Hk; auto.
    + simpl. eapply Forall_impl; [|exact IHes].
      intros e H w Hw. now apply H.
Qed.

Lemma flattenJSON_flat_paths (t : value) (pk : string) (out : props) :
  pk <> "" \/ top_keys_nonempty t ->
  flattenJSON t pk out = fold_left set_entry (map (keyed pk) (flat_paths t)) out.
Proof. apply flattenJSON_flat_paths_slots. Qed.

(** ** Writing twice, and writing back what was read *)

Lemma replace_replace (k : string) (a b : value) (ps : props) :
  replace k b (replace k a ps) = replace k b ps.
Proof.
  induction ps as [|[k' v'] ps IH]; simpl; auto.
  destruct (k' =? k) eqn:E; simpl; rewrite E; auto. now rewrite IH.
Qed.

Lemma has_key_replace (k k' : string) (a : value) (ps : props) :
  has_key k' (replace k a ps) = has_key k' ps.
Proof.
  unfold has_key. destruct (String.eqb_spec k' k) as [-> |Hne].
  - destruct (assoc k ps) eqn:A.
    + rewrite assoc_replace_same; auto. unfold has_key. now rewrite A.
    + assert (H : replace k a ps = ps).
      { clear -A. induction ps as [|[k0 v0] ps IH]; simpl in *; auto.
        destruct (k0 =? k); [discriminate|]. now rewrite IH. }
      now rewrite H, A.
  - now rewrite assoc_replace_other.
Qed.

Lemma replace_insert_index (n : N) (k : string) (a b : value) (ps : props) :
  assoc k ps = None ->
  replace k b (insert_index n k a ps) = insert_index n k b ps.
Proof.
  induction ps as [|[k' v'] ps IH]; simpl.
  - now rewrite String.eqb_refl.
  - destruct (k' =? k) eqn:E; [discriminate|]. intros A.
    destruct (array_index k') as [m|]; simpl.
    + destruct (m <? n)%N; simpl; rewrite ?E, ?String.eqb_refl; auto.
      now rewrite IH.
    + now rewrite String.eqb_refl.
Qed.

Lemma replace_app_fresh (k : string) (a b : value) (ps : props) :
  assoc k ps = None -> replace k b (ps ++ [(k, a)]) = ps ++ [(k, b)].
Proof.
  induction ps as [|[k' v'] ps IH]; simpl.
  - now rewrite String.eqb_refl.
  - destruct (k' =? k) eqn:E; [discriminate|]. intros A. now rewrite IH.
Qed.

Lemma props_set_props_set (k : string) (a b : value) (ps : props) :
  props_set k b (props_set k a ps) = props_set k b ps.
Proof.
  unfold props_set at 1. rewrite has_key_props_set_same.
  unfold props_set. destruct (has_key k ps) eqn:H.
  - apply replace_replace.
  - unfold has_key in H. destruct (assoc k ps) eqn:A; [discriminate|].
    destruct (array_index k).
    + now apply replace_insert_index.
    + now apply replace_app_fresh.
Qed.

Lemma replace_same (k : string) (x : value) (ps : props) :
  assoc k ps = Some x -> replace k x ps = ps.
Proof.
  induction ps as [|[k' v'] ps IH]; simpl; auto.
  destruct (k' =? k) eqn:E.
  - now intros [= ->].
  - intros A. now rewrite IH.
Qed.

Lemma props_set_same (k : string) (x : value) (ps : props) :
  assoc k ps = Some x -> props_set k x ps = ps.
Proof.
  intros A. unfold props_set, has_key. rewrite A. now apply replace_same.
Qed.

Lemma elems_set_elems_set (n : nat) (a b : value) (es : list (option value)) :
  elems_set n b (elems_set n a es) = elems_set n b es.
Proof.
  revert es. induction n as [|n IH]; intros [|e es]; simpl; auto;
    now rewrite IH.
Qed.

Lemma elems_set_same (n : nat) (x : value) (es : list (option value)) :
  nth_error es n = Some (Some x) -> elems_set n x es = es.
Proof.
  revert es. induction n as [|n IH]; intros [|e es]; simpl; try discriminate.
  - now intros [= ->].
  - intros H. now rewrite IH.
Qed.

Lemma set_set_same (k : string) (a b c : value) :
  set_prop k b (set_prop k a c) = set_prop k b c.
Proof.
  destruct c; simpl; auto.
  - now rewrite props_set_props_set.
  - destruct (array_index k) eqn:E; simpl; rewrite E.
    + now rewrite elems_set_elems_set.
    + now rewrite props_set_props_set.
Qed.

Lemma set_get_same (k : string) (x c : value) :
  get_prop k c = Some x -> set_prop k x c = c.
Proof.
  destruct c; simpl; try discriminate.
  - intros A. now rewrite props_set_same.
  - destruct (array_index k) eqn:E.
    + destruct (nth_error elems (N.to_nat n)) as [[w|]|] eqn:Hn; try discriminate.
      intros [= ->]. now rewrite elems_set_same.
    + intros A. now rewrite props_set_same.
Qed.


Lemma build_app (hp : bool) (l1 l2 : list (list string * value)) (cur : value) :
  build hp (l1 ++ l2) cur = build hp l2 (build hp l1 cur).
Proof. apply fold_left_app. Qed.

Lemma build_container (hp : bool) (l : list (list string * value)) (cur : value) :
  is_container cur = true -> is_container (build hp l cur) = true.
Proof.
  revert cur. induction l as [|e l IH]; simpl; auto.
  intros cur H. apply IH. now apply setDeep_from_container.
Qed.

Lemma child_or_fresh_Some (c : value) (b : bool) :
  is_container c = true -> child_or_fresh (Some c) b = c.
Proof. destruct c; simpl; try discriminate; reflexivity. Qed.

Lemma enter_set_prop (hp : bool) (p k : string) (x c : value) :
  enter hp p c = c -> enter hp p (set_prop k x c) = set_prop k x c.
Proof.
  unfold enter, ensure_array. destruct (isIndex p); auto.
  rewrite set_prop_isArray. destruct (isArray c) eqn:A; simpl; auto.
  destruct hp; auto. intros <-. discriminate.
Qed.

(** Paths with a common first segment [k], processed from [cur], act on the
    container in the slot of [k]. *)
Lemma build_below_existing (hp : bool) (k : string) (l : list (list string * value)) :
  forall (cur child : value),
    Forall (fun e => fst e <> []) l ->
    enter hp k cur = cur ->
    get_prop (seg_key k) cur = Some child ->
    is_container child = true ->
    build hp (map (cons_seg k) l) cur =
    set_prop (seg_key k) (build true l child) cur.
Proof.
  induction l as [|[q v] l IH]; intros cur child Hne He Hg Hc.
  - simpl. symmetry. now apply set_get_same.
  - inversion Hne as [|? ? Hq Hl]; subst. simpl in Hq.
    destruct q as [|s q]; [congruence|].
    unfold build in *. cbn [map fold_left cons_seg fst snd].
    rewrite setDeep_from_inner, He, Hg, child_or_fresh_Some by assumption.
    pose proof (get_prop_Some_container _ _ _ Hg) as Hcur.
    rewrite (IH _ (setDeep_from true (s :: q) v child)); auto.
    + now rewrite set_set_same.
    + now apply enter_set_prop.
    + now apply get_set_same.
    + now apply setDeep_from_container.
Qed.

(** The same when the slot of [k] holds no container yet: the first path
    creates it, a sequence if its next segment is an index. *)
Lemma build_below_fresh (hp : bool) (k s : string) (q : list string) (v : value)
    (l : list (list string * value)) (cur : value) :
  Forall (fun e => fst e <> []) l ->
  is_container cur = true ->
  enter hp k cur = cur ->
  not_an_object (get_prop (seg_key k) cur) = true ->
  build hp (map (cons_seg k) ((s :: q, v) :: l)) cur =
  set_prop (seg_key k)
    (build true ((s :: q, v) :: l)
       (if isIndex s then VArr [] [] else VObj []))
    cur.
Proof.
  intros Hne Hc He Hg. unfold build. cbn [map fold_left cons_seg fst snd].
  rewrite setDeep_from_inner, He. unfold child_or_fresh at 1. rewrite Hg.
  set (fresh := if isIndex s then VArr [] [] else VObj []).
  assert (Hf : is_container fresh = true) by (unfold fresh; destruct (isIndex s); auto).
  fold (build hp (map (cons_seg k) l)
          (set_prop (seg_key k) (setDeep_from true (s :: q) v fresh) cur)).
  rewrite (build_below_existing hp k l _ (setDeep_from true (s :: q) v fresh)); auto.
  - now rewrite set_set_same.
  - now apply enter_set_prop.
  - now apply get_set_same.
  - now apply setDeep_from_container.
Qed.


Lemma distinct_NoDup (ks : list string) : distinct ks = true -> NoDup ks.
Proof.
  induction ks as [|k ks IH]; simpl; [constructor|].
  intros H. apply andb_true_iff in H as [H1 H2]. constructor; auto.
  intros Hin. apply negb_true_iff in H1.
  assert (existsb (String.eqb k) ks = true); [|congruence].
  apply existsb_exists. exists k. split; auto. apply String.eqb_refl.
Qed.

Lemma NoDup_distinct (ks : list string) : NoDup ks -> distinct ks = true.
Proof.
  induction 1 as [|k ks Hni _ IH]; simpl; auto.
  rewrite IH, andb_true_r. apply negb_true_iff.
  destruct (existsb (String.eqb k) ks) eqn:E; auto.
  apply existsb_exists in E as (x & Hx & Ex).
  apply String.eqb_eq in Ex. subst. contradiction.
Qed.

Lemma is_name_spec (k : string) :
  is_name k = true -> k <> "" /\ no_dot k = true /\ isIndex k = false.
Proof.
  unfold is_name. intros H. apply andb_true_iff in H as [H _].
  apply andb_true_iff in H as [H H3]. apply andb_true_iff in H as [H1 H2].
  apply negb_true_iff in H1, H3. apply String.eqb_neq in H1. auto.
Qed.

Lemma is_scalar_not_nullish (v : value) :
  is_scalar v = true -> nullish_default v = v.
Proof. destruct v; simpl; try discriminate; reflexivity. Qed.

Lemma Forall_cons_seg_nonempty (k : string) (l : list (list string * value)) :
  Forall (fun e => fst e <> []) (map (cons_seg k) l).
Proof. apply Forall_forall. intros e H. apply in_map_iff in H as (x & <- & _). discriminate. Qed.

Lemma Forall_nonempty_app (l1 l2 : list (list string * value)) :
  Forall (fun e => fst e <> []) l1 -> Forall (fun e => fst e <> []) l2 ->
  Forall (fun e => fst e <> []) (l1 ++ l2).
Proof. intros. apply Forall_app. auto. Qed.

Lemma named_paths_nonempty (ps : props) :
  Forall (fun e => fst e <> []) (named_paths flat_paths ps).
Proof.
  induction ps as [|[k v] ps IH]; simpl; [constructor|].
  apply Forall_nonempty_app; auto using Forall_cons_seg_nonempty.
Qed.

Lemma elems_paths_nonempty (es : list (option value)) (i : N) :
  Forall (fun e => fst e <> []) (elems_paths flat_paths i es).
Proof.
  revert i. induction es as [|[iv|] es IH]; intros i; simpl; auto.
  apply Forall_nonempty_app; auto using Forall_cons_seg_nonempty.
Qed.

(** The paths below a well-formed container start with a segment of the
    kind of the container. *)
Lemma wf_below_paths_shape (v : value) :
  wf_node v = true ->
  (is_container v = false /\ below_paths flat_paths v = [([], v)]) \/
  (is_container v = true /\
   exists s q w l,
     below_paths flat_paths v = (s :: q, w) :: l /\
     isIndex s = isArray v /\
     Forall (fun e => fst e <> []) l).
Proof.
  induction v as [| | | | | |ps IHps|es ps IHes IHps] using value_ind;
    simpl; try discriminate; try (intros _; left; now split).
  - intros H. right. split; [reflexivity|].
    apply andb_true_iff in H as [H Hw]. apply andb_true_iff in H as [H _].
    apply andb_true_iff in H as [Hne Hnames].
    destruct ps as [|[k v] ps]; [discriminate|].
    simpl in Hw, Hnames. apply andb_true_iff in Hw as [Hv _].
    apply andb_true_iff in Hnames as [Hk _].
    apply is_name_spec in Hk as (_ & _ & Hk).
    inversion IHps as [|? ? IHv _]; subst. simpl in IHv.
    cbn [named_paths].
    destruct (IHv Hv) as [[_ E]|[_ (s & q & w & l & E & _ & Hl)]]; rewrite E.
    + exists k, [], v, (named_paths flat_paths ps). cbn.
      repeat split; auto using named_paths_nonempty.
    + exists k, (s :: q), w,
        (map (cons_seg k) l ++ named_paths flat_paths ps). cbn.
      repeat split; auto.
      apply Forall_nonempty_app;
        auto using Forall_cons_seg_nonempty, named_paths_nonempty.
  - intros H. right. split; [reflexivity|].
    apply andb_true_iff in H as [H Hw]. apply andb_true_iff in H as [H _].
    apply andb_true_iff in H as [_ Hne].
    destruct es as [|[iv|] es]; try discriminate.
    simpl in Hw. apply andb_true_iff in Hw as [Hv _].
    inversion IHes as [|? ? IHv _]; subst.
    cbn [elems_paths].
    assert (Hshape : exists q w l,
               elem_paths flat_paths iv = (q, w) :: l /\
               Forall (fun e => fst e <> []) l).
    { destruct (IHv iv eq_refl Hv) as [[Hc E]|[Hc (s & q & w & l & E & _ & Hl)]].
      - exists [], (nullish_default iv), []. split; [|constructor].
        destruct iv; try reflexivity; discriminate.
      - destruct iv; try discriminate.
        + exists (s :: q), w, l. split; auto.
        + exists [], (VArr elems props0), []. split; [reflexivity | constructor]. }
    destruct Hshape as (q & w & l & E & Hl). rewrite E.
    exists (String_of 0), q, w,
      (map (cons_seg (String_of 0)) l ++ elems_paths flat_paths (N.succ 0) es).
    cbn. repeat split; auto.
    apply Forall_nonempty_app;
      auto using Forall_cons_seg_nonempty, elems_paths_nonempty.
Qed.

(** ** Rebuilding a well-formed tree from its paths *)


Lemma build_entry (hp : bool) (k : string) (v : value) (cur : value) :
  wf_node v = true -> rebuilt v ->
  is_container cur = true ->
  enter hp k cur = cur ->
  get_prop (seg_key k) cur = None ->
  build hp (map (cons_seg k) (below_paths flat_paths v)) cur =
  set_prop (seg_key k) v cur.
Proof.
  intros Hw Hr Hc He Hg.
  destruct (wf_below_paths_shape v Hw)
    as [[Hs E]|[Hs (s & q & w & l & E & Hi & Hl)]]; rewrite E.
  - unfold build. cbn [map fold_left cons_seg fst snd].
    now rewrite setDeep_from_last, He.
  - rewrite build_below_fresh; auto; [|now rewrite Hg].
    f_equal. rewrite Hi, <- E. now apply Hr.
Qed.

Lemma build_named (hp : bool) (ps2 : props) :
  Forall (fun kv => wf_node (snd kv) = true /\ rebuilt (snd kv)) ps2 ->
  forall ps1,
    Forall (fun kv => is_name (fst kv) = true) ps2 ->
    NoDup (map fst (ps1 ++ ps2)) ->
    build hp (named_paths flat_paths ps2) (VObj ps1) = VObj (ps1 ++ ps2).
Proof.
  induction 1 as [|[k v] ps2 [Hw Hr] _ IH]; intros ps1 Hn Hnd.
  - simpl. now rewrite app_nil_r.
  - inversion Hn as [|? ? Hk Hn']; subst. simpl in Hk, Hw, Hr.
    apply is_name_spec in Hk as (_ & _ & Hk).
    assert (Hfresh : assoc k ps1 = None).
    { apply assoc_None_not_In. rewrite map_app in Hnd. simpl in Hnd.
      apply NoDup_remove_2 in Hnd. intros Hin. apply Hnd.
      apply in_or_app. now left. }
    cbn [named_paths]. rewrite build_app.
    rewrite build_entry; auto.
    + rewrite seg_key_name by assumption. simpl.
      rewrite props_set_fresh_name by assumption.
      rewrite IH; auto.
      * now rewrite <- app_assoc.
      * now rewrite <- app_assoc.
    + now apply enter_name.
    + rewrite seg_key_name by assumption. exact Hfresh.
Qed.

Lemma slot_beyond (es : list (option value)) : slot es (List.length es) = None.
Proof.
  unfold slot. assert (H : nth_error es (List.length es) = None)
    by (apply nth_error_None; lia). now rewrite H.
Qed.

Lemma build_elems (es2 : list (option value)) :
  Forall (fun e => exists v, e = Some v /\ wf_node v = true /\ rebuilt v) es2 ->
  forall es1,
    (N.of_nat (List.length (es1 ++ es2)) <= max_array_index)%N ->
    build true (elems_paths flat_paths (N.of_nat (List.length es1)) es2)
      (VArr es1 []) =
    VArr (es1 ++ es2) [].
Proof.
  induction 1 as [|e es2 (iv & -> & Hw & Hr) _ IH]; intros es1 Hlen.
  - simpl. now rewrite app_nil_r.
  - set (i := N.of_nat (List.length es1)).
    assert (Hi : (i < max_array_index)%N).
    { rewrite length_app in Hlen. simpl in Hlen. unfold i. lia. }
    assert (Hkey : seg_key (String_of i) = String_of i).
    { unfold seg_key. now rewrite isIndex_String_of, index_key_String_of. }
    assert (Hset : set_prop (String_of i) iv (VArr es1 []) =
                   VArr (es1 ++ [Some iv]) []).
    { simpl. rewrite array_index_String_of by assumption.
      unfold i. now rewrite Nnat.Nat2N.id, elems_set_append. }
    assert (Hget : get_prop (String_of i) (VArr es1 []) = None).
    { rewrite get_prop_slot, array_index_String_of by assumption.
      unfold i. rewrite Nnat.Nat2N.id. apply slot_beyond. }
    assert (Henter : enter true (String_of i) (VArr es1 []) = VArr es1 []).
    { unfold enter. now rewrite isIndex_String_of. }
    assert (Hnext : N.succ i = N.of_nat (List.length (es1 ++ [Some iv]))).
    { rewrite length_app. simpl. unfold i. lia. }
    cbn [elems_paths]. rewrite build_app.
    assert (Hstep : build true
                      (map (cons_seg (String_of i)) (elem_paths flat_paths iv))
                      (VArr es1 []) = VArr (es1 ++ [Some iv]) []).
    { destruct iv; simpl in Hw; try discriminate;
        try (unfold build; cbn [elem_paths map fold_left cons_seg fst snd];
             rewrite setDeep_from_last, Henter, Hkey; exact Hset).
      change (elem_paths flat_paths (VObj props0))
        with (below_paths flat_paths (VObj props0)).
      rewrite build_entry; auto; rewrite Hkey; auto. }
    rewrite Hstep, Hnext, IH.
    + now rewrite <- app_assoc.
    + now rewrite <- app_assoc.
Qed.

Lemma wf_node_rebuilt (v : value) : wf_node v = true -> rebuilt v.
Proof.
  induction v as [| | | | | |ps IHps|es ps IHes IHps] using value_ind;
    intros Hw Hc; try discriminate.
  - simpl in Hw.
    apply andb_true_iff in Hw as [H Hch]. apply andb_true_iff in H as [H Hd].
    apply andb_true_iff in H as [_ Hn].
    change (build true (named_paths flat_paths ps) (VObj []) = VObj ([] ++ ps)).
    apply build_named.
    + rewrite forallb_forall in Hch. rewrite Forall_forall in IHps.
      apply Forall_forall. intros kv Hin. split; auto.
    + apply Forall_forall. rewrite forallb_forall in Hn. auto.
    + now apply distinct_NoDup.
  - simpl in Hw.
    apply andb_true_iff in Hw as [H Hch]. apply andb_true_iff in H as [H Hlen].
    apply andb_true_iff in H as [Hps _].
    destruct ps; [|discriminate].
    change (build true (elems_paths flat_paths (N.of_nat (List.length (@nil (option value)))) es)
              (VArr [] []) = VArr ([] ++ es) []).
    apply build_elems.
    + rewrite forallb_forall in Hch. rewrite Forall_forall in IHes.
      apply Forall_forall. intros e Hin. specialize (Hch e Hin).
      destruct e as [v|]; [|discriminate].
      exists v. split; auto. split; auto. now apply (IHes _ Hin).
    + simpl. now apply N.leb_le.
Qed.

(** [setDeep] over the paths of a well-formed root mapping builds it back *)
Lemma build_wf_root (ps : props) :
  wf_tree (VObj ps) = true ->
  build false (flat_paths (VObj ps)) (VObj []) = VObj ps.
Proof.
  intros Hw. simpl in Hw.
  apply andb_true_iff in Hw as [H Hch]. apply andb_true_iff in H as [Hn Hd].
  change (build false (named_paths flat_paths ps) (VObj []) = VObj ([] ++ ps)).
  apply build_named.
  - rewrite forallb_forall in Hch. apply Forall_forall. intros kv Hin.
    split; auto. apply wf_node_rebuilt; auto.
  - apply Forall_forall. rewrite forallb_forall in Hn. auto.
  - now apply distinct_NoDup.
Qed.


(** ** Keys and paths *)

Lemma good_seg_spec (s : string) :
  good_seg s = true -> s <> "" /\ no_dot s = true.
Proof.
  unfold good_seg. intros H. apply andb_true_iff in H as [H1 H2].
  apply negb_true_iff, String.eqb_neq in H1. auto.
Qed.

Lemma is_name_good_seg (k : string) : is_name k = true -> good_seg k = true.
Proof.
  intros H. apply is_name_spec in H as (H1 & H2 & _).
  unfold good_seg. rewrite H2, andb_true_r.
  now apply negb_true_iff, String.eqb_neq.
Qed.

Lemma good_seg_String_of (n : N) : good_seg (String_of n) = true.
Proof.
  unfold good_seg. rewrite no_dot_String_of, andb_true_r.
  apply negb_true_iff, String.eqb_neq, String_of_nonempty.
Qed.

Lemma path_key_nonempty (q : list string) :
  forall pk, pk <> "" -> path_key pk q <> "".
Proof.
  induction q as [|s q IH]; intros pk H; simpl; auto.
  apply IH, join_key_nonempty. now left.
Qed.

Lemma split_path_key (q : list string) :
  forall pk,
    pk <> "" -> Forall (fun s => good_seg s = true) q ->
    split (path_key pk q) = split pk ++ q.
Proof.
  induction q as [|s q IH]; intros pk Hpk Hq; simpl.
  - now rewrite app_nil_r.
  - inversion Hq as [|? ? Hs Hq']; subst.
    apply good_seg_spec in Hs as [_ Hs].
    rewrite IH; auto.
    + rewrite join_key_nonempty_l, split_app_dot, (split_no_dot s) by assumption.
      now rewrite <- app_assoc.
    + apply join_key_nonempty. now left.
Qed.

Lemma split_path_key_root (s : string) (q : list string) :
  Forall (fun s => good_seg s = true) (s :: q) ->
  split (path_key "" (s :: q)) = s :: q /\ path_key "" (s :: q) <> "".
Proof.
  intros H. inversion H as [|? ? Hs Hq]; subst.
  apply good_seg_spec in Hs as [Hne Hnd].
  change (path_key "" (s :: q)) with (path_key s q). split.
  - rewrite split_path_key by assumption. now rewrite split_no_dot.
  - now apply path_key_nonempty.
Qed.

Lemma isIndex_split (k : string) : isIndex k = true -> split k = [k].
Proof. intros H. apply split_no_dot. now apply isIndex_no_dot. Qed.

Lemma array_index_path_key (s : string) (q : list string) :
  Forall (fun s => good_seg s = true) (s :: q) ->
  isIndex s = false ->
  array_index (path_key "" (s :: q)) = None.
Proof.
  intros Hg Hs. apply array_index_not_index.
  destruct (isIndex (path_key "" (s :: q))) eqn:E; auto.
  pose proof (isIndex_split _ E) as Hone.
  destruct (split_path_key_root s q Hg) as [Hsp _].
  rewrite Hsp in Hone. injection Hone as Hk _.
  change (path_key (join_key "" s) q) with (path_key "" (s :: q)) in Hk.
  congruence.
Qed.

(** ** The paths of a well-formed tree *)

Lemma good_path_cons_seg (k : string) (l : list (list string * value)) :
  good_seg k = true -> Forall good_path l -> Forall good_path (map (cons_seg k) l).
Proof.
  intros Hk Hl. apply Forall_forall. intros e H.
  apply in_map_iff in H as (x & <- & Hx).
  rewrite Forall_forall in Hl. constructor; auto. now apply Hl.
Qed.

Lemma named_paths_good (ps : props) :
  Forall (fun kv => good_seg (fst kv) = true /\
                    Forall good_path (below_paths flat_paths (snd kv))) ps ->
  Forall good_path (named_paths flat_paths ps).
Proof.
  induction 1 as [|[k v] ps [Hk Hv] _ IH]; simpl; [constructor|].
  apply Forall_app. split; auto using good_path_cons_seg.
Qed.

Lemma elems_paths_good (es : list (option value)) :
  Forall (fun e => forall v, e = Some v ->
                   Forall good_path (elem_paths flat_paths v)) es ->
  forall i, Forall good_path (elems_paths flat_paths i es).
Proof.
  induction 1 as [|[iv|] es He _ IH]; intros i; simpl; auto.
  apply Forall_app. split; auto.
  apply good_path_cons_seg; auto using good_seg_String_of.
Qed.

Lemma wf_below_good (v : value) :
  wf_node v = true -> Forall good_path (below_paths flat_paths v).
Proof.
  induction v as [| | | | | |ps IHps|es ps IHes IHps] using value_ind;
    simpl; try discriminate;
    try solve [intros _; repeat constructor].
  - intros H.
    apply andb_true_iff in H as [H Hw]. apply andb_true_iff in H as [H _].
    apply andb_true_iff in H as [_ Hn].
    apply named_paths_good. apply Forall_forall. intros kv Hin.
    rewrite forallb_forall in Hn, Hw. rewrite Forall_forall in IHps.
    split; [apply is_name_good_seg|]; auto.
  - intros H. apply andb_true_iff in H as [_ Hw].
    apply elems_paths_good. apply Forall_forall. intros e Hin v ->.
    rewrite forallb_forall in Hw. rewrite Forall_forall in IHes.
    specialize (Hw _ Hin). simpl in Hw.
    specialize (IHes _ Hin v eq_refl Hw).
    destruct v; try solve [repeat constructor]. exact IHes.
Qed.

Lemma named_paths_head (ps : props) (e : list string * value) :
  In e (named_paths flat_paths ps) ->
  exists k q, fst e = k :: q /\ In k (map fst ps).
Proof.
  induction ps as [|[k v] ps IH]; simpl; [tauto|].
  intros H. apply in_app_or in H as [H|H].
  - apply in_map_iff in H as (x & <- & _). exists k, (fst x). auto.
  - destruct (IH H) as (k' & q & E & Hin). exists k', q. auto.
Qed.

Lemma elems_paths_head (es : list (option value)) :
  forall i e,
    In e (elems_paths flat_paths i es) ->
    exists j q, fst e = String_of j :: q /\ (i <= j)%N.
Proof.
  induction es as [|[iv|] es IH]; intros i e; simpl; [tauto| |].
  - intros H. apply in_app_or in H as [H|H].
    + apply in_map_iff in H as (x & <- & _). exists i, (fst x). split; auto. lia.
    + destruct (IH _ _ H) as (j & q & E & Hj). exists j, q. split; auto. lia.
  - intros H. destruct (IH _ _ H) as (j & q & E & Hj). exists j, q. split; auto. lia.
Qed.

Lemma NoDup_map_cons_seg (k : string) (l : list (list string * value)) :
  NoDup (map fst l) -> NoDup (map fst (map (cons_seg k) l)).
Proof.
  intros H. rewrite map_map. simpl.
  rewrite <- (map_map fst (cons k)).
  apply NoDup_map_NoDup_ForallPairs; auto.
  intros x y _ _ E. now injection E.
Qed.

Lemma named_paths_NoDup (ps : props) :
  NoDup (map fst ps) ->
  Forall (fun kv => NoDup (map fst (below_paths flat_paths (snd kv)))) ps ->
  NoDup (map fst (named_paths flat_paths ps)).
Proof.
  intros Hnd H. induction H as [|[k v] ps Hv _ IH]; simpl; [constructor|].
  inversion Hnd as [|? ? Hk Hnd']; subst.
  rewrite map_app. apply NoDup_app; auto using NoDup_map_cons_seg.
  intros p H1 H2.
  apply in_map_iff in H1 as (e1 & <- & H1).
  apply in_map_iff in H1 as (x & <- & _).
  apply in_map_iff in H2 as (e2 & E & H2).
  apply named_paths_head in H2 as (k' & q & E' & Hin).
  simpl in E. rewrite E' in E. injection E as -> _. contradiction.
Qed.

Lemma elems_paths_NoDup (es : list (option value)) :
  Forall (fun e => forall v, e = Some v ->
                   NoDup (map fst (elem_paths flat_paths v))) es ->
  forall i, NoDup (map fst (elems_paths flat_paths i es)).
Proof.
  induction 1 as [|[iv|] es He _ IH]; intros i; simpl; auto; [constructor|].
  rewrite map_app. apply NoDup_app; auto using NoDup_map_cons_seg.
  intros p H1 H2.
  apply in_map_iff in H1 as (e1 & <- & H1).
  apply in_map_iff in H1 as (x & <- & _).
  apply in_map_iff in H2 as (e2 & E & H2).
  apply elems_paths_head in H2 as (j & q & E' & Hj).
  simpl in E. rewrite E' in E. injection E as E _.
  apply String_of_inj in E. lia.
Qed.

Lemma wf_below_NoDup (v : value) :
  wf_node v = true -> NoDup (map fst (below_paths flat_paths v)).
Proof.
  induction v as [| | | | | |ps IHps|es ps IHes IHps] using value_ind;
    simpl; try discriminate;
    try (intros _; repeat constructor; simpl; tauto).
  - intros H.
    apply andb_true_iff in H as [H Hw]. apply andb_true_iff in H as [_ Hd].
    apply named_paths_NoDup; [now apply distinct_NoDup|].
    apply Forall_forall. intros kv Hin.
    rewrite forallb_forall in Hw. rewrite Forall_forall in IHps. auto.
  - intros H. apply andb_true_iff in H as [_ Hw].
    apply elems_paths_NoDup. apply Forall_forall. intros e Hin v ->.
    rewrite forallb_forall in Hw. rewrite Forall_forall in IHes.
    specialize (Hw _ Hin). simpl in Hw.
    specialize (IHes _ Hin v eq_refl Hw).
    destruct v; solve [exact IHes | repeat constructor; simpl; tauto].
Qed.

(** Writes to fresh keys that are not integer-like append to the table *)
Lemma fold_set_entry_fresh (l : props) :
  forall out,
    NoDup (map fst (out ++ l)) ->
    Forall (fun e => array_index (fst e) = None) l ->
    fold_left set_entry l out = out ++ l.
Proof.
  induction l as [|[k v] l IH]; intros out Hnd Hai; simpl.
  - now rewrite app_nil_r.
  - inversion Hai as [|? ? Hk Hl]; subst. simpl in Hk.
    assert (Hfresh : assoc k out = None).
    { apply assoc_None_not_In. rewrite map_app in Hnd. simpl in Hnd.
      apply NoDup_remove_2 in Hnd. intros Hin. apply Hnd.
      apply in_or_app. now left. }
    unfold set_entry at 2. simpl. unfold props_set, has_key.
    rewrite Hfresh, Hk.
    rewrite IH; auto; now rewrite <- app_assoc.
Qed.

Lemma wf_root_paths (ps : props) :
  wf_tree (VObj ps) = true ->
  Forall good_path (flat_paths (VObj ps)) /\
  NoDup (map fst (flat_paths (VObj ps))) /\
  Forall (fun e => exists s q, fst e = s :: q /\ isIndex s = false)
    (flat_paths (VObj ps)).
Proof.
  intros H. simpl in H.
  apply andb_true_iff in H as [H Hw]. apply andb_true_iff in H as [Hn Hd].
  rewrite forallb_forall in Hn, Hw. cbn [flat_paths].
  split; [|split].
  - apply named_paths_good. apply Forall_forall. intros kv Hin.
    split; [apply is_name_good_seg | apply wf_below_good]; auto.
  - apply named_paths_NoDup; [now apply distinct_NoDup|].
    apply Forall_forall. intros kv Hin. apply wf_below_NoDup; auto.
  - apply Forall_forall. intros e He.
    apply named_paths_head in He as (k & q & E & Hin).
    exists k, q. split; auto.
    apply in_map_iff in Hin as (kv & <- & Hin).
    now apply Hn, is_name_spec in Hin.
Qed.

(** [unflatten] on the table that [flattenJSON] returns, for paths that
    [split] recovers from their keys *)
Lemma unflatten_keyed (l : list (list string * value)) :
  Forall good_path l ->
  Forall (fun e => fst e <> []) l ->
  forall r,
    fold_left unflatten_step (map (keyed "") l) r = build false l r.
Proof.
  induction l as [|[p v] l IH]; intros Hg Hne r; [reflexivity|].
  inversion Hg as [|? ? Hp Hg']; inversion Hne as [|? ? Hp' Hne']; subst.
  simpl in Hp'. destruct p as [|s q]; [congruence|].
  destruct (split_path_key_root s q Hp) as [Hsplit Hkey].
  change (fold_left unflatten_step (map (keyed "") ((s :: q, v) :: l)) r)
    with (fold_left unflatten_step (map (keyed "") l)
            (unflatten_step r (path_key "" (s :: q), v))).
  rewrite unflatten_step_nonempty by assumption.
  rewrite Hsplit.
  change (build false ((s :: q, v) :: l) r)
    with (build false l (setDeep (s :: q) v r)).
  now apply IH.
Qed.

(** C1, amended.  For every well-formed tree whose root is a mapping,
    unflattening the flat map produced by flattening it gives the tree
    back, with the children of every mapping and of every sequence in their
    order.  Well-formed: the keys of a mapping are distinct names (not
    empty, without a dot, not digit strings, not [__proto__]); below the
    root every mapping and every sequence has at least one child; sequences
    have no holes and no named properties; the leaves are booleans, numbers
    and strings. *)
Theorem unflatten_flatten_roundtrip (T : value) :
  wf_tree T = true -> is_plain_object T = true ->
  unflatten (flatten T) = T.
Proof.
  intros Hw Ho. destruct T as [| | | | | |ps|]; try discriminate.
  destruct (wf_root_paths ps Hw) as (Hgood & Hnd & Hheads).
  unfold flatten, unflatten. cbn [entries].
  assert (Htop : top_keys_nonempty (VObj ps)).
  { simpl in Hw. apply andb_true_iff in Hw as [H _].
    apply andb_true_iff in H as [Hn _]. rewrite forallb_forall in Hn.
    apply Forall_forall. intros kv Hin.
    now apply Hn, is_name_spec in Hin. }
  rewrite flattenJSON_flat_paths by now right.
  assert (Hne : Forall (fun e => fst e <> []) (flat_paths (VObj ps))).
  { eapply Forall_impl; [|exact Hheads].
    intros e (s & q & E & _). rewrite E. discriminate. }
  rewrite fold_set_entry_fresh.
  - rewrite app_nil_l, unflatten_keyed by assumption.
    now apply build_wf_root.
  - rewrite app_nil_l, map_map.
    change (fun x : list string * value => fst (keyed "" x))
      with (fun x : list string * value => path_key "" (fst x)).
    rewrite <- (map_map fst (path_key "")).
    apply NoDup_map_NoDup_ForallPairs; auto.
    intros p1 p2 H1 H2 E.
    apply in_map_iff in H1 as (e1 & <- & H1).
    apply in_map_iff in H2 as (e2 & <- & H2).
    rewrite Forall_forall in Hgood, Hne.
    pose proof (Hgood _ H1) as G1. pose proof (Hgood _ H2) as G2.
    pose proof (Hne _ H1) as N1. pose proof (Hne _ H2) as N2.
    unfold good_path in G1, G2.
    destruct (fst e1) as [|s1 q1]; [congruence|].
    destruct (fst e2) as [|s2 q2]; [congruence|].
    destruct (split_path_key_root s1 q1 G1) as [S1 _].
    destruct (split_path_key_root s2 q2 G2) as [S2 _].
    congruence.
  - apply Forall_forall. intros e He.
    apply in_map_iff in He as (x & <- & Hx).
    rewrite Forall_forall in Hgood, Hheads.
    destruct (Hheads _ Hx) as (s & q & E & Hs).
    pose proof (Hgood _ Hx) as G. unfold good_path in G.
    unfold keyed. cbn [fst]. rewrite E in *.
    now apply array_index_path_key.
Qed.

Lemma unflatten_flatten_roundtrip_witness :
  let T := VObj [("a", VObj [("b", VNum 1);
                             ("c", VArr [Some (VNum 1); Some (VNum 2)] [])]);
                 ("list", VArr [Some (VObj [("name", VStr "a")]);
                                Some (VObj [("name", VStr "b")])] [])] in
  unflatten (flatten T) = T.
Proof.
  intros T. apply (unflatten_flatten_roundtrip T); reflexivity.
Defined.

(** C1, as stated, fails: a well-formed tree whose root is a sequence does
    not come back; [unflatten] returns a mapping with the key ["0"]. *)
Lemma roundtrip_root_sequence_fails :
  let T := VArr [Some (VStr "x")] [] in
  wf_tree T = true /\
  unflatten (flatten T) = VObj [("0", VStr "x")] /\
  unflatten (flatten T) <> T.
Proof. repeat split. discriminate. Qed.


(** ** The table returned by [flattenJSON], read by key *)

Lemma assoc_fold_set_entry (k : string) (v : value) (l : props) :
  forall out,
    (forall v', In (k, v') l -> v' = v) ->
    In (k, v) l \/ assoc k out = Some v ->
    assoc k (fold_left set_entry l out) = Some v.
Proof.
  induction l as [|[k0 v0] l IH]; intros out Hu H; simpl.
  - destruct H as [[]|H]; assumption.
  - apply IH.
    + intros v' Hin. apply Hu. now right.
    + unfold set_entry. simpl.
      destruct (String.eqb_spec k0 k) as [-> |Hne].
      * right. rewrite assoc_props_set_same. f_equal. apply Hu. now left.
      * destruct H as [[H|H]|H].
        -- injection H as -> _. congruence.
        -- now left.
        -- right. rewrite assoc_props_set_other; auto.
Qed.

Lemma assoc_fold_set_entry_absent (k : string) (l : props) :
  forall out,
    ~ In k (map fst l) ->
    assoc k (fold_left set_entry l out) = assoc k out.
Proof.
  induction l as [|[k0 v0] l IH]; intros out H; simpl; auto.
  simpl in H. rewrite IH by tauto.
  unfold set_entry. simpl. apply assoc_props_set_other. intros ->. tauto.
Qed.

Lemma string_app_assoc (a b c : string) :
  ((a ++ b) ++ c)%string = (a ++ b ++ c)%string.
Proof. induction a; simpl; auto. now rewrite IHa. Qed.

Lemma path_key_concat (q : list string) :
  forall pk, pk <> "" -> path_key pk q = String.concat "." (pk :: q).
Proof.
  induction q as [|s q IH]; intros pk H; [reflexivity|].
  change (path_key pk (s :: q)) with (path_key (join_key pk s) q).
  rewrite IH by (apply join_key_nonempty; now left).
  rewrite join_key_nonempty_l by assumption.
  cbn [String.concat]. destruct q as [|s' q].
  - reflexivity.
  - now rewrite !string_app_assoc.
Qed.

Lemma path_key_root_concat (s : string) (q : list string) :
  s <> "" -> path_key "" (s :: q) = String.concat "." (s :: q).
Proof.
  intros H. change (path_key "" (s :: q)) with (path_key s q).
  now apply path_key_concat.
Qed.












(** ** The paths of a container, slot by slot *)

Lemma In_named_paths (ps : props) (e : list string * value) :
  In e (named_paths flat_paths ps) <->
  exists k x e',
    In (k, x) ps /\ In e' (below_paths flat_paths x) /\ e = cons_seg k e'.
Proof.
  induction ps as [|[k v] ps IH]; simpl.
  - split; [tauto | intros (k & x & e' & [] & _)].
  - rewrite in_app_iff, IH, in_map_iff. split.
    + intros [(e' & <- & He')|(k' & x & e' & Hin & He' & ->)].
      * exists k, v, e'. auto.
      * exists k', x, e'. auto.
    + intros (k' & x & e' & [H|H] & He' & ->).
      * injection H as -> ->. left. exists e'. auto.
      * right. exists k', x, e'. auto.
Qed.

Lemma In_elems_paths (es : list (option value)) :
  forall i e,
    In e (elems_paths flat_paths i es) <->
    exists j x e',
      nth_error es j = Some (Some x) /\
      In e' (elem_paths flat_paths x) /\
      e = cons_seg (String_of (i + N.of_nat j)) e'.
Proof.
  induction es as [|[v|] es IH]; intros i e; simpl.
  - split; [tauto | intros (j & x & e' & H & _); destruct j; discriminate].
  - rewrite in_app_iff, IH, in_map_iff. split.
    + intros [(e' & <- & He')|(j & x & e' & Hn & He' & ->)].
      * exists O, v, e'. simpl. rewrite N.add_0_r. auto.
      * exists (S j), x, e'. simpl. repeat split; auto. f_equal. f_equal. lia.
    + intros (j & x & e' & Hn & He' & ->). destruct j as [|j]; simpl in Hn.
      * injection Hn as ->. left. exists e'. rewrite N.add_0_r. auto.
      * right. exists j, x, e'. repeat split; auto. f_equal. f_equal. lia.
  - rewrite IH. split.
    + intros (j & x & e' & Hn & He' & ->).
      exists (S j), x, e'. simpl. repeat split; auto. f_equal. f_equal. lia.
    + intros (j & x & e' & Hn & He' & ->). destruct j as [|j]; simpl in Hn.
      * discriminate.
      * exists j, x, e'. repeat split; auto. f_equal. f_equal. lia.
Qed.


Lemma elem_paths_not_array (x : value) :
  isArray x = false -> elem_paths flat_paths x = below_paths flat_paths x.
Proof. destruct x; try reflexivity; discriminate. Qed.

Lemma paths_by_slot (cur : value) (e : list string * value) :
  regular cur ->
  (In e (below_paths flat_paths cur) <->
   exists k x e',
     get_prop k cur = Some x /\
     In e' (below_paths flat_paths x) /\
     e = cons_seg k e').
Proof.
  destruct cur as [| | | | | |ps|es ps]; simpl; try tauto.
  - intros Hnd. rewrite In_named_paths. split.
    + intros (k & x & e' & Hin & He' & ->). exists k, x, e'.
      split; auto. now apply In_assoc_NoDup.
    + intros (k & x & e' & Ha & He' & ->). exists k, x, e'.
      split; auto. now apply assoc_Some_In.
  - intros (-> & Hlen & Hna). rewrite In_elems_paths. split.
    + intros (j & x & e' & Hn & He' & ->).
      assert (Hj : (N.of_nat j < max_array_index)%N).
      { assert (j < List.length es)%nat by (apply nth_error_Some; congruence). lia. }
      exists (String_of (N.of_nat j)), x, e'.
      rewrite array_index_String_of by assumption.
      rewrite Nnat.Nat2N.id, Hn. repeat split; auto.
      rewrite Forall_forall in Hna.
      rewrite <- elem_paths_not_array; auto.
      apply (Hna (Some x)); auto. eapply nth_error_In; eauto.
    + intros (k & x & e' & Hg & He' & ->).
      destruct (array_index k) as [n|] eqn:E; [|discriminate].
      destruct (nth_error es (N.to_nat n)) as [[w|]|] eqn:Hn; try discriminate.
      injection Hg as ->.
      apply array_index_Some in E as (_ & -> & _).
      exists (N.to_nat n), x, e'. rewrite Nnat.N2Nat.id. repeat split; auto.
      rewrite Forall_forall in Hna.
      rewrite elem_paths_not_array; auto.
      apply (Hna (Some x)); auto. eapply nth_error_In; eauto.
Qed.

(** Writing a slot replaces the paths through that slot and keeps the
    others. *)
Lemma paths_set_prop (k : string) (x cur : value) (e : list string * value) :
  regular cur -> regular (set_prop k x cur) ->
  (In e (below_paths flat_paths (set_prop k x cur)) <->
   (exists e', In e' (below_paths flat_paths x) /\ e = cons_seg k e') \/
   (In e (below_paths flat_paths cur) /\ forall q, fst e <> k :: q)).
Proof.
  intros Hr Hr'.
  assert (Hc : is_container cur = true) by (destruct cur; simpl in Hr; tauto).
  rewrite (paths_by_slot _ e Hr'), (paths_by_slot _ e Hr). split.
  - intros (k' & x' & e' & Hg & He' & ->).
    destruct (String.eqb_spec k' k) as [-> |Hne].
    + rewrite get_set_same in Hg by assumption. injection Hg as <-.
      left. exists e'. auto.
    + rewrite get_set_other in Hg by assumption.
      right. split; [exists k', x', e'; auto|].
      intros q [= E _]. contradiction.
  - intros [(e' & He' & ->)|[(k' & x' & e' & Hg & He' & ->) Hne]].
    + exists k, x, e'. rewrite get_set_same by assumption. auto.
    + exists k', x', e'. rewrite get_set_other; auto.
      intros ->. now apply (Hne (fst e')).
Qed.

(** ** Tidy trees *)

Lemma tidy_node_cases (x : value) :
  tidy_node x = true ->
  (is_scalar x = true /\ is_container x = false) \/
  (is_container x = true /\ tidy_cur true x = true).
Proof.
  destruct x; simpl; try discriminate; auto; intros H; right; split; auto.
  - apply andb_true_iff in H as [H H4]. apply andb_true_iff in H as [H H3].
    apply andb_true_iff in H as [H1 H2]. now rewrite H2, H3, H4.
  - apply andb_true_iff in H as [H H4]. apply andb_true_iff in H as [H H3].
    apply andb_true_iff in H as [H1 H2]. now rewrite H1, H3, H4.
Qed.

Lemma tidy_cur_container (hp : bool) (cur : value) :
  tidy_cur hp cur = true -> is_container cur = true.
Proof. destruct cur; simpl; auto; discriminate. Qed.

Lemma tidy_cur_regular (hp : bool) (cur : value) :
  tidy_cur hp cur = true -> regular cur.
Proof.
  destruct cur; simpl; try discriminate; intros H.
  - apply andb_true_iff in H as [H _]. apply andb_true_iff in H as [_ H].
    now apply distinct_NoDup.
  - apply andb_true_iff in H as [H H4]. apply andb_true_iff in H as [H H3].
    apply andb_true_iff in H as [_ H2].
    split; [destruct props0; [reflexivity | discriminate]|].
    split; [now apply N.leb_le|].
    rewrite forallb_forall in H4. apply Forall_forall. intros e Hin x ->.
    specialize (H4 _ Hin). simpl in H4.
    apply andb_true_iff in H4 as [H4 _]. now apply negb_true_iff.
Qed.

Lemma tidy_cur_slot (hp : bool) (cur : value) (k : string) (x : value) :
  tidy_cur hp cur = true -> get_prop k cur = Some x -> tidy_node x = true.
Proof.
  destruct cur; simpl; try discriminate; intros H Hg.
  - apply andb_true_iff in H as [_ H]. rewrite forallb_forall in H.
    apply (H (k, x)). now apply assoc_Some_In.
  - apply andb_true_iff in H as [H H4]. apply andb_true_iff in H as [H _].
    apply andb_true_iff in H as [_ H2]. destruct props0; [|discriminate].
    destruct (array_index k) as [n|]; [|discriminate].
    destruct (nth_error elems (N.to_nat n)) as [[w|]|] eqn:Hn; try discriminate.
    injection Hg as ->. rewrite forallb_forall in H4.
    specialize (H4 (Some x) (nth_error_In _ _ Hn)). simpl in H4.
    now apply andb_true_iff in H4 as [_ H4].
Qed.

(** The key of a slot of an inner container is of the kind of the
    container. *)
Lemma tidy_cur_slot_kind (cur : value) (k : string) (x : value) :
  tidy_cur true cur = true -> get_prop k cur = Some x ->
  isIndex k = isArray cur.
Proof.
  destruct cur; simpl; try discriminate; intros H Hg.
  - apply andb_true_iff in H as [H _]. apply andb_true_iff in H as [H _].
    rewrite forallb_forall in H.
    specialize (H (k, x) (assoc_Some_In _ _ _ Hg)). simpl in H.
    now apply negb_true_iff.
  - apply andb_true_iff in H as [H _]. apply andb_true_iff in H as [H2 _].
    destruct props0; [|discriminate].
    destruct (array_index k) as [n|] eqn:E; [|discriminate].
    now apply array_index_Some in E as (E & _).
Qed.

(** A tidy node has a path below it. *)
Lemma tidy_node_has_path (x : value) :
  tidy_node x = true -> exists e, In e (below_paths flat_paths x).
Proof.
  induction x as [| | | | | |ps IHps|es ps IHes IHps] using value_ind;
    simpl; try discriminate;
    try (intros _; eexists; left; reflexivity).
  - intros H.
    apply andb_true_iff in H as [H H4]. apply andb_true_iff in H as [H _].
    apply andb_true_iff in H as [H1 _].
    destruct ps as [|[k v] ps]; [discriminate|].
    inversion IHps as [|? ? IHv _]; subst. simpl in H4, IHv.
    apply andb_true_iff in H4 as [Hv _].
    destruct (IHv Hv) as [e He]. exists (cons_seg k e).
    cbn [named_paths]. apply in_or_app. left. now apply in_map.
  - intros H.
    apply andb_true_iff in H as [H H4]. apply andb_true_iff in H as [H _].
    apply andb_true_iff in H as [_ H2].
    unfold has_slot in H2. apply existsb_exists in H2 as ([x|] & Hin & Hx);
      [|discriminate].
    rewrite forallb_forall in H4. rewrite Forall_forall in IHes.
    specialize (H4 _ Hin). simpl in H4. apply andb_true_iff in H4 as [Ha Ht].
    apply negb_true_iff in Ha.
    destruct (IHes _ Hin x eq_refl Ht) as [e He].
    apply In_nth_error in Hin as [j Hj].
    exists (cons_seg (String_of (0 + N.of_nat j)) e).
    apply In_elems_paths. exists j, x, e.
    rewrite elem_paths_not_array by assumption. auto.
Qed.

(** A container that [setDeep] has written to is a tidy node. *)
Lemma tidy_cur_node (cur : value) (k : string) (x : value) :
  tidy_cur true cur = true -> get_prop k cur = Some x -> tidy_node cur = true.
Proof.
  destruct cur; simpl; try discriminate; intros H Hg.
  - apply andb_true_iff in H as [H H3]. apply andb_true_iff in H as [H1 H2].
    rewrite H1, H2, H3. destruct props0; [discriminate | reflexivity].
  - apply andb_true_iff in H as [H H4]. apply andb_true_iff in H as [H H3].
    rewrite H, H3, H4. destruct props0; [|discriminate].
    destruct (array_index k) as [n|]; [|discriminate].
    destruct (nth_error elems (N.to_nat n)) as [[w|]|] eqn:Hn; try discriminate.
    assert (Hs : has_slot elems = true).
    { apply existsb_exists. exists (Some w). split; [|reflexivity].
      eapply nth_error_In; eauto. }
    now rewrite Hs.
Qed.

(** *** Writes keep tables and slots in shape *)

Lemma In_replace (k : string) (x : value) (ps : props) (e : string * value) :
  In e (replace k x ps) -> e = (k, x) \/ In e ps.
Proof.
  induction ps as [|[k' v'] ps IH]; simpl; auto.
  destruct (String.eqb_spec k' k) as [-> |Hne]; simpl.
  - intros [<-|H]; auto.
  - intros [<-|H]; auto. destruct (IH H); auto.
Qed.

Lemma In_insert_index (n : N) (k : string) (x : value) (ps : props)
    (e : string * value) :
  In e (insert_index n k x ps) -> e = (k, x) \/ In e ps.
Proof.
  induction ps as [|[k' v'] ps IH]; simpl.
  - intros [<-|[]]; auto.
  - destruct (array_index k') as [m|].
    + destruct (m <? n)%N; simpl.
      * intros [<-|H]; auto. destruct (IH H); auto.
      * intros [<-|H]; auto.
    + simpl. intros [<-|H]; auto.
Qed.

Lemma In_props_set (k : string) (x : value) (ps : props) (e : string * value) :
  In e (props_set k x ps) -> e = (k, x) \/ In e ps.
Proof.
  unfold props_set. destruct (has_key k ps).
  - apply In_replace.
  - destruct (array_index k).
    + apply In_insert_index.
    + intros H. apply in_app_or in H as [H|[<-|[]]]; auto.
Qed.

Lemma NoDup_keys_props_set (k : string) (x : value) (ps : props) :
  NoDup (map fst ps) -> NoDup (map fst (props_set k x ps)).
Proof.
  intros Hnd. unfold props_set, has_key. destruct (assoc k ps) eqn:A.
  - assert (E : map fst (replace k x ps) = map fst ps).
    { clear. induction ps as [|[k' v'] ps IH]; simpl; auto.
      destruct (k' =? k); simpl; congruence. }
    now rewrite E.
  - apply assoc_None_not_In in A. destruct (array_index k) as [n|].
    + clear -Hnd A. induction ps as [|[k' v'] ps IH]; simpl.
      * repeat constructor. simpl. tauto.
      * simpl in A, Hnd. inversion Hnd as [|? ? Hk Hnd']; subst.
        assert (Hcons : NoDup (k :: k' :: map fst ps)).
        { constructor; [simpl; tauto | assumption]. }
        destruct (array_index k') as [m|]; [destruct (m <? n)%N|]; simpl; auto.
        constructor.
        -- intros Hin. apply in_map_iff in Hin as (e & E & He).
           apply In_insert_index in He as [-> |He].
           ++ simpl in E. subst. tauto.
           ++ apply Hk. rewrite <- E. now apply in_map.
        -- apply IH; auto.
    + rewrite map_app. simpl. apply NoDup_app; auto.
      * repeat constructor. simpl. tauto.
      * intros a Ha [<-|[]]. contradiction.
Qed.

Lemma In_elems_set (n : nat) (x : value) (es : list (option value))
    (e : option value) :
  In e (elems_set n x es) -> e = Some x \/ e = None \/ In e es.
Proof.
  revert es. induction n as [|n IH]; intros [|e0 es]; simpl.
  - intros [<-|[]]; auto.
  - intros [<-|H]; auto.
  - intros [<-|H]; auto. destruct (IH _ H) as [H'|[H'|[]]]; auto.
  - intros [<-|H]; auto. destruct (IH _ H) as [H'|[H'|H']]; auto.
Qed.

Lemma tidy_cur_set_prop (hp : bool) (cur : value) (k : string) (x : value) :
  tidy_cur hp cur = true ->
  tidy_node x = true ->
  (if hp then isIndex k = isArray cur else k <> "") ->
  (isArray cur = true ->
   isArray x = false /\ exists n, array_index k = Some n) ->
  tidy_cur hp (set_prop k x cur) = true.
Proof.
  destruct cur as [| | | | | |ps|es ps]; simpl; try discriminate;
    intros H Hx Hk Ha.
  - apply andb_true_iff in H as [H H3]. apply andb_true_iff in H as [H1 H2].
    rewrite forallb_forall in H1, H3.
    apply andb_true_iff. split; [apply andb_true_iff; split|].
    + apply forallb_forall. intros e He.
      apply In_props_set in He as [-> |He]; auto. simpl.
      destruct hp.
      * now rewrite Hk.
      * now apply negb_true_iff, String.eqb_neq.
    + apply NoDup_distinct, NoDup_keys_props_set. now apply distinct_NoDup.
    + apply forallb_forall. intros e He.
      apply In_props_set in He as [-> |He]; auto.
  - apply andb_true_iff in H as [H H4]. apply andb_true_iff in H as [H H3].
    apply andb_true_iff in H as [H1 H2].
    destruct (Ha eq_refl) as (Hna & n & Hn). rewrite Hn. simpl.
    rewrite H1, H2. simpl.
    apply andb_true_iff. split.
    + apply N.leb_le. apply N.leb_le in H3. rewrite elems_set_length.
      apply array_index_Some in Hn as (_ & _ & Hn). lia.
    + rewrite forallb_forall in H4. apply forallb_forall. intros e He.
      apply In_elems_set in He as [-> |[-> |He]]; auto.
      now rewrite Hna, Hx.
Qed.

Lemma setDeep_from_isArray (hp : bool) (p : string) (q : list string)
    (v cur : value) :
  isArray (setDeep_from hp (p :: q) v cur) = isArray (enter hp p cur).
Proof.
  destruct q.
  - rewrite setDeep_from_last. apply set_prop_isArray.
  - rewrite setDeep_from_inner. apply set_prop_isArray.
Qed.

Lemma seg_key_ok (p : string) : seg_ok p = true -> seg_key p = p.
Proof.
  unfold seg_ok, seg_key, index_key. destruct (isIndex p); auto.
  destruct (array_index p) as [n|] eqn:E; [|discriminate]. intros _.
  apply array_index_Some in E as (_ & E & _).
  now rewrite E, Number_String_of.
Qed.

Lemma enter_kind (hp : bool) (p : string) (cur : value) :
  (hp = true -> isIndex p = isArray cur) -> enter hp p cur = cur.
Proof.
  unfold enter, ensure_array. intros H.
  destruct (isIndex p) eqn:E; auto.
  destruct hp; [|now destruct (isArray cur)].
  now rewrite <- (H eq_refl).
Qed.

(** ** One entry more in a tidy tree *)

Lemma compat_at_peel (hp : bool) (k : string) (b q : list string) :
  compat_at hp (k :: b) (k :: q) = true -> compat_at true b q = true.
Proof.
  unfold compat_at. simpl. rewrite String.eqb_refl. simpl.
  now destruct hp.
Qed.

Lemma compat_at_not_prefix (hp : bool) (b q : list string) :
  compat_at hp b q = true -> is_prefix b q = false /\ is_prefix q b = false.
Proof.
  unfold compat_at. intros H.
  apply andb_true_iff in H as [H _]. apply andb_true_iff in H as [H1 H2].
  now apply negb_true_iff in H1, H2.
Qed.

Lemma compat_at_head_kind (b q : list string) (s1 s2 : string) :
  compat_at true (s1 :: b) (s2 :: q) = true -> isIndex s1 = isIndex s2.
Proof.
  unfold compat_at. intros H. apply andb_true_iff in H as [H K].
  apply andb_true_iff in H as [H1 H2]. simpl in *.
  destruct (String.eqb_spec s1 s2) as [-> |Hne]; auto.
  now apply Bool.eqb_prop.
Qed.

Lemma seg_ok_nonempty (p : string) : seg_ok p = true -> p <> "".
Proof.
  unfold seg_ok. destruct p; [discriminate|]. intros _. discriminate.
Qed.

Lemma below_paths_scalar (v : value) :
  is_scalar v = true -> below_paths flat_paths v = [([], v)].
Proof. destruct v; try discriminate; reflexivity. Qed.

Lemma is_scalar_tidy (v : value) :
  is_scalar v = true -> tidy_node v = true /\ isArray v = false.
Proof. destruct v; try discriminate; auto. Qed.

Lemma tidy_cur_array_inner (hp : bool) (cur : value) :
  tidy_cur hp cur = true -> isArray cur = true -> hp = true.
Proof.
  destruct cur; simpl; try discriminate. destruct hp; auto.
Qed.

Lemma setDeep_from_tidy (q : list string) :
  forall (hp : bool) (v cur : value),
    q <> [] ->
    forallb seg_ok q = true ->
    no_index_pair (if hp then q else tl q) = true ->
    is_scalar v = true ->
    tidy_cur hp cur = true ->
    (hp = true -> isIndex (hd "" q) = isArray cur) ->
    (forall e, In e (below_paths flat_paths cur) ->
               compat_at hp (fst e) q = true) ->
    tidy_cur hp (setDeep_from hp q v cur) = true /\
    (forall e, In e (below_paths flat_paths (setDeep_from hp q v cur)) <->
               e = (q, v) \/ In e (below_paths flat_paths cur)).
Proof.
  induction q as [|p rest IH]; intros hp v cur Hne Hsegs Hnip Hv Ht Hkind Hcompat;
    [congruence|].
  simpl in Hsegs. apply andb_true_iff in Hsegs as [Hp Hrest].
  simpl in Hkind.
  pose proof (enter_kind hp p cur Hkind) as Henter.
  pose proof (seg_key_ok p Hp) as Hkey.
  pose proof (tidy_cur_regular hp cur Ht) as Hreg.
  pose proof (tidy_cur_container hp cur Ht) as Hcont.
  assert (Hk : if hp then isIndex p = isArray cur else p <> "").
  { destruct hp; [now apply Hkind | now apply seg_ok_nonempty]. }
  assert (Harr : isArray cur = true -> exists n, array_index p = Some n).
  { intros Ha. pose proof (tidy_cur_array_inner hp cur Ht Ha) as ->.
    rewrite <- Hkind in Ha by reflexivity.
    unfold seg_ok in Hp. rewrite Ha in Hp.
    destruct (array_index p) as [n|]; [now exists n | discriminate]. }
  (* the paths of [cur] through the slot of [p], and the others *)
  assert (Hslot : forall x e',
             get_prop p cur = Some x -> In e' (below_paths flat_paths x) ->
             In (cons_seg p e') (below_paths flat_paths cur)).
  { intros x e' Hg He'. apply paths_by_slot; auto. exists p, x, e'. auto. }
  destruct rest as [|next rest].
  - (* last segment *)
    rewrite setDeep_from_last, Henter, Hkey.
    destruct (is_scalar_tidy v Hv) as [Hvt Hva].
    assert (Habsent : get_prop p cur = None).
    { destruct (get_prop p cur) as [x|] eqn:G; auto. exfalso.
      pose proof (tidy_cur_slot hp cur p x Ht G) as Hx.
      destruct (tidy_node_has_path x Hx) as [e' He'].
      pose proof (Hcompat _ (Hslot x e' eq_refl He')) as Hc.
      apply compat_at_not_prefix in Hc as [_ Hc].
      simpl in Hc. now rewrite String.eqb_refl in Hc. }
    assert (Ht' : tidy_cur hp (set_prop p v cur) = true).
    { apply tidy_cur_set_prop; auto; intros Ha; split; auto. }
    split; [assumption|].
    intros e. rewrite paths_set_prop by eauto using tidy_cur_regular.
    rewrite below_paths_scalar by assumption. split.
    + intros [(e' & [<-|[]] & ->)|[H _]]; auto.
    + intros [-> |H].
      * left. exists ([], v). simpl. auto.
      * right. split; auto. intros t E.
        apply (paths_by_slot _ _ Hreg) in H as (k & x & e' & G & He' & ->).
        simpl in E. injection E as -> _. congruence.
  - (* inner segment *)
    rewrite setDeep_from_inner, Henter, Hkey.
    set (child := child_or_fresh (get_prop p cur) (isIndex next)).
    assert (Hchild :
              tidy_cur true child = true /\
              isIndex next = isArray child /\
              (forall e', In e' (below_paths flat_paths child) ->
                          In (cons_seg p e') (below_paths flat_paths cur)) /\
              (forall e, In e (below_paths flat_paths cur) ->
                         (exists e', In e' (below_paths flat_paths child) /\
                                     e = cons_seg p e') \/
                         (forall t, fst e <> p :: t))).
    { unfold child. destruct (get_prop p cur) as [x|] eqn:G.
      - pose proof (tidy_cur_slot hp cur p x Ht G) as Hx.
        destruct (tidy_node_has_path x Hx) as [e0 He0].
        destruct (tidy_node_cases x Hx) as [[Hs Hc]|[Hc Htx]].
        + exfalso.
          pose proof (Hcompat _ (Hslot x e0 eq_refl He0)) as Hcm.
          rewrite below_paths_scalar in He0 by assumption.
          destruct He0 as [<-|[]].
          apply compat_at_not_prefix in Hcm as [Hcm _].
          simpl in Hcm. now rewrite String.eqb_refl in Hcm.
        + rewrite child_or_fresh_Some by assumption.
          split; [assumption|]. split; [|split].
          * (* the kind of [x] is the kind of the heads of its paths *)
            pose proof (Hcompat _ (Hslot x e0 eq_refl He0)) as Hcm.
            apply compat_at_peel in Hcm.
            apply (paths_by_slot _ _ (tidy_cur_regular _ _ Htx)) in He0
              as (k & y & e1 & Gk & _ & ->).
            simpl in Hcm. apply compat_at_head_kind in Hcm.
            rewrite <- Hcm. now apply (tidy_cur_slot_kind x k y).
          * intros e' He'. now apply (Hslot x).
          * intros e He.
            apply (paths_by_slot _ _ Hreg) in He as (k & y & e' & Gk & He' & ->).
            destruct (String.eqb_spec k p) as [-> |Hkp].
            -- left. exists e'. split; auto. congruence.
            -- right. intros t [= E _]. contradiction.
      - unfold child_or_fresh. simpl.
        destruct (isIndex next); (split; [reflexivity|]); (split; [reflexivity|]);
          (split; [intros e' []|]);
          intros e He; right; intros t E;
          apply (paths_by_slot _ _ Hreg) in He as (k & y & e' & Gk & He' & ->);
          simpl in E; injection E as -> _; congruence. }
    destruct Hchild as (Htc & Hkc & Hup & Hdown).
    assert (Hnip' : no_index_pair (next :: rest) = true).
    { destruct hp; simpl in Hnip; auto.
      now apply andb_true_iff in Hnip as [_ Hnip]. }
    destruct (IH true v child) as [Ht1 Hp1]; auto; try discriminate.
    { intros e' He'. apply (compat_at_peel hp p). apply (Hcompat _ (Hup _ He')). }
    set (child' := setDeep_from true (next :: rest) v child) in *.
    assert (Hn1 : tidy_node child' = true).
    { assert (Hin : In (next :: rest, v) (below_paths flat_paths child'))
        by (apply Hp1; auto).
      apply (paths_by_slot _ _ (tidy_cur_regular _ _ Ht1)) in Hin
        as (k & y & _ & Gk & _).
      now apply (tidy_cur_node child' k y). }
    assert (Ha1 : isArray child' = isIndex next).
    { unfold child'. rewrite setDeep_from_isArray, enter_kind; auto. }
    assert (Ht' : tidy_cur hp (set_prop p child' cur) = true).
    { apply tidy_cur_set_prop; auto.
      intros Ha. split; auto.
      pose proof (tidy_cur_array_inner hp cur Ht Ha) as ->.
      rewrite Ha1. simpl in Hnip.
      apply andb_true_iff in Hnip as [Hnip _].
      rewrite Hk, Ha in Hnip. simpl in Hnip. now apply negb_true_iff. }
    split; [assumption|].
    intros e. rewrite paths_set_prop by eauto using tidy_cur_regular. split.
    + intros [(e' & He' & ->)|[H _]]; auto.
      apply Hp1 in He' as [-> |He']; auto.
    + intros [-> |H].
      * left. exists (next :: rest, v). split; [apply Hp1; auto | reflexivity].
      * destruct (Hdown _ H) as [(e' & He' & ->)|Hno].
        -- left. exists e'. split; auto. apply Hp1. auto.
        -- right. auto.
Qed.

(** ** The flat map that comes back *)

Lemma concat_cons2 (a b : string) (l : list string) :
  String.concat "." (a :: b :: l) = (a ++ "." ++ String.concat "." (b :: l))%string.
Proof. reflexivity. Qed.

Lemma concat_split (k : string) : String.concat "." (split k) = k.
Proof.
  induction k as [|c k IH]; [reflexivity|].
  cbn [split]. pose proof (split_nonempty k) as Hne.
  destruct (Ascii.eqb_spec c ".") as [-> |Hc].
  - destruct (split k) as [|h t]; [congruence|].
    rewrite concat_cons2, IH. reflexivity.
  - destruct (split k) as [|seg segs]; [congruence|].
    destruct segs as [|s2 segs].
    + simpl in *. now rewrite IH.
    + rewrite concat_cons2 in *.
      change (String c seg ++ "." ++ String.concat "." (s2 :: segs))%string
        with (String c (seg ++ "." ++ String.concat "." (s2 :: segs))%string).
      now rewrite IH.
Qed.

Lemma path_key_split (k : string) :
  forallb seg_ok (split k) = true -> path_key "" (split k) = k.
Proof.
  intros H. pose proof (concat_split k) as E.
  pose proof (split_nonempty k) as Hne.
  destruct (split k) as [|s q]; [congruence|].
  simpl in H. apply andb_true_iff in H as [Hs _].
  rewrite path_key_root_concat; auto. now apply seg_ok_nonempty.
Qed.


Lemma entry_ok_spec (k : string) (v : value) :
  entry_ok (k, v) = true ->
  forallb seg_ok (split k) = true /\
  no_index_pair (tl (split k)) = true /\
  is_scalar v = true /\ k <> "".
Proof.
  unfold entry_ok. simpl. intros H.
  apply andb_true_iff in H as [H H3]. apply andb_true_iff in H as [H1 H2].
  repeat split; auto. intros ->. discriminate.
Qed.

Lemma fold_unflatten_tidy (todo : props) :
  forall (r : value) (S : list (list string * value)),
    tidy_cur false r = true ->
    (forall e, In e (below_paths flat_paths r) <-> In e S) ->
    forallb entry_ok todo = true ->
    (forall kv e, In kv todo -> In e S ->
                  compatible (fst e) (split (fst kv)) = true) ->
    pairwise compatible (map (fun e => split (fst e)) todo) = true ->
    tidy_cur false (fold_left unflatten_step todo r) = true /\
    (forall e, In e (below_paths flat_paths (fold_left unflatten_step todo r)) <->
               In e S \/ In e (map pathed todo)).
Proof.
  induction todo as [|[k v] todo IH]; intros r S Ht HS Hok Hcs Hpw.
  - simpl. split; auto. intros e. rewrite HS. tauto.
  - simpl in Hok. apply andb_true_iff in Hok as [Hkv Hok].
    apply entry_ok_spec in Hkv as (Hsegs & Hnip & Hv & Hk).
    simpl in Hpw. apply andb_true_iff in Hpw as [Hhead Hpw].
    cbn [fold_left]. rewrite unflatten_step_nonempty by assumption.
    destruct (setDeep_from_tidy (split k) false v r) as [Ht1 Hp1]; auto.
    { apply split_nonempty. }
    { discriminate. }
    { intros e He. apply (Hcs (k, v) e); [now left | now apply HS]. }
    fold (setDeep (split k) v r) in Ht1, Hp1.
    destruct (IH (setDeep (split k) v r) ((split k, v) :: S)) as [Ht2 Hp2]; auto.
    + intros e. rewrite Hp1, HS. simpl. intuition congruence.
    + intros kv e Hin [<-|He].
      * simpl. rewrite forallb_forall in Hhead. apply Hhead.
        now apply (in_map (fun e => split (fst e))).
      * apply Hcs; auto. now right.
    + split; auto. intros e. rewrite Hp2. simpl. unfold pathed at 1. simpl.
      intuition congruence.
Qed.

(** C3, amended.  For every well-formed flat map [M], flattening the tree
    that [unflatten] builds from [M] gives a flat map with the keys of [M]
    and the value of [M] at every key.  Well-formed: distinct keys; scalar
    values; every segment a non-empty name other than [__proto__] or an
    index in canonical decimal form below 2^32 - 1; no key a prefix of
    another; no node below the root used both as a mapping and as a
    sequence; below the first segment, no index directly after an index. *)
Theorem flatten_unflatten_roundtrip (M : props) (k : string) :
  wf_flatmap M = true ->
  get_prop k (flatten (unflatten (VObj M))) = get_prop k (VObj M).
Proof.
  intros Hw. unfold wf_flatmap in Hw.
  apply andb_true_iff in Hw as [Hw Hpw]. apply andb_true_iff in Hw as [Hok Hd].
  apply distinct_NoDup in Hd.
  destruct (fold_unflatten_tidy M (VObj []) []) as [Ht Hp]; auto;
    try solve [intros e; simpl; tauto]; try solve [intros kv e _ []].
  unfold unflatten. cbn [entries].
  destruct (fold_left unflatten_step M (VObj [])) as [| | | | | |ps|];
    try discriminate.
  assert (Hpaths : forall e, In e (flat_paths (VObj ps)) <-> In e (map pathed M)).
  { intros e. change (flat_paths (VObj ps)) with (below_paths flat_paths (VObj ps)).
    rewrite Hp. simpl. tauto. }
  assert (Htop : top_keys_nonempty (VObj ps)).
  { simpl in Ht. apply andb_true_iff in Ht as [Ht _].
    apply andb_true_iff in Ht as [Ht _]. rewrite forallb_forall in Ht.
    apply Forall_forall. intros kv Hin.
    now apply Ht, negb_true_iff, String.eqb_neq in Hin. }
  unfold flatten. cbn [get_prop].
  rewrite flattenJSON_flat_paths by now right.
  assert (Hkeyed : forall k' v',
             In (k', v') (map (keyed "") (flat_paths (VObj ps))) <-> In (k', v') M).
  { intros k' v'. rewrite in_map_iff. split.
    - intros (e & Ee & He). apply Hpaths in He.
      apply in_map_iff in He as ([k0 v0] & <- & Hin).
      unfold keyed, pathed in Ee. simpl in Ee.
      rewrite forallb_forall in Hok.
      destruct (entry_ok_spec k0 v0 (Hok _ Hin)) as (Hs & _).
      rewrite path_key_split in Ee by assumption. now injection Ee as <- <-.
    - intros Hin. exists (pathed (k', v')). split.
      + unfold keyed, pathed. simpl.
        rewrite forallb_forall in Hok.
        destruct (entry_ok_spec k' v' (Hok _ Hin)) as (Hs & _).
        now rewrite path_key_split.
      + apply Hpaths. now apply in_map. }
  destruct (assoc k M) as [v|] eqn:A.
  - apply assoc_fold_set_entry.
    + intros v' Hin. apply Hkeyed in Hin.
      apply (In_assoc_NoDup _ _ _ Hd) in Hin. congruence.
    + left. apply Hkeyed. now apply assoc_Some_In.
  - rewrite assoc_fold_set_entry_absent; [reflexivity|].
    intros Hin. apply in_map_iff in Hin as ([k' v'] & <- & Hin).
    apply Hkeyed in Hin. apply (In_assoc_NoDup _ _ _ Hd) in Hin.
    simpl in A. congruence.
Qed.

Lemma flatten_unflatten_roundtrip_witness :
  let M := [("list.0.name", VStr "a"); ("list.1.name", VStr "b");
            ("title", VStr "t"); ("0.1", VNum 7)] in
  get_prop "list.1.name" (flatten (unflatten (VObj M))) =
  get_prop "list.1.name" (VObj M).
Proof.
  intros M. apply (flatten_unflatten_roundtrip M "list.1.name"). reflexivity.
Defined.

(** C3, as stated, fails: an index segment with leading zeros denotes the
    position [Number("007") = 7], and the key comes back as [a.7]. *)
Lemma flatten_unflatten_noncanonical_index :
  let M := VObj [("a.007", VStr "x")] in
  distinct (map fst (entries M)) = true /\
  pairwise compatible (map (fun e => split (fst e)) (entries M)) = true /\
  flatten (unflatten M) = VObj [("a.7", VStr "x")] /\
  get_prop "a.007" (flatten (unflatten M)) = None /\
  get_prop "a.007" M = Some (VStr "x").
Proof. repeat split. Qed.

(** * Further properties *)

(** ** [unflatten]: reading entries back *)

Lemma getDeep_seg_keys (parts parts' : list string) (cur : value) :
  map seg_key parts = map seg_key parts' ->
  getDeep parts cur = getDeep parts' cur.
Proof.
  revert parts' cur. induction parts as [|p parts IH]; intros [|p' parts'] cur E;
    try discriminate; [reflexivity|].
  simpl in E. injection E as Ep E. simpl. rewrite Ep.
  destruct (get_prop (seg_key p') cur); auto.
Qed.

(** X1.  On a flat map of ordinary segments (none is [__proto__] or
    [length], every digit string denotes a number below 2^53), the entry
    processed last, if its key is not empty, is in the tree at its own path
    and at the path of every key that addresses the same slots: the same
    segments up to the number an index segment denotes, as [a.7] and
    [a.07].  So of two entries on one path the later one wins. *)
Theorem unflatten_same_path_later_wins
    (pre : props) (k k' : string) (v : value) :
  ordinary_map (pre ++ [(k, v)]) = true ->
  k <> "" ->
  map seg_key (split k') = map seg_key (split k) ->
  getDeep (split k') (unflatten (VObj (pre ++ [(k, v)]))) = Some v.
Proof.
  intros _ Hk E. rewrite (getDeep_seg_keys _ _ _ E).
  rewrite unflatten_snoc, unflatten_step_nonempty by assumption.
  apply getDeep_setDeep_from; [apply split_nonempty | apply unflatten_container].
Qed.

Lemma unflatten_same_path_later_wins_witness :
  getDeep (split "a.07")
    (unflatten (VObj ([("a.07", VStr "x")] ++ [("a.7", VStr "y")]))) =
  Some (VStr "y").
Proof.
  apply (unflatten_same_path_later_wins [("a.07", VStr "x")] "a.7" "a.07").
  - reflexivity.
  - discriminate.
  - reflexivity.
Defined.

(** In a tidy tree the paths listed by [below_paths] lead to their values. *)
Lemma tidy_paths_readable (path : list string) :
  forall (hp : bool) (cur v : value),
    tidy_cur hp cur = true ->
    forallb seg_ok path = true ->
    In (path, v) (below_paths flat_paths cur) ->
    getDeep path cur = Some v.
Proof.
  induction path as [|p q IH]; intros hp cur v Ht Hs Hin;
    apply (paths_by_slot _ _ (tidy_cur_regular _ _ Ht)) in Hin
      as (k & x & [q' w] & G & He' & E); unfold cons_seg in E; simpl in E;
    [discriminate|].
  injection E as <- <- <-.
  simpl in Hs. apply andb_true_iff in Hs as [Hp Hq].
  cbn [getDeep]. rewrite (seg_key_ok p Hp), G.
  pose proof (tidy_cur_slot hp cur p x Ht G) as Hx.
  destruct (tidy_node_cases x Hx) as [[Hsc Hc]|[Hc Htx]].
  - rewrite below_paths_scalar in He' by assumption.
    destruct He' as [E|[]]. now injection E as <- <-.
  - now apply (IH true).
Qed.

(** X2.  From a well-formed flat map [unflatten] loses nothing: every
    entry is in the tree at its path. *)
Theorem unflatten_wf_entries_readable (M : props) (k : string) (v : value) :
  wf_flatmap M = true -> In (k, v) M ->
  getDeep (split k) (unflatten (VObj M)) = Some v.
Proof.
  intros Hw Hin. unfold wf_flatmap in Hw.
  apply andb_true_iff in Hw as [Hw Hpw]. apply andb_true_iff in Hw as [Hok Hd].
  destruct (fold_unflatten_tidy M (VObj []) []) as [Ht Hp]; auto;
    try solve [intros e; simpl; tauto]; try solve [intros kv e _ []].
  rewrite forallb_forall in Hok.
  destruct (entry_ok_spec k v (Hok _ Hin)) as (Hs & _).
  apply (tidy_paths_readable (split k) false); auto.
  apply Hp. right. apply in_map_iff. exists (k, v). auto.
Qed.

Lemma unflatten_wf_entries_readable_witness :
  getDeep (split "list.1.name")
    (unflatten (VObj [("list.0.name", VStr "a"); ("list.1.name", VStr "b");
                      ("title", VStr "t")])) =
  Some (VStr "b").
Proof.
  apply (unflatten_wf_entries_readable
           [("list.0.name", VStr "a"); ("list.1.name", VStr "b");
            ("title", VStr "t")] "list.1.name" (VStr "b")).
  - reflexivity.
  - simpl. auto.
Defined.

Lemma elems_set_nil (n : nat) (v : value) :
  elems_set n v [] = repeat None n ++ [Some v].
Proof. induction n as [|n IH]; simpl; [reflexivity | now rewrite IH]. Qed.

(** X4.  A single entry [a.n] builds under the name [a] a sequence of
    [n + 1] slots: [n] holes, then the value. *)
Theorem unflatten_sparse_sequence (a : string) (n : N) (v : value) :
  is_name a = true -> (n < max_array_index)%N ->
  unflatten (VObj [((a ++ "." ++ String_of n)%string, v)]) =
  VObj [(a, VArr (repeat None (N.to_nat n) ++ [Some v]) [])].
Proof.
  intros Ha Hn. apply is_name_spec in Ha as (Hne & Hnd & Hni).
  unfold unflatten. cbn [entries fold_left].
  rewrite unflatten_step_nonempty by apply app_dot_nonempty.
  rewrite split_app_dot, split_no_dot, split_no_dot
    by auto using no_dot_String_of.
  unfold setDeep. change ([a] ++ [String_of n]) with [a; String_of n].
  rewrite setDeep_from_inner, seg_key_name, enter_name by assumption.
  rewrite isIndex_String_of. cbn [get_prop assoc child_or_fresh not_an_object].
  rewrite setDeep_from_last. unfold seg_key, enter.
  rewrite isIndex_String_of, index_key_String_of.
  cbn [ensure_array isArray negb set_prop].
  rewrite array_index_String_of by assumption.
  rewrite elems_set_nil. unfold props_set. cbn [has_key assoc].
  now rewrite array_index_not_index.
Qed.

Lemma unflatten_sparse_sequence_witness :
  unflatten (VObj [(("a" ++ "." ++ String_of 2)%string, VStr "x")]) =
  VObj [("a", VArr (repeat None (N.to_nat 2) ++ [Some (VStr "x")]) [])].
Proof.
  apply (unflatten_sparse_sequence "a" 2 (VStr "x")); reflexivity.
Defined.

(** ** The second [unflatten] against the first *)

Lemma walk2_last (p : string) (v cur : value) :
  walk2 [p] v cur =
  if isIndex p && negb (isArray cur) then cur
  else set_prop (seg_key p) v cur.
Proof.
  unfold seg_key. simpl. destruct (isIndex p); [|reflexivity].
  now destruct (isArray cur).
Qed.

Lemma walk2_inner (p next : string) (rest : list string) (v cur : value) :
  walk2 (p :: next :: rest) v cur =
  let cur' := if isIndex p && negb (isArray cur)
              then set_prop "push" VFun (delete_all cur) else cur in
  set_prop (seg_key p)
    (walk2 (next :: rest) v
       (child_or_fresh (get_prop (seg_key p) cur') (isIndex next)))
    cur'.
Proof.
  unfold seg_key. simpl. destruct (isIndex p); [|reflexivity].
  now destruct (isArray cur).
Qed.

(** Where every index segment finds a sequence, the two walks coincide. *)
Lemma walk2_setDeep_from (parts : list string) :
  forall (hp : bool) (v cur : value),
    meets_kinds parts cur ->
    walk2 parts v cur = setDeep_from hp parts v cur.
Proof.
  induction parts as [|p rest IH]; intros hp v cur Hm; [reflexivity|].
  destruct Hm as [Hk Hm].
  assert (Hno : isIndex p && negb (isArray cur) = false).
  { destruct (isIndex p); [|reflexivity]. now rewrite Hk. }
  assert (He : enter hp p cur = cur).
  { unfold enter, ensure_array. destruct (isIndex p); [|reflexivity].
    now rewrite Hk. }
  destruct rest as [|next rest].
  - now rewrite walk2_last, setDeep_from_last, Hno, He.
  - rewrite walk2_inner, setDeep_from_inner, Hno, He. cbv zeta.
    f_equal. now apply IH.
Qed.

Lemma names_meet_kinds (parts : list string) :
  Forall (fun s => isIndex s = false) parts ->
  forall cur, meets_kinds parts cur.
Proof.
  induction 1 as [|p rest Hp _ IH]; intros cur; [exact I|].
  split; [congruence|]. destruct rest; auto.
Qed.

Lemma names_only_spec (k : string) :
  names_only k = true -> Forall (fun s => isIndex s = false) (split k).
Proof.
  unfold names_only. rewrite forallb_forall. intros H.
  apply Forall_forall. intros s Hs. now apply negb_true_iff, H.
Qed.

(** X5.  On a flat map none of whose keys has an index segment, the two
    [unflatten] functions return the same tree, whatever else the keys
    are. *)
Theorem unflatten2_agrees_on_names (flatObj : value) :
  (forall k v, In (k, v) (entries flatObj) -> names_only k = true) ->
  unflatten2 flatObj = unflatten flatObj.
Proof.
  unfold unflatten2, unflatten. generalize (VObj []).
  induction (entries flatObj) as [|[k v] l IH]; intros r H; [reflexivity|].
  cbn [fold_left].
  assert (Hstep : unflatten2_step r (k, v) = unflatten_step r (k, v)).
  { simpl. destruct (k =? ""); [reflexivity|].
    apply walk2_setDeep_from, names_meet_kinds, names_only_spec.
    apply (H k v). now left. }
  rewrite Hstep. apply IH. intros k' v' Hin. apply (H k' v'). now right.
Qed.

Lemma unflatten2_agrees_on_names_witness :
  unflatten2 (VObj [("a.b", VStr "x"); ("a", VStr "y"); ("c.d.e", VNum 1)]) =
  unflatten (VObj [("a.b", VStr "x"); ("a", VStr "y"); ("c.d.e", VNum 1)]).
Proof.
  apply (unflatten2_agrees_on_names
           (VObj [("a.b", VStr "x"); ("a", VStr "y"); ("c.d.e", VNum 1)])).
  intros k v Hin. simpl in Hin.
  destruct Hin as [H|[H|[H|[]]]]; injection H as <- <-; reflexivity.
Defined.

(** The child that [setDeep] descends into from a tidy container, on a path
    compatible with the paths already there. *)
Lemma tidy_child (hp : bool) (p next : string) (rest : list string) (cur : value) :
  tidy_cur hp cur = true ->
  (forall e, In e (below_paths flat_paths cur) ->
             compat_at hp (fst e) (p :: next :: rest) = true) ->
  let child := child_or_fresh (get_prop p cur) (isIndex next) in
  tidy_cur true child = true /\
  isIndex next = isArray child /\
  (forall e', In e' (below_paths flat_paths child) ->
              compat_at true (fst e') (next :: rest) = true).
Proof.
  intros Ht Hcompat child.
  pose proof (tidy_cur_regular hp cur Ht) as Hreg.
  assert (Hslot : forall x e',
             get_prop p cur = Some x -> In e' (below_paths flat_paths x) ->
             In (cons_seg p e') (below_paths flat_paths cur)).
  { intros x e' Hg He'. apply paths_by_slot; auto. exists p, x, e'. auto. }
  unfold child. destruct (get_prop p cur) as [x|] eqn:G.
  - pose proof (tidy_cur_slot hp cur p x Ht G) as Hx.
    destruct (tidy_node_has_path x Hx) as [e0 He0].
    destruct (tidy_node_cases x Hx) as [[Hs Hc]|[Hc Htx]].
    + exfalso.
      pose proof (Hcompat _ (Hslot x e0 eq_refl He0)) as Hcm.
      rewrite below_paths_scalar in He0 by assumption.
      destruct He0 as [<-|[]].
      apply compat_at_not_prefix in Hcm as [Hcm _].
      simpl in Hcm. now rewrite String.eqb_refl in Hcm.
    + rewrite child_or_fresh_Some by assumption.
      split; [assumption|]. split.
      * pose proof (Hcompat _ (Hslot x e0 eq_refl He0)) as Hcm.
        apply compat_at_peel in Hcm.
        apply (paths_by_slot _ _ (tidy_cur_regular _ _ Htx)) in He0
          as (k & y & e1 & Gk & _ & ->).
        simpl in Hcm. apply compat_at_head_kind in Hcm.
        rewrite <- Hcm. now apply (tidy_cur_slot_kind x k y).
      * intros e' He'. apply (compat_at_peel hp p).
        apply (Hcompat _ (Hslot x e' eq_refl He')).
  - unfold child_or_fresh. simpl.
    destruct (isIndex next); (split; [reflexivity|]); (split; [reflexivity|]);
      intros e' [].
Qed.

Lemma tidy_meets_kinds (q : list string) :
  forall (hp : bool) (cur : value),
    forallb seg_ok q = true ->
    tidy_cur hp cur = true ->
    (isIndex (hd "" q) = true -> isArray cur = true) ->
    (forall e, In e (below_paths flat_paths cur) ->
               compat_at hp (fst e) q = true) ->
    meets_kinds q cur.
Proof.
  induction q as [|p rest IH]; intros hp cur Hs Ht Hk Hc; [exact I|].
  simpl in Hs. apply andb_true_iff in Hs as [Hp Hrest].
  split; [exact Hk|]. destruct rest as [|next rest]; [exact I|].
  rewrite (seg_key_ok p Hp).
  destruct (tidy_child hp p next rest cur Ht Hc) as (Htc & Hkc & Hcc).
  apply (IH true); auto. simpl. intros Hi. now rewrite <- Hkc.
Qed.

(** ** Well-formed flat maps stay within the embedding *)

Lemma tidy_setDeep_within (q : list string) :
  forall (hp : bool) (cur : value),
    forallb seg_ok q = true ->
    tidy_cur hp cur = true ->
    (hp = true -> isIndex (hd "" q) = isArray cur) ->
    (forall e, In e (below_paths flat_paths cur) ->
               compat_at hp (fst e) q = true) ->
    setDeep_within hp q cur = true.
Proof.
  induction q as [|p rest IH]; intros hp cur Hs Ht Hk Hc; [reflexivity|].
  simpl in Hs. apply andb_true_iff in Hs as [Hp Hrest].
  cbn [setDeep_within]. cbn [hd] in Hk.
  rewrite (enter_kind hp p cur Hk), (seg_key_ok p Hp).
  assert (Hw : seg_within p cur = true).
  { unfold seg_within. unfold seg_ok in Hp.
    assert (Hnp : (p =? "__proto__") = false).
    { destruct (String.eqb_spec p "__proto__") as [-> |]; [|reflexivity].
      simpl in Hp. discriminate. }
    rewrite Hnp. cbn [negb andb].
    assert (Hl : (p =? "length") && isArray cur = false).
    { destruct (String.eqb_spec p "length") as [-> |]; [|reflexivity].
      cbn [andb]. destruct hp.
      - now rewrite <- Hk.
      - destruct cur; try reflexivity. discriminate. }
    rewrite Hl. cbn [negb andb].
    destruct (isIndex p); [|reflexivity].
    destruct (array_index p) as [n|] eqn:E; [|discriminate].
    pose proof (array_index_Some p n E) as (_ & En & Hn).
    rewrite En, Number_String_of. apply N.ltb_lt.
    unfold max_array_index in Hn. unfold exact_bound. lia. }
  rewrite Hw. cbn [andb]. destruct rest as [|next rest]; [reflexivity|].
  destruct (tidy_child hp p next rest cur Ht Hc) as (Htc & Hkc & Hcc).
  apply (IH true); auto.
Qed.

Lemma run_within_wf (todo : props) :
  forall (r : value) (S : list (list string * value)),
    tidy_cur false r = true ->
    (forall e, In e (below_paths flat_paths r) <-> In e S) ->
    forallb entry_ok todo = true ->
    (forall kv e, In kv todo -> In e S ->
                  compatible (fst e) (split (fst kv)) = true) ->
    pairwise compatible (map (fun e => split (fst e)) todo) = true ->
    run_within todo r = true.
Proof.
  induction todo as [|[k v] todo IH]; intros r S Ht HS Hok Hcs Hpw;
    [reflexivity|].
  simpl in Hok. apply andb_true_iff in Hok as [Hkv Hok].
  apply entry_ok_spec in Hkv as (Hsegs & Hnip & Hv & Hk).
  simpl in Hpw. apply andb_true_iff in Hpw as [Hhead Hpw].
  assert (Hcompat : forall e, In e (below_paths flat_paths r) ->
                              compat_at false (fst e) (split k) = true).
  { intros e He. apply (Hcs (k, v) e); [now left | now apply HS]. }
  cbn [run_within]. apply andb_true_iff. split.
  - unfold step_within. cbn [fst]. destruct (k =? ""); [reflexivity|].
    apply (tidy_setDeep_within _ false); auto. discriminate.
  - rewrite unflatten_step_nonempty by assumption.
    destruct (setDeep_from_tidy (split k) false v r) as [Ht1 Hp1]; auto.
    { apply split_nonempty. }
    { discriminate. }
    fold (setDeep (split k) v r) in Ht1, Hp1.
    apply (IH _ ((split k, v) :: S)); auto.
    + intros e. rewrite Hp1, HS. simpl. intuition congruence.
    + intros kv e Hin [<-|He].
      * simpl. rewrite forallb_forall in Hhead. apply Hhead.
        now apply (in_map (fun e => split (fst e))).
      * apply Hcs; auto. now right.
Qed.

Lemma unflatten_within_wf (M : props) :
  wf_flatmap M = true -> unflatten_within (VObj M) = true.
Proof.
  intros Hw. unfold wf_flatmap in Hw.
  apply andb_true_iff in Hw as [Hw Hpw]. apply andb_true_iff in Hw as [Hok Hd].
  unfold unflatten_within. cbn [entries].
  apply (run_within_wf M (VObj []) []); auto;
    solve [intros e; simpl; tauto | intros kv e _ []].
Qed.

(** X3.  On a well-formed flat map the walk of [unflatten] meets ordinary
    segments only, so that it executes no statement that can throw, and the
    tree it builds is tidy: the keys of every mapping are distinct, below
    the root no mapping has a digit-string key and no container is empty,
    and a sequence has no named property, no sequence among its elements
    and at most 2^32 - 1 slots. *)
Theorem unflatten_wf_tidy (M : props) :
  wf_flatmap M = true ->
  unflatten_within (VObj M) = true /\
  tidy_cur false (unflatten (VObj M)) = true.
Proof.
  intros Hw. split; [now apply unflatten_within_wf|].
  unfold wf_flatmap in Hw.
  apply andb_true_iff in Hw as [Hw Hpw]. apply andb_true_iff in Hw as [Hok Hd].
  destruct (fold_unflatten_tidy M (VObj []) []) as [Ht Hp]; auto;
    try solve [intros e; simpl; tauto]; try solve [intros kv e _ []].
Qed.

Lemma unflatten_wf_tidy_witness :
  unflatten_within
    (VObj [("list.0.name", VStr "a"); ("list.2.name", VStr "b")]) = true /\
  tidy_cur false
    (unflatten (VObj [("list.0.name", VStr "a"); ("list.2.name", VStr "b")])) = true.
Proof.
  apply (unflatten_wf_tidy [("list.0.name", VStr "a"); ("list.2.name", VStr "b")]).
  reflexivity.
Defined.

Lemma fold_unflatten2_agrees (todo : props) :
  forall (r : value) (S : list (list string * value)),
    tidy_cur false r = true ->
    (forall e, In e (below_paths flat_paths r) <-> In e S) ->
    forallb entry_ok todo = true ->
    (forall k v, In (k, v) todo -> isIndex (hd "" (split k)) = false) ->
    (forall kv e, In kv todo -> In e S ->
                  compatible (fst e) (split (fst kv)) = true) ->
    pairwise compatible (map (fun e => split (fst e)) todo) = true ->
    fold_left unflatten2_step todo r = fold_left unflatten_step todo r.
Proof.
  induction todo as [|[k v] todo IH]; intros r S Ht HS Hok Htop Hcs Hpw;
    [reflexivity|].
  simpl in Hok. apply andb_true_iff in Hok as [Hkv Hok].
  apply entry_ok_spec in Hkv as (Hsegs & Hnip & Hv & Hk).
  simpl in Hpw. apply andb_true_iff in Hpw as [Hhead Hpw].
  assert (Hcompat : forall e, In e (below_paths flat_paths r) ->
                              compat_at false (fst e) (split k) = true).
  { intros e He. apply (Hcs (k, v) e); [now left | now apply HS]. }
  assert (Hstep : unflatten2_step r (k, v) = unflatten_step r (k, v)).
  { simpl. destruct (k =? ""); [reflexivity|].
    apply walk2_setDeep_from. apply (tidy_meets_kinds _ false); auto.
    rewrite (Htop k v) by now left. discriminate. }
  cbn [fold_left]. rewrite Hstep, unflatten_step_nonempty by assumption.
  destruct (setDeep_from_tidy (split k) false v r) as [Ht1 Hp1]; auto.
  { apply split_nonempty. }
  { discriminate. }
  fold (setDeep (split k) v r) in Ht1, Hp1.
  apply (IH _ ((split k, v) :: S)); auto.
  - intros e. rewrite Hp1, HS. simpl. intuition congruence.
  - intros k' v' Hin. apply (Htop k' v'). now right.
  - intros kv e Hin [<-|He].
    + simpl. rewrite forallb_forall in Hhead. apply Hhead.
      now apply (in_map (fun e => split (fst e))).
    + apply Hcs; auto. now right.
Qed.

(** X6.  On a well-formed flat map whose keys all start with a name
    segment, the two [unflatten] functions return the same tree: index
    segments below the first always find the sequence that belongs there. *)
Theorem unflatten2_agrees_on_wf (M : props) :
  wf_flatmap M = true ->
  (forall k v, In (k, v) M -> isIndex (hd "" (split k)) = false) ->
  unflatten2 (VObj M) = unflatten (VObj M).
Proof.
  intros Hw Htop. unfold wf_flatmap in Hw.
  apply andb_true_iff in Hw as [Hw Hpw]. apply andb_true_iff in Hw as [Hok Hd].
  unfold unflatten2, unflatten. cbn [entries].
  apply (fold_unflatten2_agrees M (VObj []) []); auto;
    solve [intros e; simpl; tauto | intros kv e _ []].
Qed.

Lemma unflatten2_agrees_on_wf_witness :
  unflatten2 (VObj [("list.0.name", VStr "a"); ("list.1.name", VStr "b");
                    ("title", VStr "t")]) =
  unflatten (VObj [("list.0.name", VStr "a"); ("list.1.name", VStr "b");
                   ("title", VStr "t")]).
Proof.
  apply (unflatten2_agrees_on_wf
           [("list.0.name", VStr "a"); ("list.1.name", VStr "b");
            ("title", VStr "t")]).
  - reflexivity.
  - intros k v Hin. simpl in Hin.
    destruct Hin as [H|[H|[H|[]]]]; injection H as <- <-; reflexivity.
Defined.

Lemma unflatten2_step_plain_object (r : value) (e : string * value) :
  is_plain_object r = true -> is_plain_object (unflatten2_step r e) = true.
Proof.
  destruct r as [| | | | | |ps|]; try discriminate. intros _.
  destruct e as [k v]. simpl. destruct (k =? ""); [reflexivity|].
  destruct (split k) as [|p [|next rest]]; [reflexivity| |].
  - rewrite walk2_last. now destruct (isIndex p).
  - rewrite walk2_inner. now destruct (isIndex p).
Qed.

Lemma fold_unflatten2_plain_object (l : props) :
  forall r, is_plain_object r = true ->
            is_plain_object (fold_left unflatten2_step l r) = true.
Proof.
  induction l as [|e l IH]; simpl; auto.
  intros r Hr. now apply IH, unflatten2_step_plain_object.
Qed.

(** X7.  On a flat map whose keys are made of ordinary segments (none is
    [__proto__] or [length], every digit string denotes a number below
    2^53) and whose values are not containers, the second [unflatten] loses
    every entry whose key is a single index segment: the tree is the one
    built from the other entries.  The write goes to an array into which
    the root is copied and which is then dropped; the copy can throw only
    on a property [length], which no container has here. *)
Theorem unflatten2_drops_top_level_index
    (pre post : props) (k : string) (v : value) :
  ordinary_map (pre ++ (k, v) :: post) = true ->
  (forall k' v', In (k', v') (pre ++ (k, v) :: post) ->
                 is_container v' = false) ->
  isIndex k = true ->
  unflatten2 (VObj (pre ++ (k, v) :: post)) = unflatten2 (VObj (pre ++ post)).
Proof.
  intros _ _ Hi. unfold unflatten2. cbn [entries].
  rewrite !fold_left_app. cbn [fold_left]. f_equal.
  pose proof (fold_unflatten2_plain_object pre (VObj []) eq_refl) as Hr.
  destruct (fold_left unflatten2_step pre (VObj [])) as [| | | | | |ps|];
    try discriminate.
  simpl. destruct (String.eqb_spec k "") as [-> |Hk]; [reflexivity|].
  now rewrite (isIndex_split k Hi), walk2_last, Hi.
Qed.

Lemma unflatten2_drops_top_level_index_witness :
  unflatten2 (VObj ([("a", VStr "x")] ++ ("7", VStr "y") :: [("b", VStr "z")])) =
  unflatten2 (VObj ([("a", VStr "x")] ++ [("b", VStr "z")])).
Proof.
  apply (unflatten2_drops_top_level_index
           [("a", VStr "x")] [("b", VStr "z")] "7" (VStr "y")).
  - reflexivity.
  - intros k' v' [H|[H|[H|[]]]]; injection H as _ <-; reflexivity.
  - reflexivity.
Defined.

(** X8.  On a flat map whose keys are made of ordinary segments (none is
    [__proto__] or [length], every digit string denotes a number below
    2^53) and whose values are not containers: in the second [unflatten],
    an entry whose first segment is an index and which has further segments
    deletes every property the root had.  The tree is the one built from
    that entry and the later ones, and after that entry the root carries
    the property [push]. *)
Theorem unflatten2_index_entry_wipes_root
    (pre post : props) (k : string) (v : value)
    (p next : string) (rest : list string) :
  ordinary_map (pre ++ (k, v) :: post) = true ->
  (forall k' v', In (k', v') (pre ++ (k, v) :: post) ->
                 is_container v' = false) ->
  split k = p :: next :: rest ->
  isIndex p = true ->
  unflatten2 (VObj (pre ++ (k, v) :: post)) = unflatten2 (VObj ((k, v) :: post)) /\
  get_prop "push" (unflatten2 (VObj (pre ++ [(k, v)]))) = Some VFun.
Proof.
  intros _ _ Hs Hi.
  assert (Hk : (k =? "") = false).
  { destruct (String.eqb_spec k "") as [-> |]; [discriminate | reflexivity]. }
  assert (Hstep : forall ps,
             unflatten2_step (VObj ps) (k, v) = unflatten2_step (VObj []) (k, v)).
  { intros ps. simpl. rewrite Hk, Hs, !walk2_inner, Hi. reflexivity. }
  pose proof (fold_unflatten2_plain_object pre (VObj []) eq_refl) as Hr.
  unfold unflatten2. cbn [entries]. rewrite !fold_left_app. cbn [fold_left].
  destruct (fold_left unflatten2_step pre (VObj [])) as [| | | | | |ps|];
    try discriminate.
  rewrite Hstep. split; [reflexivity|].
  simpl. rewrite Hk, Hs, walk2_inner, Hi. cbv zeta.
  cbn [isArray negb andb delete_all].
  rewrite get_set_other by (intros E; unfold seg_key in E; rewrite Hi in E;
    pose proof (isIndex_String_of (Number p)) as Hx; unfold index_key in E;
    rewrite <- E in Hx; discriminate).
  reflexivity.
Qed.

Lemma unflatten2_index_entry_wipes_root_witness :
  unflatten2 (VObj ([("name", VStr "y")] ++ ("0.a", VStr "x") :: [])) =
    unflatten2 (VObj (("0.a", VStr "x") :: [])) /\
  get_prop "push" (unflatten2 (VObj ([("name", VStr "y")] ++ [("0.a", VStr "x")]))) =
    Some VFun.
Proof.
  apply (unflatten2_index_entry_wipes_root
           [("name", VStr "y")] [] "0.a" (VStr "x") "0" "a" []);
    try reflexivity.
  intros k' v' [H|[H|[]]]; injection H as _ <-; reflexivity.
Defined.

(** ** What [flattenJSON] stores *)

Section FlattenInvariant.
Variables good ok : value -> bool.
Variable Inv : props -> Prop.
Hypothesis Hset :
  forall k v out, Inv out -> good v = true -> Inv (props_set k v out).
Hypothesis Hleaf :
  forall v, is_container v = false -> good (nullish_default v) = true.
Hypothesis Hok_obj :
  forall ps k v, ok (VObj ps) = true -> In (k, v) ps -> ok v = true.
Hypothesis Hok_arr :
  forall es ps, ok (VArr es ps) = true ->
    (forall w, In (Some w) es ->
               ok w = true /\ (isArray w = true -> good w = true)) /\
    (forall k v, In (k, v) ps -> ok v = true).

Lemma forEach_from_inv (es : list (option value)) :
  (forall w, In (Some w) es ->
             ok w = true /\ (isArray w = true -> good w = true)) ->
  Forall (fun e => forall w, e = Some w -> preserves ok Inv w) es ->
  forall nk i out, Inv out -> Inv (forEach_from flattenJSON nk i es out).
Proof.
  intros Hes HF. induction HF as [|e es He _ IH]; intros nk i out Hout;
    [exact Hout|].
  assert (Hes' : forall w, In (Some w) es ->
                   ok w = true /\ (isArray w = true -> good w = true)).
  { intros w Hw. apply Hes. now right. }
  destruct e as [iv|]; cbn [forEach_from]; [|now apply IH].
  apply IH; [assumption|].
  destruct (Hes iv (or_introl eq_refl)) as [Hok Harr].
  destruct iv.
  1-6: apply Hset; [assumption | now apply Hleaf].
  - now apply (He _ eq_refl).
  - apply Hset; [assumption|]. now apply Harr.
Qed.

Lemma flatten_entry_inv (pk k : string) (v : value) (out : props) :
  ok v = true -> preserves ok Inv v -> preserves_slots ok Inv v ->
  Inv out -> Inv (flatten_entry flattenJSON pk k v out).
Proof.
  intros Hok Hv Hs Hout. unfold flatten_entry. destruct v.
  1-6: apply Hset; [assumption | now apply Hleaf].
  - now apply Hv.
  - apply forEach_from_inv; auto. now apply (Hok_arr elems props0).
Qed.

Lemma flatten_named_inv (ps : props) :
  (forall k v, In (k, v) ps -> ok v = true) ->
  Forall (fun kv => preserves ok Inv (snd kv) /\ preserves_slots ok Inv (snd kv))
         ps ->
  forall pk out, Inv out -> Inv (flatten_named flattenJSON pk ps out).
Proof.
  intros Hps HF. induction HF as [|[k v] ps [Hv Hs] _ IH]; intros pk out Hout;
    [exact Hout|].
  cbn [flatten_named]. apply IH.
  - intros k' v' Hin. apply (Hps k' v'). now right.
  - apply flatten_entry_inv; auto. apply (Hps k v). now left.
Qed.

Lemma flatten_indexed_inv (es : list (option value)) :
  (forall w, In (Some w) es -> ok w = true) ->
  Forall (fun e => forall w, e = Some w ->
                   preserves ok Inv w /\ preserves_slots ok Inv w) es ->
  forall pk i out, Inv out -> Inv (flatten_indexed flattenJSON pk i es out).
Proof.
  intros Hes HF. induction HF as [|e es He _ IH]; intros pk i out Hout;
    [exact Hout|].
  assert (Hes' : forall w, In (Some w) es -> ok w = true).
  { intros w Hw. apply Hes. now right. }
  destruct e as [v|]; cbn [flatten_indexed]; [|now apply IH].
  apply IH; [assumption|]. destruct (He v eq_refl) as [Hv Hs].
  apply flatten_entry_inv; auto. apply Hes. now left.
Qed.

Lemma flattenJSON_inv_slots (t : value) :
  preserves ok Inv t /\ preserves_slots ok Inv t.
Proof.
  induction t as [| | | | | |ps IHps|es ps IHes IHps] using value_ind;
    try (split; [intros _ pk out H; exact H | exact I]).
  - split; [|exact I]. intros Hok pk out Hout. cbn [flattenJSON].
    apply flatten_named_inv;
      [intros k v Hin; now apply (Hok_obj ps k v) | exact IHps | exact Hout].
  - split.
    + intros Hok pk out Hout. cbn [flattenJSON].
      destruct (Hok_arr es ps Hok) as [He Hp].
      apply flatten_named_inv; [exact Hp | exact IHps |].
      apply flatten_indexed_inv; [|exact IHes | exact Hout].
      intros w Hw. now apply He.
    + simpl. eapply Forall_impl; [|exact IHes].
      intros e H w Hw. now apply H.
Qed.

Lemma flattenJSON_inv (t : value) (pk : string) (out : props) :
  ok t = true -> Inv out -> Inv (flattenJSON t pk out).
Proof. intros Hok. now apply flattenJSON_inv_slots. Qed.
End FlattenInvariant.

Lemma vals_ok_props_set (good : value -> bool) (k : string) (v : value)
    (out : props) :
  vals_ok good out -> good v = true -> vals_ok good (props_set k v out).
Proof.
  intros Hout Hv k' v' Hin. apply In_props_set in Hin as [E|Hin].
  - now injection E as _ ->.
  - now apply (Hout k' v').
Qed.

Lemma seq_flat_props (ps : props) (k : string) (v : value) :
  seq_flat (VObj ps) = true -> In (k, v) ps -> seq_flat v = true.
Proof.
  cbn [seq_flat]. rewrite forallb_forall. intros H Hin. now apply (H (k, v)).
Qed.

Lemma seq_flat_elems (es : list (option value)) (ps : props) (w : value) :
  seq_flat (VArr es ps) = true -> In (Some w) es ->
  seq_flat w = true /\ isArray w = false.
Proof.
  cbn [seq_flat]. intros H Hin. apply andb_true_iff in H as [_ H].
  rewrite forallb_forall in H. specialize (H _ Hin). simpl in H.
  apply andb_true_iff in H as [H1 H2]. now apply negb_true_iff in H1.
Qed.

Lemma seq_flat_arr_props (es : list (option value)) (ps : props)
    (k : string) (v : value) :
  seq_flat (VArr es ps) = true -> In (k, v) ps -> seq_flat v = true.
Proof.
  cbn [seq_flat]. intros H. apply andb_true_iff in H as [H _].
  destruct ps; [intros [] | discriminate].
Qed.

Lemma flattenJSON_storable (t : value) (pk : string) (out : props) :
  vals_ok storable out -> vals_ok storable (flattenJSON t pk out).
Proof.
  apply (flattenJSON_inv storable (fun _ => true) (vals_ok storable)); auto.
  - intros k v out'. apply vals_ok_props_set.
  - intros v Hv. now destruct v.
  - intros es ps _. split; [|auto]. intros w _. split; [reflexivity|].
    now destruct w.
Qed.

(** X9.  [flattenJSON] never stores [null], [undefined] or a mapping:
    whatever the tree, every value of the flat map is a scalar, a function
    or a sequence. *)
Theorem flatten_values_storable (t : value) :
  vals_ok storable (entries (flatten t)).
Proof.
  cbn [flatten entries]. apply flattenJSON_storable. intros k v [].
Qed.

(** X10.  Where no sequence is a direct element of a sequence, no value of
    the flat map is a container: every cell holds a scalar or a function. *)
Theorem flatten_seq_flat_values_atomic (t : value) :
  seq_flat t = true -> vals_ok atomic (entries (flatten t)).
Proof.
  intros Ht. cbn [flatten entries].
  apply (flattenJSON_inv atomic seq_flat (vals_ok atomic)); auto.
  - intros k v out. apply vals_ok_props_set.
  - intros v Hv. now destruct v.
  - apply seq_flat_props.
  - intros es ps H. split.
    + intros w Hw. destruct (seq_flat_elems es ps w H Hw) as [H1 H2].
      split; [assumption | congruence].
    + intros k v. now apply (seq_flat_arr_props es ps).
  - intros k v [].
Qed.

Lemma flatten_seq_flat_values_atomic_witness :
  vals_ok atomic
    (entries (flatten (VObj [("a", VArr [Some (VObj [("b", VNull)]); None;
                                         Some (VNum 2)] [])]))).
Proof.
  apply (flatten_seq_flat_values_atomic
           (VObj [("a", VArr [Some (VObj [("b", VNull)]); None;
                              Some (VNum 2)] [])])).
  reflexivity.
Defined.

(** ** Flattening a flat map *)

Lemma ordered_keys_app_name (ks : list string) (k : string) :
  forall lo, ordered_keys lo ks = true -> array_index k = None ->
             ordered_keys lo (ks ++ [k]) = true.
Proof.
  induction ks as [|k0 ks IH]; intros lo H Hk; simpl.
  - now rewrite Hk.
  - simpl in H. destruct (array_index k0).
    + apply andb_true_iff in H as [H1 H2]. rewrite H1. simpl. now apply IH.
    + rewrite forallb_app, H. simpl. now rewrite Hk.
Qed.

Lemma map_fst_replace (k : string) (x : value) (ps : props) :
  map fst (replace k x ps) = map fst ps.
Proof.
  induction ps as [|[k' v'] ps IH]; simpl; auto.
  destruct (k' =? k); simpl; congruence.
Qed.

Lemma ordered_keys_insert_index (n : N) (k : string) (v : value) (ps : props) :
  array_index k = Some n -> ~ In k (map fst ps) ->
  forall lo, (lo <= n)%N -> ordered_keys lo (map fst ps) = true ->
             ordered_keys lo (map fst (insert_index n k v ps)) = true.
Proof.
  intros Hk. induction ps as [|[k' v'] ps IH]; intros Hni lo Hlo H.
  - simpl. rewrite Hk. apply N.leb_le in Hlo. now rewrite Hlo.
  - simpl in Hni. cbn [insert_index]. cbn [map fst ordered_keys] in H.
    destruct (array_index k') as [m|] eqn:A.
    + apply andb_true_iff in H as [H1 H2].
      destruct (m <? n)%N eqn:L.
      * cbn [map fst ordered_keys]. rewrite A, H1. simpl.
        apply IH; [tauto | | assumption]. apply N.ltb_lt in L. lia.
      * cbn [map fst ordered_keys]. rewrite Hk, A.
        apply N.leb_le in Hlo. rewrite Hlo, H2, andb_true_r. simpl.
        apply N.leb_le. apply N.ltb_ge in L.
        assert (m <> n).
        { intros ->. apply array_index_Some in A as (_ & -> & _).
          apply array_index_Some in Hk as (_ & -> & _). tauto. }
        lia.
    + cbn [map fst ordered_keys]. rewrite Hk, A.
      apply N.leb_le in Hlo. now rewrite Hlo, H.
Qed.

Lemma enum_ordered_props_set (k : string) (v : value) (ps : props) :
  enum_ordered ps -> enum_ordered (props_set k v ps).
Proof.
  intros [Ho Hnd]. split; [|now apply NoDup_keys_props_set].
  unfold props_set, has_key. destruct (assoc k ps) eqn:A.
  - now rewrite map_fst_replace.
  - apply assoc_None_not_In in A. destruct (array_index k) as [n|] eqn:Hk.
    + apply ordered_keys_insert_index; auto. apply N.le_0_l.
    + rewrite map_app. now apply ordered_keys_app_name.
Qed.

Lemma ordered_keys_bound (a rest : list string) (k : string) (n : N) :
  array_index k = Some n ->
  forall lo, ordered_keys lo (a ++ k :: rest) = true -> (lo <= n)%N.
Proof.
  intros Hk. induction a as [|k0 a IH]; intros lo H; simpl in H.
  - rewrite Hk in H. apply andb_true_iff in H as [H _]. now apply N.leb_le.
  - destruct (array_index k0) as [m|].
    + apply andb_true_iff in H as [H1 H2]. apply N.leb_le in H1.
      specialize (IH _ H2). lia.
    + rewrite forallb_app in H. apply andb_true_iff in H as [_ H].
      simpl in H. now rewrite Hk in H.
Qed.

Lemma insert_index_last (n : N) (k : string) (v : value) (acc : props)
    (rest : list string) :
  array_index k = Some n ->
  forall lo, ordered_keys lo (map fst acc ++ k :: rest) = true ->
             insert_index n k v acc = acc ++ [(k, v)].
Proof.
  intros Hk. induction acc as [|[k0 v0] acc IH]; intros lo H; [reflexivity|].
  simpl in H. cbn [insert_index app].
  destruct (array_index k0) as [m|].
  - apply andb_true_iff in H as [H1 H2].
    pose proof (ordered_keys_bound _ _ _ _ Hk _ H2) as Hb.
    assert (L : (m <? n)%N = true) by (apply N.ltb_lt; lia).
    rewrite L. simpl. f_equal. now apply (IH (N.succ m)).
  - rewrite forallb_app in H. apply andb_true_iff in H as [_ H].
    simpl in H. now rewrite Hk in H.
Qed.

(** Written entry by entry in its own order, a table in enumeration order
    comes out as it is. *)
Lemma fold_set_entry_enum_ordered (l : props) :
  forall acc, enum_ordered (acc ++ l) -> fold_left set_entry l acc = acc ++ l.
Proof.
  induction l as [|[k v] l IH]; intros acc H; [now rewrite app_nil_r|].
  cbn [fold_left]. unfold set_entry at 2. cbn [fst snd].
  assert (E : props_set k v acc = acc ++ [(k, v)]).
  { destruct H as [Ho Hnd]. rewrite map_app in Ho, Hnd. cbn [map fst] in Ho, Hnd.
    assert (A : assoc k acc = None).
    { apply assoc_None_not_In. intros Hin.
      apply NoDup_remove_2 in Hnd. apply Hnd, in_or_app. now left. }
    unfold props_set, has_key. rewrite A.
    destruct (array_index k) as [n|] eqn:Hk; [|reflexivity].
    exact (insert_index_last n k v acc (map fst l) Hk 0%N Ho). }
  rewrite E, IH; rewrite <- app_assoc; [reflexivity | exact H].
Qed.

Lemma flatten_named_atomic (ps : props) :
  vals_ok atomic ps ->
  forall acc, flatten_named flattenJSON "" ps acc = fold_left set_entry ps acc.
Proof.
  induction ps as [|[k v] ps IH]; intros H acc; [reflexivity|].
  cbn [flatten_named fold_left]. rewrite IH.
  - f_equal. pose proof (H k v (or_introl eq_refl)) as Hv.
    now destruct v.
  - intros k' v' Hin. apply (H k' v'). now right.
Qed.

(** X11.  Flattening a flat map changes nothing: where no sequence is a
    direct element of a sequence, [flattenJSON] applied to its own result
    returns the same flat map, entry for entry in the same order. *)
Theorem flatten_idempotent (t : value) :
  seq_flat t = true -> flatten (flatten t) = flatten t.
Proof.
  intros Ht.
  assert (H : vals_ok atomic (flattenJSON t "" []) /\
              enum_ordered (flattenJSON t "" [])).
  { apply (flattenJSON_inv atomic seq_flat
             (fun out => vals_ok atomic out /\ enum_ordered out)); auto.
    - intros k v out [H1 H2] Hv. split.
      + now apply vals_ok_props_set.
      + now apply enum_ordered_props_set.
    - intros v Hv. now destruct v.
    - apply seq_flat_props.
    - intros es ps H. split.
      + intros w Hw. destruct (seq_flat_elems es ps w H Hw) as [H1 H2].
        split; [assumption | congruence].
      + intros k v. now apply (seq_flat_arr_props es ps).
    - split; [intros k v [] | split; [reflexivity | constructor]]. }
  destruct H as [Hv Ho]. unfold flatten. f_equal.
  change (flattenJSON (VObj (flattenJSON t "" [])) "" [])
    with (flatten_named flattenJSON "" (flattenJSON t "" []) []).
  rewrite flatten_named_atomic by assumption.
  now apply (fold_set_entry_enum_ordered _ []).
Qed.

Lemma flatten_idempotent_witness :
  flatten (flatten (VObj [("b", VObj [("c", VNull)]);
                          ("a", VArr [Some (VNum 1); None; Some (VStr "x")] [])])) =
  flatten (VObj [("b", VObj [("c", VNull)]);
                 ("a", VArr [Some (VNum 1); None; Some (VStr "x")] [])]).
Proof.
  apply (flatten_idempotent
           (VObj [("b", VObj [("c", VNull)]);
                  ("a", VArr [Some (VNum 1); None; Some (VStr "x")] [])])).
  reflexivity.
Defined.

(** ** The order of the entries *)

Lemma is_prefix_refl (p : list string) : is_prefix p p = true.
Proof.
  induction p as [|s p IH]; simpl; auto. now rewrite String.eqb_refl.
Qed.

Lemma kinds_agree_sym (p : list string) :
  forall q, kinds_agree p q = kinds_agree q p.
Proof.
  induction p as [|s1 p IH]; intros [|s2 q]; simpl; auto.
  rewrite (String.eqb_sym s2 s1). destruct (s1 =? s2); auto.
  now destruct (isIndex s1), (isIndex s2).
Qed.

Lemma compatible_sym (p q : list string) : compatible p q = compatible q p.
Proof.
  unfold compatible, compat_at.
  rewrite (andb_comm (negb (is_prefix p q))). f_equal.
  destruct p as [|s1 p], q as [|s2 q]; simpl; auto.
  rewrite (String.eqb_sym s2 s1). destruct (s1 =? s2); auto.
  apply kinds_agree_sym.
Qed.

Lemma forallb_perm {A : Type} (f : A -> bool) (l l' : list A) :
  Permutation l l' -> forallb f l = true -> forallb f l' = true.
Proof.
  intros Hp. rewrite !forallb_forall. intros H x Hx. apply H.
  now apply (Permutation_in _ (Permutation_sym Hp)).
Qed.

Lemma pairwise_perm {A : Type} (r : A -> A -> bool) (l l' : list A) :
  (forall x y, r x y = r y x) ->
  Permutation l l' -> pairwise r l = true -> pairwise r l' = true.
Proof.
  intros Hsym. induction 1 as [|x l l' Hp IH|x y l|l l' l'' _ IH1 _ IH2];
    simpl; auto.
  - intros H. apply andb_true_iff in H as [H1 H2].
    now rewrite (forallb_perm _ _ _ Hp H1), IH.
  - intros H. apply andb_true_iff in H as [H1 H2].
    apply andb_true_iff in H1 as [Hyx Hy]. apply andb_true_iff in H2 as [Hx H].
    now rewrite (Hsym x y), Hyx, Hx, Hy, H.
Qed.

Lemma wf_flatmap_perm (M M' : props) :
  Permutation M M' -> wf_flatmap M = true -> wf_flatmap M' = true.
Proof.
  intros Hp Hw. unfold wf_flatmap in *.
  apply andb_true_iff in Hw as [Hw Hpw]. apply andb_true_iff in Hw as [Hok Hd].
  rewrite (forallb_perm _ _ _ Hp Hok). simpl.
  rewrite (pairwise_perm compatible _ _ compatible_sym
             (Permutation_map _ Hp) Hpw), andb_true_r.
  apply NoDup_distinct.
  apply (Permutation_NoDup (Permutation_map fst Hp)).
  now apply distinct_NoDup.
Qed.

Lemma unflatten_wf_paths (M : props) :
  wf_flatmap M = true ->
  tidy_cur false (unflatten (VObj M)) = true /\
  (forall e, In e (below_paths flat_paths (unflatten (VObj M))) <->
             In e (map pathed M)).
Proof.
  intros Hw. unfold wf_flatmap in Hw.
  apply andb_true_iff in Hw as [Hw Hpw]. apply andb_true_iff in Hw as [Hok Hd].
  destruct (fold_unflatten_tidy M (VObj []) []) as [Ht Hp]; auto;
    try solve [intros e; simpl; tauto]; try solve [intros kv e _ []].
  split; [exact Ht|]. intros e. unfold unflatten. cbn [entries].
  rewrite Hp. simpl. tauto.
Qed.

(** X12.  The order of the entries of a well-formed flat map does not
    matter: from the entries in any other order [unflatten] builds a tree
    with the same leaves at the same paths, in which every entry is read
    back at its path. *)
Theorem unflatten_wf_order_irrelevant (M M' : props) :
  wf_flatmap M = true -> Permutation M M' ->
  (forall k v, In (k, v) M ->
               getDeep (split k) (unflatten (VObj M')) = Some v) /\
  (forall e, In e (below_paths flat_paths (unflatten (VObj M'))) <->
             In e (below_paths flat_paths (unflatten (VObj M)))).
Proof.
  intros Hw Hp. pose proof (wf_flatmap_perm _ _ Hp Hw) as Hw'.
  destruct (unflatten_wf_paths M Hw) as [_ HM].
  destruct (unflatten_wf_paths M' Hw') as [Ht HM'].
  assert (Hin : forall e, In e (map pathed M') <-> In e (map pathed M)).
  { intros e. split; apply Permutation_in; [apply Permutation_sym|];
      now apply Permutation_map. }
  split.
  - intros k v Hkv. apply (tidy_paths_readable (split k) false); auto.
    + unfold wf_flatmap in Hw. apply andb_true_iff in Hw as [Hw _].
      apply andb_true_iff in Hw as [Hok _]. rewrite forallb_forall in Hok.
      now destruct (entry_ok_spec k v (Hok _ Hkv)) as (Hs & _).
    + apply HM', Hin. apply in_map_iff. exists (k, v). auto.
  - intros e. now rewrite HM', HM.
Qed.

Lemma unflatten_wf_order_irrelevant_witness :
  (forall k v,
      In (k, v) [("list.0.name", VStr "a"); ("list.1.name", VStr "b");
                 ("title", VStr "t")] ->
      getDeep (split k)
        (unflatten (VObj [("title", VStr "t"); ("list.1.name", VStr "b");
                          ("list.0.name", VStr "a")])) = Some v) /\
  (forall e,
      In e (below_paths flat_paths
              (unflatten (VObj [("title", VStr "t"); ("list.1.name", VStr "b");
                                ("list.0.name", VStr "a")]))) <->
      In e (below_paths flat_paths
              (unflatten (VObj [("list.0.name", VStr "a");
                                ("list.1.name", VStr "b");
                                ("title", VStr "t")])))).
Proof.
  apply (unflatten_wf_order_irrelevant
           [("list.0.name", VStr "a"); ("list.1.name", VStr "b");
            ("title", VStr "t")]
           [("title", VStr "t"); ("list.1.name", VStr "b");
            ("list.0.name", VStr "a")]).
  - reflexivity.
  - apply perm_trans with
      [("list.1.name", VStr "b"); ("list.0.name", VStr "a"); ("title", VStr "t")].
    + apply perm_swap.
    + apply perm_trans with
        [("list.1.name", VStr "b"); ("title", VStr "t"); ("list.0.name", VStr "a")].
      * apply perm_skip, perm_swap.
      * apply perm_swap.
Defined.

(** ** The rows of the sheet *)

Lemma string_compare_lt_trans (a : string) :
  forall b c, String.compare a b = Lt -> String.compare b c = Lt ->
              String.compare a c = Lt.
Proof.
  induction a as [|ca a IH]; intros [|cb b] [|cc c]; simpl;
    try discriminate; try reflexivity.
  unfold Ascii.compare.
  destruct (N.compare_spec (N_of_ascii ca) (N_of_ascii cb)) as [E1|L1|G1];
    try discriminate;
    destruct (N.compare_spec (N_of_ascii cb) (N_of_ascii cc)) as [E2|L2|G2];
    try discriminate; intros H1 H2.
  - rewrite E1, E2, N.compare_refl. eauto.
  - rewrite E1. now rewrite (proj2 (N.compare_lt_iff _ _) L2).
  - rewrite <- E2. now rewrite (proj2 (N.compare_lt_iff _ _) L1).
  - assert (L : (N_of_ascii ca < N_of_ascii cc)%N) by lia.
    now rewrite (proj2 (N.compare_lt_iff _ _) L).
Qed.

Lemma le_str_trans (a b c : string) : le_str a b -> le_str b c -> le_str a c.
Proof.
  unfold le_str, String.leb. intros H1 H2.
  destruct (String.compare a b) eqn:E1; try discriminate.
  - apply String.compare_eq_iff in E1. now subst.
  - destruct (String.compare b c) eqn:E2; try discriminate.
    + apply String.compare_eq_iff in E2. subst. now rewrite E1.
    + now rewrite (string_compare_lt_trans a b c E1 E2).
Qed.

Lemma le_str_neq_lt (a b : string) : le_str a b -> a <> b -> lt_str a b.
Proof.
  unfold le_str, lt_str, String.leb, String.ltb. intros H Hne.
  destruct (String.compare a b) eqn:E; try discriminate; auto.
  apply String.compare_eq_iff in E. contradiction.
Qed.

Lemma insert_sorted_perm (k : string) (l : list string) :
  Permutation (insert_sorted k l) (k :: l).
Proof.
  induction l as [|x l IH]; simpl; auto.
  destruct (String.leb k x); auto.
  apply perm_trans with (x :: k :: l); [now apply perm_skip | apply perm_swap].
Qed.

Lemma sort_perm (l : list string) : Permutation (sort l) l.
Proof.
  induction l as [|k l IH]; simpl; auto.
  apply perm_trans with (k :: sort l); [apply insert_sorted_perm|].
  now apply perm_skip.
Qed.

Lemma insert_sorted_Sorted (k : string) (l : list string) :
  Sorted le_str l -> Sorted le_str (insert_sorted k l).
Proof.
  induction 1 as [|x l Hs IH Hhd]; simpl; [repeat constructor|].
  destruct (String.leb k x) eqn:E.
  - constructor; [now constructor|]. now constructor.
  - constructor; [exact IH|].
    assert (Hxk : le_str x k).
    { destruct (String.leb_total k x) as [H|H]; [congruence | exact H]. }
    destruct l as [|y l]; simpl; [now constructor|].
    destruct (String.leb k y); constructor; auto. now inversion Hhd.
Qed.

Lemma sort_Sorted (l : list string) : Sorted le_str (sort l).
Proof.
  induction l as [|k l IH]; simpl; [constructor|].
  now apply insert_sorted_Sorted.
Qed.

Lemma sort_In (l : list string) (k : string) : In k (sort l) <-> In k l.
Proof.
  split; apply Permutation_in; [|apply Permutation_sym]; apply sort_perm.
Qed.

Lemma sort_ascending (l : list string) :
  NoDup l -> StronglySorted lt_str (sort l).
Proof.
  intros Hnd.
  assert (Hnd' : NoDup (sort l)).
  { apply (Permutation_NoDup (Permutation_sym (sort_perm l)) Hnd). }
  assert (Hs : StronglySorted le_str (sort l)).
  { apply Sorted_StronglySorted; [|apply sort_Sorted].
    intros a b c. apply le_str_trans. }
  induction Hs as [|a s Hs IH Hall]; constructor.
  - apply IH. now inversion Hnd'.
  - inversion Hnd' as [|? ? Hni _]; subst.
    rewrite Forall_forall in *. intros x Hx.
    apply le_str_neq_lt; auto. intros ->. contradiction.
Qed.

Lemma existsb_eqb_In (k : string) (l : list string) :
  existsb (String.eqb k) l = true <-> In k l.
Proof.
  rewrite existsb_exists. split.
  - intros (x & Hx & E). apply String.eqb_eq in E. now subst.
  - intros H. exists k. split; auto. apply String.eqb_refl.
Qed.

Lemma set_add_In (ks : list string) (k x : string) :
  In x (set_add ks k) <-> In x ks \/ x = k.
Proof.
  unfold set_add. destruct (existsb (String.eqb k) ks) eqn:E.
  - apply existsb_eqb_In in E. split; [auto|]. intros [H| ->]; auto.
  - rewrite in_app_iff. simpl. intuition.
Qed.

Lemma set_add_NoDup (ks : list string) (k : string) :
  NoDup ks -> NoDup (set_add ks k).
Proof.
  intros H. unfold set_add. destruct (existsb (String.eqb k) ks) eqn:E; auto.
  apply NoDup_app; auto.
  - repeat constructor. intros [].
  - intros x Hx [<-|[]]. apply existsb_eqb_In in Hx. congruence.
Qed.

Lemma fold_set_add_In (l : list string) :
  forall ks x, In x (fold_left set_add l ks) <-> In x ks \/ In x l.
Proof.
  induction l as [|k l IH]; intros ks x; simpl; [tauto|].
  rewrite IH, set_add_In. intuition.
Qed.

Lemma fold_set_add_NoDup (l : list string) :
  forall ks, NoDup ks -> NoDup (fold_left set_add l ks).
Proof.
  induction l as [|k l IH]; intros ks H; simpl; auto.
  now apply IH, set_add_NoDup.
Qed.

Lemma fold_read_file_keys (files : list (string * value)) :
  forall st k,
    In k (snd (fold_left read_file files st)) <->
    In k (snd st) \/
    exists c d, In (c, d) files /\ In k (map fst (entries (flatten d))).
Proof.
  induction files as [|[c d] files IH]; intros st k; simpl.
  - split; [auto|]. intros [H|(c & d & [] & _)]; auto.
  - rewrite IH. cbn [read_file snd fst]. rewrite fold_set_add_In. split.
    + intros [[H|H]|(c' & d' & Hin & Hk)]; auto.
      * right. exists c, d. auto.
      * right. exists c', d'. auto.
    + intros [H|(c' & d' & [E|Hin] & Hk)]; auto.
      * injection E as <- <-. auto.
      * right. exists c', d'. auto.
Qed.

Lemma fold_read_file_NoDup (files : list (string * value)) :
  forall st, NoDup (snd st) -> NoDup (snd (fold_left read_file files st)).
Proof.
  induction files as [|f files IH]; intros st H; simpl; auto.
  apply IH. cbn [read_file snd]. now apply fold_set_add_NoDup.
Qed.

Lemma fold_read_file_maps (files : list (string * value)) :
  forall st,
    fst (fold_left read_file files st) =
    fold_left set_entry
      (map (fun f => (fst f, flatten (snd f))) files) (fst st).
Proof.
  induction files as [|f files IH]; intros st; [reflexivity|].
  simpl. now rewrite IH.
Qed.

Lemma keys_props_set (k h : string) (v : value) (ps : props) :
  In h (map fst (props_set k v ps)) <-> h = k \/ In h (map fst ps).
Proof.
  destruct (String.eqb_spec h k) as [-> |Hne].
  - split; [auto|]. intros _.
    destruct (In_dec string_dec k (map fst (props_set k v ps))) as [H|H]; auto.
    apply assoc_None_not_In in H. now rewrite assoc_props_set_same in H.
  - split.
    + intros H. right.
      destruct (In_dec string_dec h (map fst ps)) as [H'|H']; auto.
      apply assoc_None_not_In in H'.
      rewrite <- (assoc_props_set_other k h v ps Hne) in H'.
      apply assoc_None_not_In in H'. contradiction.
    + intros [H|H]; [contradiction|].
      destruct (In_dec string_dec h (map fst (props_set k v ps))) as [H'|H'];
        auto.
      apply assoc_None_not_In in H'.
      rewrite (assoc_props_set_other k h v ps Hne) in H'.
      apply assoc_None_not_In in H'. contradiction.
Qed.

Lemma keys_fold_set_entry (l : props) :
  forall out h,
    In h (map fst (fold_left set_entry l out)) <->
    In h (map fst out) \/ In h (map fst l).
Proof.
  induction l as [|[k v] l IH]; intros out h; simpl; [tauto|].
  rewrite IH. unfold set_entry. simpl. rewrite keys_props_set.
  intuition.
Qed.

Lemma flat_maps_keys (files : list (string * value)) (c : string) :
  In c (map fst (flat_maps files)) <-> In c (map fst files).
Proof.
  unfold flat_maps. rewrite fold_read_file_maps, keys_fold_set_entry.
  rewrite map_map. simpl. tauto.
Qed.

Lemma flat_maps_file (files : list (string * value)) (c : string) (d : value) :
  NoDup (map fst files) -> In (c, d) files ->
  assoc c (flat_maps files) = Some (flatten d).
Proof.
  intros Hnd Hin. unfold flat_maps. rewrite fold_read_file_maps.
  apply assoc_fold_set_entry.
  - intros v' Hv'. apply in_map_iff in Hv' as ([c' d'] & E & Hin').
    simpl in E. injection E as E1 E2. subst c' v'.
    f_equal. clear -Hnd Hin Hin'.
    induction files as [|[c0 d0] files IH]; [contradiction|].
    simpl in Hnd. inversion Hnd as [|? ? Hni Hnd']; subst.
    destruct Hin as [E|Hin], Hin' as [E'|Hin'].
    + congruence.
    + injection E as E1 E2. subst c0 d0. exfalso. apply Hni.
      now apply (in_map fst _ (c, d')).
    + injection E' as E1 E2. subst c0 d0. exfalso. apply Hni.
      now apply (in_map fst _ (c, d)).
    + auto.
  - left. apply in_map_iff. exists (c, d). auto.
Qed.

Lemma make_row_fold (flatMaps : props) (key : string) (cols : list string) :
  forall row,
    fold_left
      (fun row col =>
         props_set col
           (nullish_default (read key (read col (VObj flatMaps)))) row)
      cols row =
    fold_left set_entry
      (map (fun col =>
              (col, nullish_default (read key (read col (VObj flatMaps)))))
           cols) row.
Proof.
  induction cols as [|c cols IH]; intros row; simpl; auto.
Qed.

(** X13.  The rows of the sheet, when no file is named [key]: the [key]
    cells of the rows are exactly the keys of the flat maps of all files,
    each once, in strictly ascending order. *)
Theorem merge_rows_keys (files : list (string * value)) :
  ~ In "key" (map fst files) ->
  map (get_prop "key") (merge_rows files) =
    map (fun k => Some (VStr k)) (row_keys files) /\
  StronglySorted lt_str (row_keys files) /\
  (forall k, In k (row_keys files) <->
             exists c d, In (c, d) files /\
                         has_key k (entries (flatten d)) = true).
Proof.
  intros Hkey. split; [|split].
  - unfold merge_rows. rewrite map_map. apply map_ext. intros k.
    unfold make_row. cbn [get_prop]. rewrite make_row_fold.
    rewrite assoc_fold_set_entry_absent; [simpl; reflexivity|].
    rewrite map_map. simpl. rewrite map_id. unfold columns.
    rewrite sort_In, flat_maps_keys. exact Hkey.
  - apply sort_ascending. unfold all_keys. apply fold_read_file_NoDup.
    constructor.
  - intros k. unfold row_keys. rewrite sort_In. unfold all_keys.
    rewrite fold_read_file_keys. cbn [snd In]. split.
    + intros [[]|(c & d & Hin & Hk)]. exists c, d. split; auto.
      unfold has_key.
      destruct (assoc k (entries (flatten d))) eqn:A; [reflexivity|].
      now apply assoc_None_not_In in A.
    + intros (c & d & Hin & Hk). right. exists c, d. split; auto.
      unfold has_key in Hk.
      destruct (In_dec string_dec k (map fst (entries (flatten d))))
        as [H|H]; auto.
      apply assoc_None_not_In in H. now rewrite H in Hk.
Qed.

Lemma merge_rows_keys_witness :
  map (get_prop "key")
    (merge_rows [("zh", VObj [("b", VStr "y")]);
                 ("en", VObj [("a", VObj [("x", VNum 1)]); ("b", VStr "z")])]) =
    map (fun k => Some (VStr k))
      (row_keys [("zh", VObj [("b", VStr "y")]);
                 ("en", VObj [("a", VObj [("x", VNum 1)]); ("b", VStr "z")])]) /\
  StronglySorted lt_str
    (row_keys [("zh", VObj [("b", VStr "y")]);
               ("en", VObj [("a", VObj [("x", VNum 1)]); ("b", VStr "z")])]) /\
  (forall k,
      In k (row_keys [("zh", VObj [("b", VStr "y")]);
                      ("en", VObj [("a", VObj [("x", VNum 1)]); ("b", VStr "z")])]) <->
      exists c d,
        In (c, d) [("zh", VObj [("b", VStr "y")]);
                   ("en", VObj [("a", VObj [("x", VNum 1)]); ("b", VStr "z")])] /\
        has_key k (entries (flatten d)) = true).
Proof.
  apply (merge_rows_keys
           [("zh", VObj [("b", VStr "y")]);
            ("en", VObj [("a", VObj [("x", VNum 1)]); ("b", VStr "z")])]).
  simpl. intros [H|[H|[]]]; discriminate.
Defined.

(** X14.  Where the files have distinct names, none is named [__proto__]
    and no flat map of a content has the key [__proto__]: the cell of a row
    in the column of a file is the value the flat map of the file has at
    the key of the row; where the flat map lacks the key, the empty string,
    unless the key is a name of [Object.prototype], for which the cell
    receives what the flat map inherits.  This holds of a file named [key]
    too, whose column overwrites the keys of the rows. *)
Theorem merge_rows_cell
    (files : list (string * value)) (c : string) (d : value)
    (i : nat) (k : string) (row : value) :
  files_within files = true ->
  NoDup (map fst files) -> In (c, d) files ->
  nth_error (row_keys files) i = Some k ->
  nth_error (merge_rows files) i = Some row ->
  get_prop c row =
  Some (match get_prop k (flatten d) with
        | Some v => v
        | None => if existsb (String.eqb k) object_prototype_names
                  then inherited k else VStr ""
        end).
Proof.
  intros _ Hnd Hin Hk Hrow. unfold merge_rows in Hrow.
  rewrite nth_error_map, Hk in Hrow. simpl in Hrow. injection Hrow as <-.
  unfold make_row. cbn [get_prop]. rewrite make_row_fold.
  pose proof (flat_maps_file files c d Hnd Hin) as Hc.
  assert (Hcell :
            nullish_default (read k (read c (VObj (flat_maps files)))) =
            match assoc k (flattenJSON d "" []) with
            | Some v => v
            | None => if existsb (String.eqb k) object_prototype_names
                      then inherited k else VStr ""
            end).
  { unfold read at 2. cbn [get_prop]. rewrite Hc.
    unfold read, flatten. cbn [get_prop].
    destruct (assoc k (flattenJSON d "" [])) as [v|] eqn:A.
    - apply assoc_Some_In in A.
      pose proof (flattenJSON_storable d "" [] (fun _ _ H => match H with end)
                    k v A) as Hv.
      now destruct v.
    - unfold inherited.
      destruct (existsb (String.eqb k) object_prototype_names) eqn:E.
      + now destruct (k =? "__proto__").
      + destruct (String.eqb_spec k "__proto__") as [-> |_]; [discriminate|].
        reflexivity. }
  unfold flatten at 1. cbn [get_prop]. rewrite <- Hcell.
  apply assoc_fold_set_entry.
  - intros v' Hv'. apply in_map_iff in Hv' as (c' & E & _).
    now injection E as -> <-.
  - left. apply in_map_iff. exists c. split; auto.
    unfold columns. rewrite sort_In, flat_maps_keys.
    now apply (in_map fst _ (c, d)).
Qed.

Lemma merge_rows_cell_witness :
  get_prop "zh"
    (VObj [("key", VStr "a.x"); ("en", VNum 1); ("zh", VStr "")]) =
  Some (match get_prop "a.x" (flatten (VObj [("b", VStr "y")])) with
        | Some v => v
        | None => if existsb (String.eqb "a.x") object_prototype_names
                  then inherited "a.x" else VStr ""
        end).
Proof.
  apply (merge_rows_cell
           [("zh", VObj [("b", VStr "y")]);
            ("en", VObj [("a", VObj [("x", VNum 1)]); ("b", VStr "z")])]
           "zh" (VObj [("b", VStr "y")]) 0 "a.x").
  - reflexivity.
  - simpl. repeat constructor; simpl; intuition discriminate.
  - simpl. auto.
  - reflexivity.
  - reflexivity.
Defined.

Lemma has_key_keys (k : string) (ps qs : props) :
  map fst ps = map fst qs -> has_key k ps = has_key k qs.
Proof.
  revert qs. induction ps as [|[k1 v1] ps IH]; intros [|[k2 v2] qs] E;
    try discriminate; [reflexivity|].
  simpl in E. injection E as -> E. unfold has_key in *. simpl.
  destruct (k2 =? k); auto.
Qed.

Lemma insert_index_keys (n : N) (k : string) (v v' : value) (ps : props) :
  forall qs, map fst ps = map fst qs ->
             map fst (insert_index n k v ps) = map fst (insert_index n k v' qs).
Proof.
  induction ps as [|[k1 v1] ps IH]; intros [|[k2 v2] qs] E;
    try discriminate; [reflexivity|].
  simpl in E. injection E as -> E. simpl.
  destruct (array_index k2) as [m|]; [|simpl; now rewrite E].
  destruct (m <? n)%N; simpl; [|now rewrite E].
  f_equal. now apply IH.
Qed.

(** The keys of a table after a write depend on its keys before only. *)
Lemma props_set_keys (k : string) (v v' : value) (ps qs : props) :
  map fst ps = map fst qs ->
  map fst (props_set k v ps) = map fst (props_set k v' qs).
Proof.
  intros E. unfold props_set. rewrite (has_key_keys k ps qs E).
  destruct (has_key k qs).
  - now rewrite !map_fst_replace.
  - destruct (array_index k).
    + now apply insert_index_keys.
    + rewrite !map_app. now rewrite E.
Qed.

(** X15.  Where no file is named [__proto__] and no flat map of a content
    has the key [__proto__], the rows form a table: every row has the
    same cells in the same order, which are [key] and one cell for each
    file. *)
Theorem merge_rows_rectangular
    (files : list (string * value)) (r1 r2 : value) :
  files_within files = true ->
  In r1 (merge_rows files) -> In r2 (merge_rows files) ->
  map fst (entries r1) = map fst (entries r2) /\
  (forall h, In h (map fst (entries r1)) <->
             h = "key" \/ In h (map fst files)).
Proof.
  intros _. unfold merge_rows. rewrite !in_map_iff.
  intros (k1 & <- & _) (k2 & <- & _). unfold make_row. cbn [entries]. split.
  - assert (H : forall cols row1 row2,
               map fst row1 = map fst row2 ->
               map fst
                 (fold_left
                    (fun row col =>
                       props_set col
                         (nullish_default
                            (read k1 (read col (VObj (flat_maps files))))) row)
                    cols row1) =
               map fst
                 (fold_left
                    (fun row col =>
                       props_set col
                         (nullish_default
                            (read k2 (read col (VObj (flat_maps files))))) row)
                    cols row2)).
    { induction cols as [|c cols IH]; intros row1 row2 E; simpl; auto.
      apply IH. now apply props_set_keys. }
    now apply H.
  - intros h. rewrite make_row_fold, keys_fold_set_entry.
    rewrite map_map. simpl. rewrite map_id. unfold columns.
    rewrite sort_In, flat_maps_keys. intuition.
Qed.

Lemma merge_rows_rectangular_witness :
  map fst (entries (VObj [("key", VStr "a.x"); ("en", VNum 1); ("zh", VStr "")])) =
  map fst (entries (VObj [("key", VStr "b"); ("en", VStr "z"); ("zh", VStr "y")])) /\
  (forall h,
      In h (map fst (entries (VObj [("key", VStr "a.x"); ("en", VNum 1);
                                    ("zh", VStr "")]))) <->
      h = "key" \/
      In h (map fst [("zh", VObj [("b", VStr "y")]);
                     ("en", VObj [("a", VObj [("x", VNum 1)]); ("b", VStr "z")])])).
Proof.
  apply (merge_rows_rectangular
           [("zh", VObj [("b", VStr "y")]);
            ("en", VObj [("a", VObj [("x", VNum 1)]); ("b", VStr "z")])]
           (VObj [("key", VStr "a.x"); ("en", VNum 1); ("zh", VStr "")])
           (VObj [("key", VStr "b"); ("en", VStr "z"); ("zh", VStr "y")])).
  - reflexivity.
  - simpl. auto.
  - simpl. auto.
Defined.

(** ** From the rows of a sheet to the flat map *)


Lemma trimStart_cases (s : string) :
  (trimStart s = "" /\ all_white s = true) \/
  (exists c t, trimStart s = String c t /\ is_white c = false).
Proof.
  induction s as [|c s IH]; simpl; [now left|].
  destruct (is_white c) eqn:E; simpl; [exact IH|].
  right. exists c, s. auto.
Qed.

Lemma trimEnd_empty (s : string) : trimEnd s = "" <-> all_white s = true.
Proof.
  induction s as [|c s IH]; simpl; [tauto|].
  destruct (trimEnd s) as [|c' t]; destruct (is_white c); simpl; split;
    try discriminate; intros H.
  - now apply IH.
  - reflexivity.
  - apply IH in H. discriminate.
Qed.

Lemma trim_empty (s : string) : trim s = "" <-> all_white s = true.
Proof.
  unfold trim. rewrite trimEnd_empty.
  destruct (trimStart_cases s) as [[E H]|(c & t & E & Hc)]; rewrite E; simpl.
  - tauto.
  - rewrite Hc. simpl. split; [discriminate|]. intros H. exfalso.
    revert E Hc H. clear. induction s as [|c0 s IH]; simpl; [discriminate|].
    destruct (is_white c0) eqn:E0; simpl.
    + intros E Hc H. now apply IH.
    + discriminate.
Qed.

Lemma trimEnd_idem (s : string) : trimEnd (trimEnd s) = trimEnd s.
Proof.
  induction s as [|c s IH]; [reflexivity|]. cbn [trimEnd].
  destruct (trimEnd s) as [|c1 t1] eqn:E.
  - destruct (is_white c) eqn:Ec; [reflexivity|]. simpl. now rewrite Ec.
  - cbn [trimEnd]. cbn [trimEnd] in IH.
    destruct (match trimEnd t1 with
              | "" => if is_white c1 then "" else String c1 ""
              | String a s0 => String c1 (String a s0)
              end) eqn:E1; [discriminate|]. now rewrite IH.
Qed.

Lemma trimEnd_head (c : ascii) (t : string) :
  is_white c = false -> exists t', trimEnd (String c t) = String c t'.
Proof.
  intros Hc. cbn [trimEnd]. destruct (trimEnd t).
  - rewrite Hc. now exists "".
  - now eexists.
Qed.

Lemma trim_idem (s : string) : trim (trim s) = trim s.
Proof.
  unfold trim.
  destruct (trimStart_cases s) as [[E _]|(c & t & E & Hc)]; rewrite E;
    [reflexivity|].
  destruct (trimEnd_head c t Hc) as (t' & E').
  rewrite E'. cbn [trimStart]. rewrite Hc, <- E'. apply trimEnd_idem.
Qed.

Lemma fold_rows_app {S : Type} (body : S -> value -> option S)
    (l1 l2 : list value) :
  forall st,
    fold_rows body (l1 ++ l2) st =
    match fold_rows body l1 st with
    | Some st' => fold_rows body l2 st'
    | None => None
    end.
Proof.
  induction l1 as [|r l1 IH]; intros st; simpl; auto.
  destruct (body st r); auto.
Qed.




Lemma fold_flatMap_row_keys (keyCol valueCol : string) (rows : list value) :
  forall st,
    (forall r, In r rows -> is_some (key_of_row keyCol r) = true) ->
    exists fm,
      fold_rows (flatMap_row keyCol valueCol) rows st = Some fm /\
      (forall k, In k (map fst fm) <->
                 In k (map fst st) \/
                 (k <> "" /\ exists r, In r rows /\ key_of_row keyCol r = Some k)).
Proof.
  induction rows as [|r rows IH]; intros st Hrows.
  - exists st. split; [reflexivity|]. intros k. split; [auto|].
    intros [H|(_ & r & [] & _)]. exact H.
  - pose proof (Hrows r (or_introl eq_refl)) as Hr.
    destruct (key_of_row keyCol r) as [k0|] eqn:Ek; [|discriminate].
    cbn [fold_rows]. unfold flatMap_row at 1. rewrite Ek.
    destruct (IH (if k0 =? "" then st
                  else props_set k0 (read valueCol r) st)) as (fm & Hfm & Hk).
    { intros r' Hr'. apply Hrows. now right. }
    exists fm. split; [exact Hfm|]. intros k. rewrite Hk. clear Hk Hfm.
    destruct (String.eqb_spec k0 "") as [-> |Hne].
    + split.
      * intros [H|(Hk & r' & Hin & E)]; auto.
        right. split; auto. exists r'. split; auto. now right.
      * intros [H|(Hk & r' & [<-|Hin] & E)]; auto.
        -- congruence.
        -- right. split; auto. now exists r'.
    + rewrite keys_props_set. split.
      * intros [[-> |H]|(Hk & r' & Hin & E)]; auto.
        -- right. split; auto. exists r. split; auto. now left.
        -- right. split; auto. exists r'. split; auto. now right.
      * intros [H|(Hk & r' & [<-|Hin] & E)]; auto.
        -- left. left. congruence.
        -- right. split; auto. now exists r'.
Qed.

Lemma key_of_row_trimmed (keyCol : string) (r : value) (k : string) :
  key_of_row keyCol r = Some k -> trim k = k.
Proof.
  unfold key_of_row.
  destruct (String_value (nullish_default (read keyCol r))) as [s|];
    [|discriminate].
  simpl. intros [= <-]. apply trim_idem.
Qed.

Lemma key_cell_ok_some (keyCol : string) (r : value) :
  key_cell_ok keyCol r = true -> is_some (key_of_row keyCol r) = true.
Proof.
  unfold key_cell_ok. now destruct (key_of_row keyCol r).
Qed.

(** X17.  Where every key cell is a string, a boolean, an integer below
    2^53 in magnitude, [null] or missing, and none trims to [__proto__],
    the loop over the rows returns a flat map whose keys are exactly the
    trimmed key cells that are not empty; so no key of the flat map is
    empty or made of white space only, and none begins or ends with white
    space. *)
Theorem flatMap_keys_trimmed
    (keyCol valueCol : string) (rows : list value) :
  (forall r, In r rows -> key_cell_ok keyCol r = true) ->
  exists fm,
    flatMap_of_rows keyCol valueCol rows = Some fm /\
    (forall k, In k (map fst fm) <->
               k <> "" /\ exists r, In r rows /\ key_of_row keyCol r = Some k) /\
    (forall k, In k (map fst fm) ->
               trim k = k /\ all_white k = false).
Proof.
  intros Hrows.
  destruct (fold_flatMap_row_keys keyCol valueCol rows []
              (fun r Hr => key_cell_ok_some keyCol r (Hrows r Hr)))
    as (fm & Hfm & Hk).
  exists fm. split; [exact Hfm|].
  assert (Hk' : forall k, In k (map fst fm) <->
                  k <> "" /\ exists r, In r rows /\ key_of_row keyCol r = Some k).
  { intros k. rewrite Hk. simpl. tauto. }
  split; [exact Hk'|]. intros k Hin. apply Hk' in Hin as (Hne & r & _ & E).
  pose proof (key_of_row_trimmed _ _ _ E) as Ht. split; [exact Ht|].
  destruct (all_white k) eqn:A; [|reflexivity].
  apply trim_empty in A. congruence.
Qed.

Lemma flatMap_keys_trimmed_witness :
  exists fm,
    flatMap_of_rows "key" "en"
      [VObj [("key", VStr " a.b "); ("en", VStr "x")];
       VObj [("key", VNull); ("en", VStr "y")]] = Some fm /\
    (forall k, In k (map fst fm) <->
               k <> "" /\
               exists r,
                 In r [VObj [("key", VStr " a.b "); ("en", VStr "x")];
                       VObj [("key", VNull); ("en", VStr "y")]] /\
                 key_of_row "key" r = Some k) /\
    (forall k, In k (map fst fm) -> trim k = k /\ all_white k = false).
Proof.
  apply (flatMap_keys_trimmed "key" "en"
           [VObj [("key", VStr " a.b "); ("en", VStr "x")];
            VObj [("key", VNull); ("en", VStr "y")]]).
  intros r [<-|[<-|[]]]; reflexivity.
Defined.

Lemma fold_flatMap_row_other (keyCol valueCol k : string) (rows : list value) :
  (forall r, In r rows -> key_of_row keyCol r <> Some k) ->
  forall st fm,
    fold_rows (flatMap_row keyCol valueCol) rows st = Some fm ->
    assoc k fm = assoc k st.
Proof.
  induction rows as [|r rows IH]; intros Hrows st fm; simpl.
  - now intros [= ->].
  - unfold flatMap_row at 1.
    destruct (key_of_row keyCol r) as [k0|] eqn:Ek; [|discriminate].
    intros H. apply IH in H; [|intros r' Hr'; apply Hrows; now right].
    rewrite H. destruct (k0 =? ""); [reflexivity|].
    apply assoc_props_set_other. intros ->.
    apply (Hrows r); [now left | exact Ek].
Qed.

Lemma fold_flatMap_row_last
    (keyCol valueCol : string) (pre post : list value) (r : value)
    (k : string) (st fm : props) :
  fold_rows (flatMap_row keyCol valueCol) (pre ++ r :: post) st = Some fm ->
  key_of_row keyCol r = Some k -> k <> "" ->
  (forall r', In r' post -> key_of_row keyCol r' <> Some k) ->
  assoc k fm = Some (read valueCol r).
Proof.
  intros Hfm Ek Hne Hpost. rewrite fold_rows_app in Hfm.
  destruct (fold_rows (flatMap_row keyCol valueCol) pre st) as [st'|];
    [|discriminate].
  cbn [fold_rows] in Hfm. unfold flatMap_row at 1 in Hfm. rewrite Ek in Hfm.
  apply String.eqb_neq in Hne. rewrite Hne in Hfm.
  rewrite (fold_flatMap_row_other _ _ k post Hpost _ _ Hfm).
  apply assoc_props_set_same.
Qed.


(** X18.  Where every key cell is a string, a boolean, an integer below
    2^53 in magnitude, [null] or missing, and none trims to [__proto__]:
    of the rows whose key cells trim to the same key the last one wins.
    The flat map [fm] that the loop returns holds, at the trimmed key of a
    row that is not empty and that no later row repeats, the value cell of
    that row. *)
Theorem flatMap_last_row_wins
    (keyCol valueCol : string) (pre post : list value) (r : value)
    (k : string) (fm : props) :
  (forall r', In r' (pre ++ r :: post) -> key_cell_ok keyCol r' = true) ->
  flatMap_of_rows keyCol valueCol (pre ++ r :: post) = Some fm ->
  key_of_row keyCol r = Some k -> k <> "" ->
  (forall r', In r' post -> key_of_row keyCol r' <> Some k) ->
  assoc k fm = Some (read valueCol r).
Proof.
  unfold flatMap_of_rows. intros _ Hfm Ek Hne Hpost.
  now apply (fold_flatMap_row_last keyCol valueCol pre post r k [] fm).
Qed.

Lemma flatMap_last_row_wins_witness :
  assoc "a" [("a", VStr "y"); ("b", VStr "z")] =
  Some (read "en" (VObj [("key", VStr " a"); ("en", VStr "y")])).
Proof.
  apply (flatMap_last_row_wins "key" "en"
           [VObj [("key", VStr "a"); ("en", VStr "x")]]
           [VObj [("key", VStr "b"); ("en", VStr "z")]]
           (VObj [("key", VStr " a"); ("en", VStr "y")]) "a").
  - intros r' [<-|[<-|[<-|[]]]]; reflexivity.
  - reflexivity.
  - reflexivity.
  - discriminate.
  - intros r' [<-|[]]. discriminate.
Defined.

(** ** The flat maps of the second script, column by column *)

Lemma flatMaps_init_column (valueCols : list string) (col : string) :
  In col valueCols -> assoc col (flatMaps_init valueCols) = Some (VObj []).
Proof.
  intros Hin. unfold flatMaps_init.
  assert (E : forall l st,
             fold_left (fun fms c => props_set c (VObj []) fms) l st =
             fold_left set_entry (map (fun c => (c, VObj [])) l) st).
  { induction l as [|c l IH]; intros st; simpl; auto. }
  rewrite E. apply assoc_fold_set_entry.
  - intros v' Hv'. apply in_map_iff in Hv' as (c & [= _ <-] & _). reflexivity.
  - left. apply in_map_iff. now exists col.
Qed.

Lemma flatMaps_row_column (k : string) (r : value) (l : list string) :
  forall (fms : props) (c : string),
    assoc c
      (fold_left
         (fun fms col =>
            props_set col (set_prop k (read col r) (read col (VObj fms))) fms)
         l fms) =
    if in_dec string_dec c l
    then Some (set_prop k (read c r) (read c (VObj fms)))
    else assoc c fms.
Proof.
  induction l as [|c0 l IH]; intros fms c; [reflexivity|].
  cbn [fold_left]. rewrite IH.
  destruct (string_dec c0 c) as [-> |Hne].
  - assert (Hr : read c (VObj (props_set c
                    (set_prop k (read c r) (read c (VObj fms))) fms)) =
                 set_prop k (read c r) (read c (VObj fms))).
    { unfold read at 1. cbn [get_prop]. now rewrite assoc_props_set_same. }
    destruct (in_dec string_dec c (c :: l)) as [_|Hn]; [|exfalso; apply Hn; now left].
    destruct (in_dec string_dec c l).
    + now rewrite Hr, set_set_same.
    + now rewrite assoc_props_set_same.
  - assert (Hr : read c (VObj (props_set c0
                    (set_prop k (read c0 r) (read c0 (VObj fms))) fms)) =
                 read c (VObj fms)).
    { unfold read. cbn [get_prop]. now rewrite assoc_props_set_other by auto. }
    destruct (in_dec string_dec c l) as [Hi|Hi];
      destruct (in_dec string_dec c (c0 :: l)) as [Hi'|Hi'].
    + now rewrite Hr.
    + exfalso. apply Hi'. now right.
    + destruct Hi' as [E|Hi']; [congruence | contradiction].
    + now rewrite assoc_props_set_other by auto.
Qed.

Lemma fold_flatMaps_row_column
    (keyCol : string) (valueCols : list string) (col : string)
    (rows : list value) :
  In col valueCols ->
  forall fms fm,
    assoc col fms = Some (VObj fm) ->
    match fold_rows (flatMaps_row keyCol valueCols) rows fms with
    | Some fms' =>
        exists fm', fold_rows (flatMap_row keyCol col) rows fm = Some fm' /\
                    assoc col fms' = Some (VObj fm')
    | None => fold_rows (flatMap_row keyCol col) rows fm = None
    end.
Proof.
  intros Hcol. induction rows as [|r rows IH]; intros fms fm Hfm.
  - simpl. now exists fm.
  - cbn [fold_rows].
    assert (E1 : flatMaps_row keyCol valueCols fms r =
                 match key_of_row keyCol r with
                 | Some k =>
                     Some (if k =? "" then fms
                           else fold_left
                                  (fun fms col =>
                                     props_set col
                                       (set_prop k (read col r)
                                          (read col (VObj fms))) fms)
                                  valueCols fms)
                 | None => None
                 end) by reflexivity.
    assert (E2 : flatMap_row keyCol col fm r =
                 match key_of_row keyCol r with
                 | Some k =>
                     Some (if k =? "" then fm
                           else props_set k (read col r) fm)
                 | None => None
                 end) by reflexivity.
    rewrite E1, E2. clear E1 E2.
    destruct (key_of_row keyCol r) as [k|]; [|reflexivity].
    destruct (k =? ""); [now apply IH|].
    apply IH. rewrite flatMaps_row_column.
    destruct (in_dec string_dec col valueCols); [|contradiction].
    unfold read at 2. cbn [get_prop]. now rewrite Hfm.
Qed.

(** X19.  The second script builds, for each value column, the flat map
    that the loop of the first script builds for that column: the flat maps
    of the columns do not disturb each other, and both loops leave the
    embedding on the same rows. *)
Theorem flatMaps_column_is_flatMap
    (keyCol : string) (valueCols : list string) (col : string)
    (rows : list value) :
  In col valueCols ->
  match flatMaps_of_rows keyCol valueCols rows with
  | Some fms =>
      exists fm, flatMap_of_rows keyCol col rows = Some fm /\
                 assoc col fms = Some (VObj fm)
  | None => flatMap_of_rows keyCol col rows = None
  end.
Proof.
  intros Hcol. unfold flatMaps_of_rows, flatMap_of_rows.
  apply fold_flatMaps_row_column; [exact Hcol|].
  now apply flatMaps_init_column.
Qed.

Lemma flatMaps_column_is_flatMap_witness :
  match flatMaps_of_rows "key" ["en"; "zh"]
          [VObj [("key", VStr "a"); ("en", VStr "x"); ("zh", VStr "u")];
           VObj [("key", VStr "b"); ("en", VStr "y"); ("zh", VStr "v")]] with
  | Some fms =>
      exists fm,
        flatMap_of_rows "key" "zh"
          [VObj [("key", VStr "a"); ("en", VStr "x"); ("zh", VStr "u")];
           VObj [("key", VStr "b"); ("en", VStr "y"); ("zh", VStr "v")]] =
        Some fm /\
        assoc "zh" fms = Some (VObj fm)
  | None =>
      flatMap_of_rows "key" "zh"
        [VObj [("key", VStr "a"); ("en", VStr "x"); ("zh", VStr "u")];
         VObj [("key", VStr "b"); ("en", VStr "y"); ("zh", VStr "v")]] = None
  end.
Proof.
  apply (flatMaps_column_is_flatMap "key" ["en"; "zh"] "zh"
           [VObj [("key", VStr "a"); ("en", VStr "x"); ("zh", VStr "u")];
            VObj [("key", VStr "b"); ("en", VStr "y"); ("zh", VStr "v")]]).
  simpl. auto.
Defined.

(** ** [detectColumns] and [processWorkbookToJSON] *)

Lemma find_none_forallb {A : Type} (f : A -> bool) (l : list A) :
  find f l = None <-> forallb (fun x => negb (f x)) l = true.
Proof.
  induction l as [|x l IH]; simpl; [tauto|].
  destruct (f x); simpl; [split; discriminate | exact IH].
Qed.

Lemma filter_negb_nil {A : Type} (f : A -> bool) (l : list A) :
  filter (fun x => negb (f x)) l = [] <-> forallb f l = true.
Proof.
  induction l as [|x l IH]; simpl; [tauto|].
  destruct (f x); simpl; [exact IH | split; discriminate].
Qed.

Lemma unflatten_wf_readable (M : props) (k : string) (v : value) :
  wf_flatmap M = true -> In (k, v) M ->
  getDeep (split k) (unflatten (VObj M)) = Some v.
Proof.
  intros Hw Hin. destruct (unflatten_wf_paths M Hw) as [Ht Hp].
  unfold wf_flatmap in Hw. apply andb_true_iff in Hw as [Hw _].
  apply andb_true_iff in Hw as [Hok _]. rewrite forallb_forall in Hok.
  destruct (entry_ok_spec k v (Hok _ Hin)) as (Hs & _).
  apply (tidy_paths_readable (split k) false); auto.
  apply Hp. apply in_map_iff. exists (k, v). auto.
Qed.

(** X20.  From the sheet to the tree.  Let the first sheet have a name
    that is not empty and rows of which [detectColumns] finds the key
    column and the value column; let every key cell be a string, a boolean,
    an integer below 2^53 in magnitude, [null] or missing, so that the loop
    over the rows returns a flat map [fm]; and let [fm] be well formed,
    which leaves no key with a segment [__proto__].  Then
    [processWorkbookToJSON] returns the number of the keys of [fm] and a
    tree in which the value cell of a row is found at the path that the
    trimmed key cell of the row spells, for every row whose trimmed key is
    not empty and repeated by no later row.  The other sheets of the
    workbook play no part. *)
Theorem processWorkbookToJSON_row_readable
    (name : string) (rest : list (string * list value))
    (pre post : list value) (r : value)
    (keyCol valueCol k : string) (fm : props) :
  name <> "" ->
  detectColumns (pre ++ r :: post) = inr (keyCol, valueCol) ->
  flatMap_of_rows keyCol valueCol (pre ++ r :: post) = Some fm ->
  wf_flatmap fm = true ->
  key_of_row keyCol r = Some k -> k <> "" ->
  (forall r', In r' post -> key_of_row keyCol r' <> Some k) ->
  exists data,
    processWorkbookToJSON ((name, pre ++ r :: post) :: rest) =
      Returns (List.length fm, data) /\
    getDeep (split k) data = Some (read valueCol r).
Proof.
  intros Hname Hdet Hfm Hw Ek Hk Hpost.
  exists (unflatten (VObj fm)). split.
  - unfold processWorkbookToJSON. apply String.eqb_neq in Hname.
    rewrite Hname. destruct (pre ++ r :: post) eqn:E.
    + now destruct pre.
    + now rewrite Hdet, Hfm, (unflatten_within_wf fm Hw).
  - apply unflatten_wf_readable; [exact Hw|]. apply assoc_Some_In.
    now apply (fold_flatMap_row_last keyCol valueCol pre post r k [] fm).
Qed.

Lemma processWorkbookToJSON_row_readable_witness :
  exists data,
    processWorkbookToJSON
      (("Sheet1",
        [VObj [("Key", VStr "list.0"); ("en", VStr "x"); ("zh", VStr "u")]] ++
        VObj [("Key", VStr " list.1 "); ("en", VStr "y"); ("zh", VStr "v")] ::
        [VObj [("Key", VStr "title"); ("en", VStr "z"); ("zh", VStr "w")]])
       :: []) =
      Returns (List.length [("list.0", VStr "x"); ("list.1", VStr "y");
                            ("title", VStr "z")], data) /\
    getDeep (split "list.1") data =
      Some (read "en"
              (VObj [("Key", VStr " list.1 "); ("en", VStr "y");
                     ("zh", VStr "v")])).
Proof.
  apply (processWorkbookToJSON_row_readable "Sheet1" []
           [VObj [("Key", VStr "list.0"); ("en", VStr "x"); ("zh", VStr "u")]]
           [VObj [("Key", VStr "title"); ("en", VStr "z"); ("zh", VStr "w")]]
           (VObj [("Key", VStr " list.1 "); ("en", VStr "y"); ("zh", VStr "v")])
           "Key" "en" "list.1"
           [("list.0", VStr "x"); ("list.1", VStr "y"); ("title", VStr "z")]).
  - discriminate.
  - reflexivity.
  - reflexivity.
  - reflexivity.
  - reflexivity.
  - discriminate.
  - intros r' [<-|[]]. discriminate.
Defined.

(** X21.  The three errors that [processWorkbookToJSON] throws itself,
    and when: [NoSheets] for a workbook without sheets or whose first sheet
    has an empty name; on a first sheet with rows, [NoKeyColumn] if no
    header of the first row is [key] up to case and surrounding white
    space, and [NoValueColumn] if every header is, there being one.  A
    first sheet without rows is no error.  Once the columns are found none
    of the three is thrown: the call returns or leaves the embedding, and
    an exception raised inside [unflatten] is among the latter. *)
Theorem processWorkbookToJSON_throws
    (wb : list (string * list value)) (e : error) :
  processWorkbookToJSON wb = Throws e <->
  (e = NoSheets /\ (wb = [] \/ exists rows rest, wb = ("", rows) :: rest)) \/
  (exists name r rows rest,
      wb = (name, r :: rows) :: rest /\ name <> "" /\
      ((e = NoKeyColumn /\
        forallb (fun h => negb (is_key_header h)) (map fst (entries r)) = true) \/
       (e = NoValueColumn /\ map fst (entries r) <> [] /\
        forallb is_key_header (map fst (entries r)) = true))).
Proof.
  destruct wb as [|[name rows] rest].
  { simpl. split.
    - intros [= <-]. left. auto.
    - intros [[-> _]|(name & r & rows & rest & E & _)]; [reflexivity|].
      discriminate. }
  cbn [processWorkbookToJSON].
  destruct (String.eqb_spec name "") as [-> |Hname].
  { split.
    - intros [= <-]. left. split; auto. right. now exists rows, rest.
    - intros [[-> _]|(name & r & rows' & rest' & E & Hn & _)]; [reflexivity|].
      injection E as <- _ _. contradiction. }
  destruct rows as [|r rows].
  { split; [discriminate|].
    intros [[_ [E|(rows & rest' & E)]]|(name' & r & rows' & rest' & E & _)];
      try discriminate.
    injection E as -> _ _. contradiction. }
  unfold detectColumns. cbn [hd].
  destruct (find is_key_header (map fst (entries r))) as [keyCol|] eqn:Ef.
  - destruct (filter (fun h => negb (is_key_header h)) (map fst (entries r)))
      as [|valueCol l] eqn:Eg.
    + apply filter_negb_nil in Eg. split.
      * intros [= <-]. right. exists name, r, rows, rest.
        split; [reflexivity|]. split; [exact Hname|]. right.
        split; [reflexivity|]. split; [|exact Eg].
        intros E. rewrite E in Ef. discriminate.
      * intros [[_ [E|(rows' & rest' & E)]]
               |(name' & r' & rows' & rest' & E & _ & H)].
        -- discriminate.
        -- injection E as -> _ _. contradiction.
        -- injection E as <- <- <- <-.
           destruct H as [[-> H]|[-> _]]; [|reflexivity].
           apply find_none_forallb in H. congruence.
    + split.
      * destruct (flatMap_of_rows keyCol valueCol (r :: rows)) as [fm|];
          [destruct (unflatten_within (VObj fm))|]; discriminate.
      * intros [[_ [E|(rows' & rest' & E)]]
               |(name' & r' & rows' & rest' & E & _ & H)].
        -- discriminate.
        -- injection E as -> _ _. contradiction.
        -- injection E as <- <- <- <-.
           destruct H as [[_ H]|[_ [_ H]]].
           ++ apply find_none_forallb in H. congruence.
           ++ apply filter_negb_nil in H. congruence.
  - split.
    + intros [= <-]. right. exists name, r, rows, rest.
      split; [reflexivity|]. split; [exact Hname|]. left.
      split; [reflexivity|]. now apply find_none_forallb.
    + intros [[_ [E|(rows' & rest' & E)]]
             |(name' & r' & rows' & rest' & E & _ & H)].
      * discriminate.
      * injection E as -> _ _. contradiction.
      * injection E as <- <- <- <-.
        destruct H as [[-> _]|[_ [Hne H]]]; [reflexivity|].
        exfalso. destruct (map fst (entries r)) as [|h hs']; [contradiction|].
        simpl in Ef, H. apply andb_true_iff in H as [H _].
        now rewrite H in Ef.
Qed.

Lemma fold_rows_ext {S : Type} (body body' : S -> value -> option S)
    (rows rows' : list value) :
  Forall2 (fun r r' => forall st, body st r = body' st r') rows rows' ->
  forall st, fold_rows body rows st = fold_rows body' rows' st.
Proof.
  induction 1 as [|r r' rows rows' Hr _ IH]; intros st; simpl; auto.
  rewrite Hr. destruct (body' st r'); auto.
Qed.

(** X22.  [processWorkbookToJSON] reads the headers of the first row and,
    of every row, the key cell and the cell of the first value column, and
    nothing else: other columns, and other sheets, do not change what it
    returns or throws. *)
Theorem processWorkbookToJSON_reads_two_columns
    (name : string) (rows rows' : list value)
    (rest rest' : list (string * list value)) (keyCol valueCol : string) :
  detectColumns rows = inr (keyCol, valueCol) ->
  map fst (entries (hd (VObj []) rows')) = map fst (entries (hd (VObj []) rows)) ->
  Forall2 (fun r r' => read keyCol r = read keyCol r' /\
                       read valueCol r = read valueCol r') rows rows' ->
  processWorkbookToJSON ((name, rows) :: rest) =
  processWorkbookToJSON ((name, rows') :: rest').
Proof.
  intros Hdet Hh Hrows. cbn [processWorkbookToJSON].
  destruct (name =? ""); [reflexivity|].
  assert (Hdet' : detectColumns rows' = inr (keyCol, valueCol)).
  { unfold detectColumns in *. now rewrite Hh. }
  assert (Hfm : flatMap_of_rows keyCol valueCol rows =
                flatMap_of_rows keyCol valueCol rows').
  { unfold flatMap_of_rows. apply fold_rows_ext.
    eapply Forall2_impl; [|exact Hrows]. intros r r' [H1 H2] st.
    unfold flatMap_row, key_of_row. now rewrite H1, H2. }
  destruct Hrows as [|r r' rows rows' _ Hrows]; [reflexivity|].
  now rewrite Hdet, Hdet', Hfm.
Qed.

Lemma processWorkbookToJSON_reads_two_columns_witness :
  processWorkbookToJSON
    (("Sheet1",
      [VObj [("key", VStr "a"); ("en", VStr "x"); ("zh", VStr "u")];
       VObj [("key", VStr "b"); ("en", VStr "y"); ("zh", VStr "v")]])
     :: [("Sheet2", [])]) =
  processWorkbookToJSON
    (("Sheet1",
      [VObj [("key", VStr "a"); ("en", VStr "x"); ("zh", VNum 1)];
       VObj [("key", VStr "b"); ("en", VStr "y")]])
     :: []).
Proof.
  apply (processWorkbookToJSON_reads_two_columns "Sheet1"
           [VObj [("key", VStr "a"); ("en", VStr "x"); ("zh", VStr "u")];
            VObj [("key", VStr "b"); ("en", VStr "y"); ("zh", VStr "v")]]
           [VObj [("key", VStr "a"); ("en", VStr "x"); ("zh", VNum 1)];
            VObj [("key", VStr "b"); ("en", VStr "y")]]
           [("Sheet2", [])] [] "key" "en").
  - reflexivity.
  - reflexivity.
  - repeat constructor.
Defined.

(** ** From the rows of the third script back to flat maps *)









(** ** File names *)

Lemma string_length_safe_name (s : string) :
  String.length (safe_name s) = String.length s.
Proof. induction s as [|c s IH]; simpl; congruence. Qed.

(** X24.  The name under which a file is written has none of the
    characters that [replace] looks for, so no path separator; it has the
    length of the name it is made from, and a name without those characters
    is left as it is. *)
Theorem safe_name_safe (name : string) :
  all_chars (fun c => negb (unsafe_char c)) (safe_name name) = true /\
  String.length (safe_name name) = String.length name /\
  (all_chars (fun c => negb (unsafe_char c)) name = true ->
   safe_name name = name).
Proof.
  split; [|split].
  - induction name as [|c s IH]; simpl; [reflexivity|].
    rewrite IH, andb_true_r. now destruct (unsafe_char c) eqn:E; [|rewrite E].
  - apply string_length_safe_name.
  - induction name as [|c s IH]; simpl; [reflexivity|].
    intros H. apply andb_true_iff in H as [Hc Hs].
    apply negb_true_iff in Hc. now rewrite Hc, IH.
Qed.

(** ** From a file to the sheet and back to a tree *)




(** X26.  The two scripts that read a sheet agree on a value column.  Let
    no value column be named [__proto__]; let every key cell be a string, a
    boolean, an integer below 2^53 in magnitude, [null] or missing, so that
    the loop of the first script returns a flat map [fm] for the column;
    and let [fm] be well formed, which leaves no key with a segment
    [__proto__], and its keys start with a name.  Then the tree the second
    script builds for the column with its own [unflatten] is the tree the
    first script builds from [fm]. *)
Theorem sheet_scripts_agree
    (keyCol : string) (valueCols : list string) (col : string)
    (rows : list value) (fm : props) :
  ~ In "__proto__" valueCols ->
  In col valueCols ->
  flatMap_of_rows keyCol col rows = Some fm ->
  wf_flatmap fm = true ->
  (forall k v, In (k, v) fm -> isIndex (hd "" (split k)) = false) ->
  exists fms,
    flatMaps_of_rows keyCol valueCols rows = Some fms /\
    option_map unflatten2 (assoc col fms) = Some (unflatten (VObj fm)).
Proof.
  intros _ Hcol Hfm Hw Htop.
  pose proof (fold_flatMaps_row_column keyCol valueCols col rows Hcol
                (flatMaps_init valueCols) []
                (flatMaps_init_column _ _ Hcol)) as H.
  fold (flatMaps_of_rows keyCol valueCols rows) in H.
  fold (flatMap_of_rows keyCol col rows) in H. rewrite Hfm in H.
  destruct (flatMaps_of_rows keyCol valueCols rows) as [fms|]; [|discriminate].
  destruct H as (fm' & E & Hfms). injection E as <-.
  exists fms. split; [reflexivity|]. rewrite Hfms. simpl. f_equal.
  unfold wf_flatmap in Hw.
  apply andb_true_iff in Hw as [Hw' Hpw]. apply andb_true_iff in Hw' as [Hok Hd].
  unfold unflatten2, unflatten. cbn [entries].
  apply (fold_unflatten2_agrees fm (VObj []) []); auto;
    solve [intros e; simpl; tauto | intros kv e _ []].
Qed.

Lemma sheet_scripts_agree_witness :
  exists fms,
    flatMaps_of_rows "key" ["en"; "zh"]
      [VObj [("key", VStr "list.0"); ("en", VStr "x"); ("zh", VStr "u")];
       VObj [("key", VStr "list.1"); ("en", VStr "y"); ("zh", VStr "v")]] =
      Some fms /\
    option_map unflatten2 (assoc "zh" fms) =
      Some (unflatten (VObj [("list.0", VStr "u"); ("list.1", VStr "v")])).
Proof.
  apply (sheet_scripts_agree "key" ["en"; "zh"] "zh"
           [VObj [("key", VStr "list.0"); ("en", VStr "x"); ("zh", VStr "u")];
            VObj [("key", VStr "list.1"); ("en", VStr "y"); ("zh", VStr "v")]]
           [("list.0", VStr "u"); ("list.1", VStr "v")]).
  - simpl. intros [H|[H|[]]]; discriminate.
  - simpl. auto.
  - reflexivity.
  - reflexivity.
  - intros k v [H|[H|[]]]; injection H as <- <-; reflexivity.
Defined.
